(** * pathkit: a shallow embedding of the path algebra, the alias table,
      the import/export scanner and the import-path converter.

    Strings are modelled as lists of 8-bit characters ([list ascii]); indices
    that the source lets go negative ([lastSlash], [dots], the result of
    [lastIndexOf]) are integers ([Z]).  Every definition below names the
    source function it follows. *)

From Stdlib Require Import List Ascii String ZArith Lia Bool Arith.
Import ListNotations.

Open Scope string_scope.
Open Scope list_scope.

(** ** JavaScript string primitives used by the sources *)

Definition str := list ascii.

Coercion list_ascii_of_string : string >-> list.

Module JsString.

Definition len (s : str) : Z := Z.of_nat (List.length s).

Fixpoint eqb (a b : str) : bool :=
  match a, b with
  | [], [] => true
  | c :: a', d :: b' => Ascii.eqb c d && eqb a' b'
  | _, _ => false
  end.

Definition isEmpty (s : str) : bool :=
  match s with [] => true | _ :: _ => false end.

(** [s.startsWith(p)] *)
Fixpoint startsWith (s p : str) {struct p} : bool :=
  match p, s with
  | [], _ => true
  | c :: p', d :: s' => Ascii.eqb c d && startsWith s' p'
  | _ :: _, [] => false
  end.

(** [s.endsWith(p)] *)
Definition endsWith (s p : str) : bool := startsWith (rev s) (rev p).

(** [s[i]]: [None] stands for [undefined]. *)
Definition charAt (s : str) (i : Z) : option ascii :=
  if (i <? 0)%Z then None else nth_error s (Z.to_nat i).

Definition clampIndex (n i : Z) : Z :=
  if (i <? 0)%Z then Z.max (n + i) 0 else Z.min i n.

(** [s.slice(a, b)], negative indices counting from the end. *)
Definition slice (s : str) (a b : Z) : str :=
  let from := clampIndex (len s) a in
  let to := clampIndex (len s) b in
  firstn (Z.to_nat (to - from)) (skipn (Z.to_nat from) s).

(** [s.slice(a)] *)
Definition sliceFrom (s : str) (a : Z) : str := slice s a (len s).

(** [s.substring(a)] *)
Definition substringFrom (s : str) (a : Z) : str :=
  skipn (Z.to_nat (Z.max a 0)) s.

Fixpoint lastIndexOfAux (c : ascii) (s : str) (i acc : Z) : Z :=
  match s with
  | [] => acc
  | d :: s' => lastIndexOfAux c s' (i + 1) (if Ascii.eqb d c then i else acc)
  end.

(** [s.lastIndexOf(c)] for a one-character needle; [-1] when absent. *)
Definition lastIndexOf (s : str) (c : ascii) : Z := lastIndexOfAux c s 0 (-1).

(** [s.lastIndexOf(c, from)] with [0 <= from]. *)
Definition lastIndexOfFrom (s : str) (c : ascii) (from : Z) : Z :=
  lastIndexOf (firstn (Z.to_nat (from + 1)) s) c.

(** [s.split(sep)] for a separator given as a character class; the result
    always has at least one piece. *)
Fixpoint splitOn (p : ascii -> bool) (s : str) : list str :=
  match s with
  | [] => [[]]
  | c :: s' =>
      if p c then [] :: splitOn p s'
      else match splitOn p s' with
           | h :: t => (c :: h) :: t
           | [] => [[c]]
           end
  end.

Definition split (sep : ascii) (s : str) : list str := splitOn (Ascii.eqb sep) s.

(** [l.join(sep)] *)
Fixpoint join (sep : str) (l : list str) : str :=
  match l with
  | [] => []
  | [x] => x
  | x :: t => x ++ sep ++ join sep t
  end.

(** [l.filter(Boolean)] on an array of strings *)
Definition filterNonEmpty (l : list str) : list str :=
  filter (fun s => negb (isEmpty s)) l.

Definition isAsciiLetter (c : ascii) : bool :=
  let n := nat_of_ascii c in
  ((65 <=? n) && (n <=? 90) || (97 <=? n) && (n <=? 122))%nat.

Definition toUpperChar (c : ascii) : ascii :=
  let n := nat_of_ascii c in
  if ((97 <=? n) && (n <=? 122))%nat then ascii_of_nat (n - 32) else c.

(** [s.toUpperCase()] on 8-bit text *)
Definition toUpperCase (s : str) : str := map toUpperChar s.

(** [s.replace(/\\/g, "/")] *)
Definition replaceBackslashes (s : str) : str :=
  map (fun c => if Ascii.eqb c "\" then "/"%char else c) s.

(** [s.includes(sub)] *)
Fixpoint includes (s sub : str) : bool :=
  startsWith s sub ||
  match s with
  | [] => false
  | _ :: s' => includes s' sub
  end.

(** White space and line terminators among the code units below 256 *)
Definition isWhitespace (c : ascii) : bool :=
  let n := nat_of_ascii c in
  ((9 <=? n) && (n <=? 13) || (n =? 32) || (n =? 160))%nat.

Fixpoint trimStart (s : str) : str :=
  match s with
  | c :: s' => if isWhitespace c then trimStart s' else s
  | [] => []
  end.

(** [s.trim()] *)
Definition trim (s : str) : str := rev (trimStart (rev (trimStart s))).

(** [s.split(sep)] for a non-empty separator string; [skip] counts the
    characters of a separator still to be passed over and [cur] holds the
    current piece in reverse. *)
Fixpoint splitStrAux (sep s : str) (skip : nat) (cur : str) : list str :=
  match s with
  | [] => [rev cur]
  | c :: s' =>
      match skip with
      | S k => splitStrAux sep s' k cur
      | O =>
          if startsWith s sep
          then rev cur :: splitStrAux sep s' (List.length sep - 1) []
          else splitStrAux sep s' 0 (c :: cur)
      end
  end.

Definition splitStr (sep s : str) : list str := splitStrAux sep s 0 [].

Fixpoint indexOfFrom (s sub : str) (i : Z) : Z :=
  if startsWith s sub then i
  else match s with
       | [] => (-1)%Z
       | _ :: s' => indexOfFrom s' sub (i + 1)%Z
       end.

(** [s.indexOf(sub)]; [-1] when absent. *)
Definition indexOf (s sub : str) : Z := indexOfFrom s sub 0.

(** The double quote character *)
Definition DQUOTE : ascii := ascii_of_nat 34.

End JsString.

(** ** The path algebra (mod.ts of pathkit) *)

Module PathKit.
Import JsString.

Definition SLASH : str := "/".
Definition DOT : str := ".".
Definition DOUBLE_DOT : str := "..".
Definition EMPTY : str := "".

Definition isSep (c : ascii) : bool := Ascii.eqb c "/" || Ascii.eqb c "\".

(** [/^[A-Za-z]:\//] *)
Definition DRIVE_LETTER_START_RE (s : str) : bool :=
  match s with
  | c1 :: c2 :: c3 :: _ => isAsciiLetter c1 && Ascii.eqb c2 ":" && Ascii.eqb c3 "/"
  | _ => false
  end.

(** [/^[A-Za-z]:$/] *)
Definition DRIVE_LETTER_RE (s : str) : bool :=
  match s with
  | [c1; c2] => isAsciiLetter c1 && Ascii.eqb c2 ":"
  | _ => false
  end.

(** [/^[/\\]{2}/] *)
Definition UNC_REGEX (s : str) : bool :=
  match s with
  | c1 :: c2 :: _ => isSep c1 && isSep c2
  | _ => false
  end.

(** [/^[/\\](?![/\\])|^[/\\]{2}(?!\.)|^[A-Za-z]:[/\\]/] *)
Definition IS_ABSOLUTE_RE (s : str) : bool :=
  match s with
  | [] => false
  | c1 :: rest =>
      (isSep c1 && match rest with c2 :: _ => negb (isSep c2) | [] => true end)
      || (isSep c1 &&
          match rest with
          | c2 :: rest2 =>
              isSep c2 &&
              match rest2 with c3 :: _ => negb (Ascii.eqb c3 ".") | [] => true end
          | [] => false
          end)
      || (isAsciiLetter c1 &&
          match rest with
          | c2 :: c3 :: _ => Ascii.eqb c2 ":" && isSep c3
          | _ => false
          end)
  end.

(** [s.replace(ROOT_FOLDER_RE, "$1")] with
    [ROOT_FOLDER_RE = /^\/([A-Za-z]:)?$/] *)
Definition replaceRootFolder (s : str) : str :=
  match s with
  | [c0] => if Ascii.eqb c0 "/" then [] else s
  | [c0; c1; c2] =>
      if Ascii.eqb c0 "/" && isAsciiLetter c1 && Ascii.eqb c2 ":" then [c1; c2] else s
  | _ => s
  end.

(** [PATH_ROOT_RE.exec(s)] with [PATH_ROOT_RE = /^[/\\]|^[a-zA-Z]:[/\\]/];
    the result is the matched text. *)
Definition PATH_ROOT_RE_exec (s : str) : option str :=
  match s with
  | c1 :: rest =>
      if isSep c1 then Some [c1]
      else match rest with
           | c2 :: c3 :: _ =>
               if isAsciiLetter c1 && Ascii.eqb c2 ":" && isSep c3
               then Some [c1; c2; c3] else None
           | _ => None
           end
  | [] => None
  end.

(** [normalizeWindowsPath] *)
Definition normalizeWindowsPath (input : str) : str :=
  if isEmpty input then input
  else
    let s := replaceBackslashes input in
    match s with
    | c1 :: c2 :: c3 :: rest =>
        if DRIVE_LETTER_START_RE s then toUpperChar c1 :: toUpperChar c2 :: toUpperChar c3 :: rest
        else s
    | _ => s
    end.

(** [compareAliases] *)
Definition compareAliases (a b : str) : Z :=
  (Z.of_nat (List.length (split "/" b)) - Z.of_nat (List.length (split "/" a)))%Z.

(** *** [normalizeString]: the character loop *)

Record NState := mkNState {
  res : str;
  lastSegmentLength : Z;
  lastSlash : Z;
  dots : Z
}.

(** [o === c] for a character read by indexing *)
Definition charIs (o : option ascii) (c : ascii) : bool :=
  match o with
  | Some d => Ascii.eqb d c
  | None => false
  end.

(** One iteration of the loop body for the character [c] at [index]. *)
Definition nsBody (path : str) (allowAboveRoot : bool) (index : Z) (c : ascii)
           (st : NState) : NState :=
  if Ascii.eqb c "/" then
    if (lastSlash st =? index - 1)%Z || (dots st =? 1)%Z then
      mkNState (res st) (lastSegmentLength st) index 0
    else if (dots st =? 2)%Z then
      let above :=
        (* the fall-through to the [allowAboveRoot] test *)
        if allowAboveRoot then
          mkNState (res st ++ (if (len (res st) >? 0)%Z then "/.." else ".."))
                   2 index 0
        else mkNState (res st) (lastSegmentLength st) index 0 in
      if (len (res st) <? 2)%Z
         || negb (lastSegmentLength st =? 2)%Z
         || negb (endsWith (res st) DOT)
         || negb (charIs (charAt (res st) (len (res st) - 2)) ".")
      then
        if (len (res st) >? 2)%Z then
          let lastSlashIndex := lastIndexOf (res st) "/" in
          if (lastSlashIndex =? -1)%Z then mkNState EMPTY 0 index 0
          else
            let r := slice (res st) 0 lastSlashIndex in
            mkNState r (len r - 1 - lastIndexOf r "/") index 0
        else if (len (res st) >? 0)%Z then mkNState EMPTY 0 index 0
        else above
      else above
    else
      let segment := slice path (lastSlash st + 1) index in
      mkNState (if (len (res st) >? 0)%Z then res st ++ SLASH ++ segment else segment)
               (len segment) index 0
  else if Ascii.eqb c "." && negb (dots st =? -1)%Z then
    mkNState (res st) (lastSegmentLength st) (lastSlash st) (dots st + 1)
  else
    mkNState (res st) (lastSegmentLength st) (lastSlash st) (-1).

(** The loop [for (index = 0; index <= path.length; ++index)]: [rest] is
    the part of [path] from [index] on and [char] the character read in
    the previous iteration. *)
Fixpoint nsLoop (path : str) (allowAboveRoot : bool) (rest : str) (index : Z)
         (char : option ascii) (st : NState) : str :=
  match rest with
  | c :: rest' =>
      nsLoop path allowAboveRoot rest' (index + 1) (Some c)
             (nsBody path allowAboveRoot index c st)
  | [] =>
      match char with
      | Some c =>
          if Ascii.eqb c "/" then res st
          else res (nsBody path allowAboveRoot index "/" st)
      | None => res (nsBody path allowAboveRoot index "/" st)
      end
  end.

Definition normalizeString (path : str) (allowAboveRoot : bool) : str :=
  nsLoop path allowAboveRoot path 0 None (mkNState EMPTY 0 (-1) 0).

(** *** [normalize] *)

Definition normalize (path : str) : str :=
  if (len path =? 0)%Z then DOT
  else
    let originalPath := path in
    let path := normalizeWindowsPath path in
    let isPathAbsolute := IS_ABSOLUTE_RE path in
    let trailingSeparator := endsWith path SLASH in
    let path := normalizeString path (negb isPathAbsolute) in
    if (len path =? 0)%Z then
      if isPathAbsolute then SLASH
      else if trailingSeparator && (len originalPath >? 0)%Z
              && negb (eqb originalPath DOT)
           then "./" else DOT
    else
      let path := if trailingSeparator && negb (endsWith path SLASH)
                  then path ++ SLASH else path in
      let path := if DRIVE_LETTER_RE path && (len path =? 2)%Z
                  then path ++ SLASH else path in
      let normOriginal := replaceBackslashes originalPath in
      let dropSlash (p : str) := if startsWith p SLASH then substringFrom p 1 else p in
      if UNC_REGEX normOriginal && startsWith normOriginal "//./" then
        "//./" ++ dropSlash path
      else if UNC_REGEX normOriginal && startsWith normOriginal "//"
              && negb (startsWith normOriginal "//./") then
        "//" ++ dropSlash path
      else if isPathAbsolute && negb (IS_ABSOLUTE_RE path) && negb (eqb path SLASH)
      then SLASH ++ path
      else path.

(** *** [join], [resolve], [isAbsolute], [extname], [relative], [dirname],
    [format], [basename], [parse] on string arguments *)

Fixpoint joinLoop (segments : list str) (joined : str) : str :=
  match segments with
  | [] => joined
  | segment :: rest =>
      joinLoop rest
        (if (len segment >? 0)%Z then
           if (len joined =? 0)%Z then segment else joined ++ SLASH ++ segment
         else joined)
  end.

Definition join (segments : list str) : str :=
  match segments with
  | [] => DOT
  | _ =>
      let joined := joinLoop segments EMPTY in
      if (len joined =? 0)%Z then DOT else normalize joined
  end.

Section WithProcess.

(** [process.cwd()], or [None] when there is no [process] object. *)
Variable process_cwd : option str.

(** [cwd] *)
Definition cwd : str :=
  match process_cwd with
  | Some d => replaceBackslashes d
  | None => SLASH
  end.

(** The loop of [resolve]; [visit] lists [args[i]] for [i] from
    [args.length - 1] down to [0], followed by [cwd()]. *)
Fixpoint resolveLoop (visit : list str) (resolvedPath : str) : str * bool :=
  match visit with
  | [] => (resolvedPath, false)
  | path :: rest =>
      if (len path =? 0)%Z then resolveLoop rest resolvedPath
      else
        let normalizedSegment := normalizeWindowsPath path in
        let resolvedPath := normalizedSegment ++ SLASH ++ resolvedPath in
        if IS_ABSOLUTE_RE normalizedSegment then (resolvedPath, true)
        else resolveLoop rest resolvedPath
  end.

Definition resolve (args : list str) : str :=
  let (resolvedPath, resolvedAbsolute) := resolveLoop (rev args ++ [cwd]) EMPTY in
  let resolvedPath := normalizeString resolvedPath (negb resolvedAbsolute) in
  if resolvedAbsolute then
    if IS_ABSOLUTE_RE resolvedPath then resolvedPath else SLASH ++ resolvedPath
  else if (len resolvedPath >? 0)%Z then resolvedPath else DOT.

(** The [while] loop of [relative] counting common leading segments. *)
Fixpoint commonPrefixLength (a b : list str) : nat :=
  match a, b with
  | x :: a', y :: b' => if eqb x y then S (commonPrefixLength a' b') else O
  | _, _ => O
  end.

Definition relative (from to : str) : str :=
  let resolvedFrom := resolve [from] in
  let resolvedTo := resolve [to] in
  if eqb resolvedFrom resolvedTo then EMPTY
  else
    let fromSegments := filterNonEmpty (split "/" (replaceRootFolder resolvedFrom)) in
    let toSegments := filterNonEmpty (split "/" (replaceRootFolder resolvedTo)) in
    let differentDrives :=
      match fromSegments, toSegments with
      | f0 :: _, t0 :: _ =>
          DRIVE_LETTER_RE f0 && DRIVE_LETTER_RE t0
          && negb (eqb (toUpperCase f0) (toUpperCase t0))
      | _, _ => false
      end in
    if differentDrives then resolvedTo
    else
      let commonSegments := commonPrefixLength fromSegments toSegments in
      let upSegments := repeat DOUBLE_DOT (List.length fromSegments - commonSegments) in
      let downSegments := skipn commonSegments toSegments in
      let result := JsString.join SLASH (upSegments ++ downSegments) in
      if (len result >? 0)%Z then result else DOT.

End WithProcess.

Definition isAbsolute (p : str) : bool := IS_ABSOLUTE_RE (normalizeWindowsPath p).

Definition toNamespacedPath (p : str) : str :=
  if (len p =? 0)%Z then p else normalize p.

Definition extname (p : str) : str :=
  let path := normalizeWindowsPath p in
  let lastSlashIdx := lastIndexOf path "/" in
  let lastSlashIdx := if (lastSlashIdx =? -1)%Z then 0%Z else lastSlashIdx in
  let basePart := if (lastSlashIdx =? 0)%Z then path
                  else substringFrom path (lastSlashIdx + 1) in
  if eqb basePart DOT || eqb basePart DOUBLE_DOT then EMPTY
  else
    let lastDotIdx := lastIndexOf basePart "." in
    if (lastDotIdx <=? 0)%Z then EMPTY else substringFrom basePart lastDotIdx.

Definition dirname (p : str) : str :=
  if (len p =? 0)%Z then DOT
  else
    let normalizedPath := normalizeWindowsPath p in
    let lastSlash := lastIndexOf normalizedPath "/" in
    if (lastSlash =? -1)%Z then
      if IS_ABSOLUTE_RE normalizedPath then SLASH else DOT
    else if (lastSlash =? 0)%Z then SLASH
    else
      let dir := slice normalizedPath 0 lastSlash in
      if DRIVE_LETTER_RE dir && (len dir =? 2)%Z then dir ++ SLASH
      else normalize dir.

Record FormatInputPathObject := mkPathObject {
  fo_root : option str;
  fo_dir : option str;
  fo_base : option str;
  fo_ext : option str;
  fo_name : option str
}.

(** [a || b] on an optional string and a string *)
Definition orElse (a : option str) (b : str) : str :=
  match a with
  | Some s => if isEmpty s then b else s
  | None => b
  end.

Definition format (p : FormatInputPathObject) : str :=
  let dir := orElse (fo_dir p) (orElse (fo_root p) EMPTY) in
  let base := orElse (fo_base p) (orElse (fo_name p) EMPTY ++ orElse (fo_ext p) EMPTY) in
  if isEmpty dir then base
  else
    match fo_root p with
    | Some r => if eqb dir r then dir ++ base else normalize (dir ++ SLASH ++ base)
    | None => normalize (dir ++ SLASH ++ base)
    end.

(** The loop [while (end > 0 && normalizedPath[end - 1] === SLASH) end--] *)
Fixpoint trimTrailingSlashes (normalizedPath : str) (e : nat) : nat :=
  match e with
  | O => O
  | S e' =>
      if charIs (nth_error normalizedPath e') "/"
      then trimTrailingSlashes normalizedPath e' else e
  end.

Definition basename (p : str) (ext : option str) : str :=
  let normalizedPath := normalizeWindowsPath p in
  let e := Z.of_nat (trimTrailingSlashes normalizedPath (List.length normalizedPath)) in
  if (e =? 0)%Z then EMPTY
  else
    let start := lastIndexOfFrom normalizedPath "/" (e - 1) in
    let start := if (start =? -1)%Z then 0%Z else (start + 1)%Z in
    let filename := slice normalizedPath start e in
    match ext with
    | Some x =>
        if negb (isEmpty x) && endsWith filename x && negb (eqb filename x)
        then slice filename 0 (len filename - len x) else filename
    | None => filename
    end.

Record ParsedPath := mkParsedPath {
  root : str;
  dir : str;
  base : str;
  ext : str;
  name : str
}.

Definition parse (p : str) : ParsedPath :=
  let normalizedPath := normalizeWindowsPath p in
  let B := basename normalizedPath None in
  let E := extname B in
  let N := slice B 0 (len B - len E) in
  let D := dirname normalizedPath in
  let R :=
    match PATH_ROOT_RE_exec normalizedPath with
    | Some R0 =>
        if DRIVE_LETTER_RE R0 && (len R0 =? 2)%Z && (len normalizedPath >? 2)%Z
           && charIs (charAt normalizedPath 2) "/"
        then R0 ++ SLASH
        else if eqb R0 SLASH && startsWith D "//" then
          if UNC_REGEX D then
            let uncParts := firstn 3 (split "/" D) in
            let j := JsString.join SLASH uncParts in
            if isEmpty j then R0 else j
          else R0
        else R0
    | None => EMPTY
    end in
  let resolvedDir := if eqb D DOT && negb (eqb R EMPTY) && negb (eqb R DOT) then R else D in
  mkParsedPath R resolvedDir B E N.

(** [filename] *)
Definition filename (pathString : str) : option str :=
  let base := basename pathString None in
  if isEmpty base then None
  else
    let separatorIndex := lastIndexOf base "." in
    Some (if (separatorIndex <=? 0)%Z then base else slice base 0 separatorIndex).

End PathKit.

(** ** The earlier [normalize] of pathkit-impl/_path.ts

    It shares the character loop [normalizeString] with the module above
    (the earlier loop computes [lastSegmentLength] as [index - lastSlash - 1],
    the length of the same slice) and takes [normalizeWindowsPath] from its
    sibling module. *)

Module PathKitImpl.
Import JsString.

Definition isAbsolute (p : str) : bool := PathKit.IS_ABSOLUTE_RE p.

Definition normalize (path : str) : str :=
  if (len path =? 0)%Z then "."
  else
    let path := PathKit.normalizeWindowsPath path in
    let isUNCPath := PathKit.UNC_REGEX path in
    let isPathAbsolute := isAbsolute path in
    let trailingSeparator := endsWith path "/" in
    let path := PathKit.normalizeString path (negb isPathAbsolute) in
    if (len path =? 0)%Z then
      if isPathAbsolute then "/"
      else if trailingSeparator then "./" else "."
    else
      let path := if trailingSeparator then path ++ "/" else path in
      let path := if PathKit.DRIVE_LETTER_RE path then path ++ "/" else path in
      if isUNCPath then
        if negb isPathAbsolute then "//./" ++ path else "//" ++ path
      else if isPathAbsolute && negb (isAbsolute path) then "/" ++ path else path.

End PathKitImpl.

(** ** The path functions as JavaScript callers reach them

    TypeScript types are erased at run time, so every exported function can
    receive any value.  The definitions below add the run-time type tests of
    the sources in front of the string functions of [PathKit]. *)

Module PathKitJs.
Import JsString.

Inductive Value :=
| VUndefined
| VNull
| VBoolean (b : bool)
| VNumber (n : Z)
| VString (s : str)
| VObject (o : PathKit.FormatInputPathObject).



Inductive JsError :=
| TypeError (message : str)
| Error (message : str).

Inductive Completion (A : Type) :=
| Normal (a : A)
| Throw (e : JsError).

Arguments Normal {A} a.
Arguments Throw {A} e.


(** [normalizeWindowsPath(input = "")]: [if (!input) return input], then
    [input.replace(...)], which only a string has.  The messages of the
    errors that the engine raises are those of V8. *)
Definition normalizeWindowsPath (input : Value) : Completion Value :=
  match input with
  | VUndefined => Normal (VString PathKit.EMPTY)
  | VNull => Normal VNull
  | VBoolean false => Normal (VBoolean false)
  | VNumber 0 => Normal (VNumber 0)
  | VString s => Normal (VString (PathKit.normalizeWindowsPath s))
  | VBoolean true | VNumber _ | VObject _ =>
      Throw (TypeError "input.replace is not a function")
  end.

(** [normalize] has no type test of its own.  [path.length] throws on
    [undefined] and [null] and is [undefined] on the other non-strings;
    these go on to [normalizeWindowsPath], and what that returns (the
    falsy argument itself) has no [endsWith]. *)
Definition normalize (path : Value) : Completion str :=
  match path with
  | VUndefined =>
      Throw (TypeError "Cannot read properties of undefined (reading 'length')")
  | VNull => Throw (TypeError "Cannot read properties of null (reading 'length')")
  | VString s => Normal (PathKit.normalize s)
  | VBoolean _ | VNumber _ | VObject _ =>
      match normalizeWindowsPath path with
      | Throw e => Throw e
      | Normal _ => Throw (TypeError "path.endsWith is not a function")
      end
  end.

(** [join]: the type test sits inside the loop over the segments. *)
Fixpoint joinLoop (segments : list Value) (joined : str) : Completion str :=
  match segments with
  | [] => Normal joined
  | VString segment :: rest =>
      joinLoop rest
        (if (len segment >? 0)%Z then
           if (len joined =? 0)%Z then segment else joined ++ PathKit.SLASH ++ segment
         else joined)
  | _ :: _ => Throw (TypeError "Arguments to path.join must be strings")
  end.

Definition join (segments : list Value) : Completion str :=
  match segments with
  | [] => Normal PathKit.DOT
  | _ =>
      match joinLoop segments PathKit.EMPTY with
      | Normal joined =>
          Normal (if (len joined =? 0)%Z then PathKit.DOT else PathKit.normalize joined)
      | Throw e => Throw e
      end
  end.

Section WithProcess.

Variable process_cwd : option str.

(** [resolve]: an argument is tested only when the right-to-left loop
    reaches it. *)
Fixpoint resolveLoop (visit : list Value) (resolvedPath : str)
  : Completion (str * bool) :=
  match visit with
  | [] => Normal (resolvedPath, false)
  | VString path :: rest =>
      if (len path =? 0)%Z then resolveLoop rest resolvedPath
      else
        let normalizedSegment := PathKit.normalizeWindowsPath path in
        let resolvedPath := normalizedSegment ++ PathKit.SLASH ++ resolvedPath in
        if PathKit.IS_ABSOLUTE_RE normalizedSegment then Normal (resolvedPath, true)
        else resolveLoop rest resolvedPath
  | _ :: _ => Throw (TypeError "Arguments to path.resolve must be strings")
  end.

Definition resolve (args : list Value) : Completion str :=
  match resolveLoop (rev args ++ [VString (PathKit.cwd process_cwd)]) PathKit.EMPTY with
  | Throw e => Throw e
  | Normal (resolvedPath, resolvedAbsolute) =>
      let resolvedPath := PathKit.normalizeString resolvedPath (negb resolvedAbsolute) in
      Normal
        (if resolvedAbsolute then
           if PathKit.IS_ABSOLUTE_RE resolvedPath then resolvedPath
           else PathKit.SLASH ++ resolvedPath
         else if (len resolvedPath >? 0)%Z then resolvedPath else PathKit.DOT)
  end.

(** [relative]: the two calls of [resolve] come first and may throw. *)
Definition relative (from to : Value) : Completion str :=
  match resolve [from] with
  | Throw e => Throw e
  | Normal _ =>
      match resolve [to] with
      | Throw e => Throw e
      | Normal _ =>
          match from, to with
          | VString f, VString t => Normal (PathKit.relative process_cwd f t)
          | _, _ => Throw (TypeError "Arguments to path.resolve must be strings")
          end
      end
  end.

End WithProcess.

(** [isAbsolute]: [if (typeof p !== "string") return false] *)
Definition isAbsolute (p : Value) : Completion bool :=
  match p with
  | VString s => Normal (PathKit.isAbsolute s)
  | _ => Normal false
  end.

(** [extname]: [if (typeof p !== "string") return EMPTY] *)
Definition extname (p : Value) : Completion str :=
  match p with
  | VString s => Normal (PathKit.extname s)
  | _ => Normal PathKit.EMPTY
  end.

(** [dirname]: [if (typeof p !== "string" || p.length === 0) return DOT] *)
Definition dirname (p : Value) : Completion str :=
  match p with
  | VString s => Normal (PathKit.dirname s)
  | _ => Normal PathKit.DOT
  end.

(** [basename]: both arguments are tested, [ext] only when it is given. *)
Definition basename (p ext : Value) : Completion str :=
  match p with
  | VString s =>
      match ext with
      | VUndefined => Normal (PathKit.basename s None)
      | VString e => Normal (PathKit.basename s (Some e))
      | _ => Throw (TypeError "[basename] `ext` must be a string.")
      end
  | _ => Throw (TypeError "Path must be a string.")
  end.

(** [parse] *)
Definition parse (p : Value) : Completion PathKit.ParsedPath :=
  match p with
  | VString s => Normal (PathKit.parse s)
  | _ => Throw (TypeError "Path must be a string.")
  end.

(** [format]: [if (typeof p !== "object" || p === null) throw new TypeError(...)] *)
Definition format (p : Value) : Completion str :=
  match p with
  | VObject o => Normal (PathKit.format o)
  | _ =>
      Throw (TypeError
               ("Parameter " ++ [DQUOTE] ++ "pathObject" ++ [DQUOTE]
                ++ " must be an object, not null or other type."))
  end.

End PathKitJs.

(** ** The alias table (normalizeAliases, resolveAlias, reverseResolveAlias)

    Alias records are JavaScript objects that callers share by reference, so
    they live in a heap; [normalizeAliases] allocates and writes there. *)

Module AliasTable.
Import JsString PathKit.

(** An object with string-valued own properties, listed in creation
    order, and the flag stored under [Symbol.for("pathkit:normalizedAlias")]. *)
Record JsObject := mkObject {
  props : list (str * str);
  normalizedAlias : bool
}.

Definition Heap := list JsObject.
Definition Ref := nat.

(** *** Property order of ordinary objects: array indices ascending, then
    the other keys in creation order *)

Definition isDigit (c : ascii) : bool :=
  let n := nat_of_ascii c in ((48 <=? n) && (n <=? 57))%nat.

Fixpoint parseDecimal (s : str) (acc : N) : N :=
  match s with
  | [] => acc
  | c :: s' => parseDecimal s' (acc * 10 + N.of_nat (nat_of_ascii c - 48))%N
  end.

(** [k] is the canonical decimal form of an integer below [2^32 - 1]. *)
Definition arrayIndex (k : str) : option N :=
  match k with
  | [] => None
  | c :: rest =>
      if forallb isDigit k && (isEmpty rest || negb (Ascii.eqb c "0"))
         && (List.length k <=? 10)%nat
      then
        let n := parseDecimal k 0%N in
        if (n <? 4294967295)%N then Some n else None
      else None
  end.

Fixpoint insertByIndex (n : N) (e : str * str) (l : list (N * (str * str)))
  : list (N * (str * str)) :=
  match l with
  | [] => [(n, e)]
  | (m, f) :: t =>
      if (n <? m)%N then (n, e) :: (m, f) :: t else (m, f) :: insertByIndex n e t
  end.

Fixpoint indexedEntries (ps : list (str * str)) : list (N * (str * str)) :=
  match ps with
  | [] => []
  | e :: t =>
      match arrayIndex (fst e) with
      | Some n => insertByIndex n e (indexedEntries t)
      | None => indexedEntries t
      end
  end.

Definition namedEntries (ps : list (str * str)) : list (str * str) :=
  filter (fun e => match arrayIndex (fst e) with Some _ => false | None => true end) ps.

(** [Object.entries(o)], which is also the order of [for (k in o)] and of
    the spread [{ ...o }]. *)
Definition entries (ps : list (str * str)) : list (str * str) :=
  map snd (indexedEntries ps) ++ namedEntries ps.

(** [o[k]] *)
Fixpoint getProp (ps : list (str * str)) (k : str) : option str :=
  match ps with
  | [] => None
  | (k', v) :: t => if eqb k' k then Some v else getProp t k
  end.

(** [o[k] = v]: an existing property keeps its place. *)
Fixpoint setProp (k v : str) (ps : list (str * str)) : list (str * str) :=
  match ps with
  | [] => [(k, v)]
  | (k', v') :: t => if eqb k' k then (k, v) :: t else (k', v') :: setProp k v t
  end.

(** [Object.fromEntries(l)] *)
Definition fromEntries (l : list (str * str)) : list (str * str) :=
  fold_left (fun ps e => setProp (fst e) (snd e) ps) l [].

(** *** The heap *)

Definition heapGet (h : Heap) (r : Ref) : option JsObject := nth_error h r.

Definition heapAlloc (h : Heap) (o : JsObject) : Heap * Ref :=
  (h ++ [o], List.length h).

Fixpoint updateAt {A} (l : list A) (i : nat) (f : A -> A) : list A :=
  match l, i with
  | [], _ => []
  | x :: t, O => f x :: t
  | x :: t, S j => x :: updateAt t j f
  end.

Definition heapSetProp (h : Heap) (r : Ref) (k v : str) : Heap :=
  updateAt h r (fun o => mkObject (setProp k v (props o)) (normalizedAlias o)).

Definition heapMark (h : Heap) (r : Ref) : Heap :=
  updateAt h r (fun o => mkObject (props o) true).

Definition heapProps (h : Heap) (r : Ref) : list (str * str) :=
  match heapGet h r with
  | Some o => props o
  | None => []
  end.

(** *** [normalizeAliases] *)

(** [Array.prototype.sort] with the comparator
    [([a], [b]) => compareAliases(a, b)]: a stable sort. *)
Fixpoint insertSorted (e : str * str) (l : list (str * str)) : list (str * str) :=
  match l with
  | [] => [e]
  | f :: t =>
      if (compareAliases (fst e) (fst f) <? 0)%Z then e :: f :: t
      else f :: insertSorted e t
  end.

Definition sortEntries (l : list (str * str)) : list (str * str) :=
  fold_left (fun acc e => insertSorted e acc) l [].

(** The body of the inner loop for one pair [(key, aliasPrefix)]. *)
Definition resolveNestedStep (sortedAliases : Ref) (key aliasPrefix : str) (h : Heap)
  : Heap :=
  if eqb aliasPrefix key || startsWith key (aliasPrefix ++ SLASH) || eqb key aliasPrefix
  then h
  else
    match getProp (heapProps h sortedAliases) key with
    | None => h
    | Some value =>
        if startsWith value aliasPrefix then
          let rewritten :=
            match getProp (heapProps h sortedAliases) aliasPrefix with
            | Some target => target ++ sliceFrom value (len aliasPrefix)
            | None => sliceFrom value (len aliasPrefix)
            end in
          match charAt value (len aliasPrefix) with
          | None => heapSetProp h sortedAliases key rewritten
          | Some nextChar =>
              if Ascii.eqb nextChar "/" then heapSetProp h sortedAliases key rewritten
              else h
          end
        else h
    end.

(** The two nested [for ... in] loops. *)
Definition resolveNested (sortedAliases : Ref) (h : Heap) : Heap :=
  let keys := map fst (entries (heapProps h sortedAliases)) in
  fold_left
    (fun h key =>
       fold_left (fun h aliasPrefix => resolveNestedStep sortedAliases key aliasPrefix h)
                 keys h)
    keys h.

Definition normalizeAliases (h : Heap) (aliases : Ref) : option (Heap * Ref) :=
  match heapGet h aliases with
  | None => None
  | Some a =>
      if normalizedAlias a then Some (h, aliases)
      else
        let sortedAliasesEntries :=
          sortEntries
            (map (fun e => (normalizeWindowsPath (fst e), normalizeWindowsPath (snd e)))
                 (entries (props a))) in
        let (h1, sortedAliases) :=
          heapAlloc h (mkObject (fromEntries sortedAliasesEntries) false) in
        let h2 := resolveNested sortedAliases h1 in
        let (h3, finalNormalizedAliases) :=
          heapAlloc h2 (mkObject (fromEntries (entries (heapProps h2 sortedAliases))) false) in
        Some (heapMark h3 finalNormalizedAliases, finalNormalizedAliases)
  end.

(** *** [resolveAlias] *)

Definition aliasMatches (normalizedPath alias : str) : bool :=
  let effectiveAlias := if endsWith alias SLASH then alias else alias ++ SLASH in
  let effectivePath :=
    if endsWith normalizedPath SLASH then normalizedPath else normalizedPath ++ SLASH in
  startsWith effectivePath effectiveAlias || eqb normalizedPath alias.

Fixpoint resolveAliasLoop (normalizedPath : str) (l : list (str * str)) : str :=
  match l with
  | [] => normalizedPath
  | (alias, to) :: rest =>
      let effectiveAlias := if endsWith alias SLASH then alias else alias ++ SLASH in
      let effectivePath :=
        if endsWith normalizedPath SLASH then normalizedPath
        else normalizedPath ++ SLASH in
      if startsWith effectivePath effectiveAlias
      then join [to; sliceFrom normalizedPath (len alias)]
      else if eqb normalizedPath alias then to
      else resolveAliasLoop normalizedPath rest
  end.

Definition resolveAlias (h : Heap) (path : str) (aliases : Ref) : option (Heap * str) :=
  let normalizedPath := normalizeWindowsPath path in
  match normalizeAliases h aliases with
  | None => None
  | Some (h', normalizedAliases) =>
      Some (h', resolveAliasLoop normalizedPath (entries (heapProps h' normalizedAliases)))
  end.

(** *** [reverseResolveAlias] *)

Fixpoint reverseMatches (normalizedPath : str) (l : list (str * str)) : list str :=
  match l with
  | [] => []
  | (alias, to) :: rest =>
      let effectiveTo := if endsWith to SLASH then to else to ++ SLASH in
      let effectivePath :=
        if endsWith normalizedPath SLASH then normalizedPath
        else normalizedPath ++ SLASH in
      (if startsWith effectivePath effectiveTo
       then [join [alias; sliceFrom normalizedPath (len to)]] else [])
      ++ (if eqb normalizedPath to then [alias] else [])
      ++ reverseMatches normalizedPath rest
  end.

(** [matches.sort((a, b) => b.length - a.length)] *)
Fixpoint insertByLength (x : str) (l : list str) : list str :=
  match l with
  | [] => [x]
  | y :: t =>
      if (len y - len x <? 0)%Z then x :: y :: t else y :: insertByLength x t
  end.

Definition reverseResolveAlias (h : Heap) (path : str) (aliases : Ref)
  : option (Heap * list str) :=
  let normalizedPath := normalizeWindowsPath path in
  match normalizeAliases h aliases with
  | None => None
  | Some (h', normalizedAliases) =>
      Some (h',
            fold_left (fun acc x => insertByLength x acc)
              (reverseMatches normalizedPath (entries (heapProps h' normalizedAliases)))
              [])
  end.

End AliasTable.

(** ** The import/export scanner (getFileImportsExports)

    The regular-expression engine belongs to the JavaScript runtime; the
    scanner is parameterised over it and names each pattern of the source. *)

Module Scanner.
Import JsString.

Inductive PathType := PtAlias | PtRelative | PtAbsolute | PtBare | PtModule.

Definition pathType_eqb (a b : PathType) : bool :=
  match a, b with
  | PtAlias, PtAlias | PtRelative, PtRelative | PtAbsolute, PtAbsolute
  | PtBare, PtBare | PtModule, PtModule => true
  | _, _ => false
  end.

Definition pathTypeName (t : PathType) : str :=
  match t with
  | PtAlias => "alias"
  | PtRelative => "relative"
  | PtAbsolute => "absolute"
  | PtBare => "bare"
  | PtModule => "module"
  end.

Inductive SpecifierType := SpNamed | SpDefault | SpNamespace | SpAll.

Record ImportExportSpecifier := mkSpecifier {
  spec_type : SpecifierType;
  spec_name : str;
  spec_alias : option str;
  spec_isType : option bool
}.

Inductive StatementType := Static | Dynamic.
Inductive Kind := KImport | KExport.

Definition kindName (k : Kind) : str :=
  match k with
  | KImport => "import"
  | KExport => "export"
  end.

Record ImportExportInfo := mkInfo {
  statement : str;
  type : StatementType;
  kind : Kind;
  source : option str;
  pathType : option PathType;
  pathTypeSymbol : option str;
  isTypeOnly : bool;
  specifiers : list ImportExportSpecifier;
  start : Z;
  end_ : Z
}.

Inductive KindFilter := OnlyImport | OnlyExport | All.

Record GetFileImportsExportsOptions := mkOptions {
  opt_kind : option KindFilter;
  opt_pathTypes : option (list PathType);
  opt_limitPerType : option Z
}.

(** The patterns of the source, by the name they have there. *)
Inductive Pattern :=
| staticImport | dynamicImport | staticExport | defaultExport | namedExport
| namespaceSpecifier | defaultSpecifier | namedBlock | typeItem.

(** A match: its offset and its groups, group 0 being the whole match. *)
Record RegExpMatch := mkMatch {
  m_index : Z;
  m_groups : list (option str)
}.

Definition group (m : RegExpMatch) (i : nat) : option str := nth i (m_groups m) None.

(** A captured group that is a non-empty string (truthy). *)
Definition truthy (g : option str) : option str :=
  match g with
  | Some s => if isEmpty s then None else Some s
  | None => None
  end.

(** [pathType] helper of the scanner *)
Definition getPathType (path : str) : PathType :=
  if startsWith path "." then PtRelative
  else if startsWith path "/" then PtAbsolute
  else if startsWith path "@" || startsWith path "~" then PtAlias
  else if startsWith path "http://" || startsWith path "https://" then PtModule
  else PtBare.

(** [/^[@~]/.exec(source)?.[0]] *)
Definition aliasSymbol (source : str) : option str :=
  match source with
  | c :: _ => if Ascii.eqb c "@" || Ascii.eqb c "~" then Some [c] else None
  | [] => None
  end.

(** [Array.prototype.slice] *)
Definition arraySlice {A} (l : list A) (a b : Z) : list A :=
  let n := Z.of_nat (List.length l) in
  let from := clampIndex n a in
  let to := clampIndex n b in
  firstn (Z.to_nat (to - from)) (skipn (Z.to_nat from) l).

(** The key of a record's bucket: [`${curr.kind}-${curr.pathType || "none"}`] *)
Definition bucketKey (curr : ImportExportInfo) : str :=
  kindName (kind curr) ++ "-" ++
  match pathType curr with
  | Some t => pathTypeName t
  | None => "none"
  end.

(** One step of the [reduce] that groups the records: the accumulator is
    an object whose keys keep their creation order. *)
Fixpoint pushToGroup (key : str) (curr : ImportExportInfo)
         (acc : list (str * list ImportExportInfo))
  : list (str * list ImportExportInfo) :=
  match acc with
  | [] => [(key, [curr])]
  | (k, g) :: t =>
      if eqb k key then (k, g ++ [curr]) :: t
      else (k, g) :: pushToGroup key curr t
  end.

Definition groupByType (results : list ImportExportInfo)
  : list (str * list ImportExportInfo) :=
  fold_left (fun acc curr => pushToGroup (bucketKey curr) curr acc) results [].

(** The last step of the scanner: [if (limitPerType) ...] *)
Definition applyLimit (limitPerType : option Z) (results : list ImportExportInfo)
  : list ImportExportInfo :=
  match limitPerType with
  | Some n =>
      if (n =? 0)%Z then results
      else flat_map (fun kg => arraySlice (snd kg) 0 n) (groupByType results)
  | None => results
  end.

Section WithRegExp.

(** [[...content.matchAll(pattern)]] *)
Variable matchAll : Pattern -> str -> list RegExpMatch.
(** [pattern.exec(s)] *)
Variable exec : Pattern -> str -> option RegExpMatch.

Definition namedSpecifier (isTypeOnly : bool) (item : str)
  : list ImportExportSpecifier :=
  let typeMatch := exec typeItem item in
  let actualItem :=
    match typeMatch with
    | Some m => group m 1
    | None => Some item
    end in
  match truthy actualItem with
  | None => []
  | Some actualItem =>
      let isItemType :=
        match typeMatch with Some _ => true | None => isTypeOnly end in
      if includes actualItem " as " then
        match map trim (splitStr " as " actualItem) with
        | name :: rest =>
            if isEmpty name then []
            else [mkSpecifier SpNamed name (nth_error rest 0) (Some isItemType)]
        | [] => []
        end
      else [mkSpecifier SpNamed actualItem None (Some isItemType)]
  end.

Definition extractSpecifiers (statement : str) : list ImportExportSpecifier :=
  let isTypeOnly :=
    includes statement "import type" || includes statement "export type" in
  match option_map (fun m => truthy (group m 1)) (exec namespaceSpecifier statement) with
  | Some (Some name) => [mkSpecifier SpNamespace name None (Some isTypeOnly)]
  | _ =>
      let defaults :=
        match option_map (fun m => truthy (group m 1)) (exec defaultSpecifier statement) with
        | Some (Some name) =>
            if negb (includes statement "{")
            then [mkSpecifier SpDefault name None (Some isTypeOnly)] else []
        | _ => []
        end in
      let named :=
        match option_map (fun m => truthy (group m 1)) (exec namedBlock statement) with
        | Some (Some block) =>
            let items :=
              filter (fun item => (len item >? 0)%Z)
                     (map trim (splitStr "," block)) in
            flat_map (namedSpecifier isTypeOnly) items
        | _ => []
        end in
      defaults ++ named
  end.

Definition includesType (pathTypes : list PathType) (t : PathType) : bool :=
  existsb (pathType_eqb t) pathTypes.

Definition endOf (m : RegExpMatch) : Z :=
  (m_index m + len (match group m 0 with Some s => s | None => [] end))%Z.

Definition wholeMatch (m : RegExpMatch) : str :=
  match group m 0 with Some s => s | None => [] end.

(** A statement with a source clause, as the three first loops build it. *)
Definition sourcedInfo (pathTypes : list PathType) (ty : StatementType) (k : Kind)
           (typeOnly : bool) (withSpecifiers : bool)
           (m : RegExpMatch) (source : option str) : list ImportExportInfo :=
  match truthy source with
  | None => []
  | Some source =>
      let pathType := getPathType source in
      if negb (includesType pathTypes pathType) then []
      else
        [mkInfo (wholeMatch m) ty k (Some source) (Some pathType)
                (if pathType_eqb pathType PtAlias then aliasSymbol source else None)
                typeOnly
                (if withSpecifiers then extractSpecifiers (wholeMatch m) else [])
                (m_index m) (endOf m)]
  end.

Definition orGroup (a b : option str) : option str :=
  match truthy a with
  | Some s => Some s
  | None => b
  end.

(** The scan before the limit is applied: the [results] array. *)
Definition scanResults (content : str) (options : GetFileImportsExportsOptions)
  : list ImportExportInfo :=
  let kind := match opt_kind options with Some k => k | None => All end in
  let pathTypes :=
    match opt_pathTypes options with
    | Some l => l
    | None => [PtAlias; PtRelative; PtAbsolute; PtBare; PtModule]
    end in
  let imports :=
    match kind with
    | OnlyImport | All =>
        flat_map
          (fun m =>
             sourcedInfo pathTypes Static KImport
               (includes (wholeMatch m) "import type") true m
               (orGroup (group m 1) (group m 3)))
          (matchAll staticImport content)
        ++ flat_map
             (fun m => sourcedInfo pathTypes Dynamic KImport false false m (group m 1))
             (matchAll dynamicImport content)
    | OnlyExport => []
    end in
  let exports :=
    match kind with
    | OnlyExport | All =>
        flat_map
          (fun m =>
             sourcedInfo pathTypes Static KExport
               (includes (wholeMatch m) "export type") true m (group m 1))
          (matchAll staticExport content)
        ++ map
             (fun m =>
                mkInfo (wholeMatch m) Static KExport None None None false
                       [mkSpecifier SpDefault "default" None None]
                       (m_index m) (endOf m))
             (matchAll defaultExport content)
        ++ flat_map
             (fun m =>
                match truthy (group m 1) with
                | None => []
                | Some name =>
                    [mkInfo (wholeMatch m) Static KExport None None None
                            (includes (wholeMatch m) "export type")
                            [mkSpecifier SpNamed name None None]
                            (m_index m) (endOf m)]
                end)
             (matchAll namedExport content)
    | OnlyImport => []
    end in
  imports ++ exports.

Definition getFileImportsExports (content : str) (options : GetFileImportsExportsOptions)
  : list ImportExportInfo :=
  applyLimit (opt_limitPerType options) (scanResults content options).

End WithRegExp.

End Scanner.

(** ** A backtracking matcher for the patterns of the scanner

    The scanner above works with any engine.  This module gives one to run
    it on source text: greedy quantifiers, ordered alternation, numbered
    captures, back-references and negative look-ahead, as far as the
    patterns of the two scanners need them. *)

Module RegExp.
Import JsString Scanner.

Inductive Regex :=
| Chr (p : ascii -> bool)
| Lit (s : str)
| Seq (a b : Regex)
| Alt (a b : Regex)
| Star (a : Regex)
| LazyStar (a : Regex)
| Opt (a : Regex)
| Capture (i : nat) (a : Regex)
| Backref (i : nat)
| NotAhead (a : Regex)
| Bol.

Definition Plus (a : Regex) : Regex := Seq a (Star a).

Fixpoint seq (l : list Regex) : Regex :=
  match l with
  | [] => Lit []
  | [a] => a
  | a :: t => Seq a (seq t)
  end.

Fixpoint alt (l : list Regex) : Regex :=
  match l with
  | [] => Chr (fun _ => false)
  | [a] => a
  | a :: t => Alt a (alt t)
  end.

Definition Captures := list (nat * str).

(** The latest text captured by group [i] *)
Fixpoint capture (caps : Captures) (i : nat) : option str :=
  match caps with
  | [] => None
  | (j, v) :: t => if (i =? j)%nat then Some v else capture t i
  end.

(** Where a match ends, and what it captured *)
Definition Matched := (nat * Captures)%type.

(** [run r pos s caps k]: match [r] at offset [pos], where [s] is the text
    from [pos] on, and hand the rest to the continuation [k]; a failing
    continuation makes the matcher backtrack.  A back-reference to a group
    that has not taken part matches the empty string. *)
Fixpoint run (r : Regex) (pos : nat) (s : str) (caps : Captures)
         (k : nat -> str -> Captures -> option Matched) {struct r} : option Matched :=
  match r with
  | Chr p =>
      match s with
      | c :: s' => if p c then k (S pos) s' caps else None
      | [] => None
      end
  | Lit l =>
      if startsWith s l
      then k (pos + List.length l)%nat (skipn (List.length l) s) caps
      else None
  | Seq a b => run a pos s caps (fun pos' s' caps' => run b pos' s' caps' k)
  | Alt a b =>
      match run a pos s caps k with
      | Some x => Some x
      | None => run b pos s caps k
      end
  | Opt a =>
      match run a pos s caps k with
      | Some x => Some x
      | None => k pos s caps
      end
  | Star a =>
      (fix star (n : nat) (pos : nat) (s : str) (caps : Captures) {struct n}
         : option Matched :=
         match n with
         | O => k pos s caps
         | S n' =>
             match run a pos s caps
                       (fun pos' s' caps' =>
                          if (pos <? pos')%nat then star n' pos' s' caps' else None) with
             | Some x => Some x
             | None => k pos s caps
             end
         end) (List.length s) pos s caps
  | LazyStar a =>
      (fix star (n : nat) (pos : nat) (s : str) (caps : Captures) {struct n}
         : option Matched :=
         match n with
         | O => k pos s caps
         | S n' =>
             match k pos s caps with
             | Some x => Some x
             | None =>
                 run a pos s caps
                     (fun pos' s' caps' =>
                        if (pos <? pos')%nat then star n' pos' s' caps' else None)
             end
         end) (List.length s) pos s caps
  | Capture i a =>
      run a pos s caps
          (fun pos' s' caps' => k pos' s' ((i, firstn (pos' - pos) s) :: caps'))
  | Backref i =>
      let l := match capture caps i with Some v => v | None => [] end in
      if startsWith s l
      then k (pos + List.length l)%nat (skipn (List.length l) s) caps
      else None
  | NotAhead a =>
      match run a pos s caps (fun pos' _ caps' => Some (pos', caps')) with
      | Some _ => None
      | None => k pos s caps
      end
  | Bol => if (pos =? 0)%nat then k pos s caps else None
  end.

(** A match of [r] that starts exactly at [pos], with the number of
    characters it spans; [groups] is the number of capturing groups. *)
Definition matchAt (r : Regex) (groups : nat) (pos : nat) (s : str)
  : option (RegExpMatch * nat) :=
  match run r pos s [] (fun pos' _ caps => Some (pos', caps)) with
  | Some (pos', caps) =>
      Some (mkMatch (Z.of_nat pos)
                    (Some (firstn (pos' - pos) s) :: map (capture caps) (List.seq 1 groups)),
            (pos' - pos)%nat)
  | None => None
  end.

(** [[...s.matchAll(r)]] for a global pattern: after a match the search
    goes on where it ended, one character further after an empty match.
    [skip] counts the characters of the last match still to be passed. *)
Fixpoint matchAllFrom (r : Regex) (groups : nat) (s : str) (pos skip : nat)
  : list RegExpMatch :=
  match skip with
  | S k =>
      match s with
      | [] => []
      | _ :: s' => matchAllFrom r groups s' (S pos) k
      end
  | O =>
      match matchAt r groups pos s with
      | Some (m, span) =>
          m :: match s with
               | [] => []
               | _ :: s' => matchAllFrom r groups s' (S pos) (pred span)
               end
      | None =>
          match s with
          | [] => []
          | _ :: s' => matchAllFrom r groups s' (S pos) 0
          end
      end
  end.

(** [r.exec(s)] for a pattern without the global flag: the leftmost match *)
Fixpoint execFrom (r : Regex) (groups : nat) (s : str) (pos : nat) : option RegExpMatch :=
  match matchAt r groups pos s with
  | Some (m, _) => Some m
  | None =>
      match s with
      | [] => None
      | _ :: s' => execFrom r groups s' (S pos)
      end
  end.

(** [s.replace(r, rep)] for a global pattern and a replacement without
    [$] references *)
Fixpoint replaceFrom (r : Regex) (rep : str) (s : str) (pos skip : nat) : str :=
  match skip with
  | S k =>
      match s with
      | [] => []
      | _ :: s' => replaceFrom r rep s' (S pos) k
      end
  | O =>
      match matchAt r 0 pos s with
      | Some (_, S span) =>
          rep ++ match s with
                 | [] => []
                 | _ :: s' => replaceFrom r rep s' (S pos) span
                 end
      | Some (_, O) =>
          rep ++ match s with
                 | [] => []
                 | c :: s' => c :: replaceFrom r rep s' (S pos) 0
                 end
      | None =>
          match s with
          | [] => []
          | c :: s' => c :: replaceFrom r rep s' (S pos) 0
          end
      end
  end.

(** [s.split(r)] for a pattern without capturing groups; [piece] is the
    text since the last separator. *)
Fixpoint splitFrom (r : Regex) (s : str) (pos skip : nat) (piece : str) : list str :=
  match s with
  | [] => [piece]
  | c :: s' =>
      match skip with
      | S k => splitFrom r s' (S pos) k piece
      | O =>
          match matchAt r 0 pos s with
          | Some (_, S span) => piece :: splitFrom r s' (S pos) span []
          | _ => splitFrom r s' (S pos) 0 (piece ++ [c])
          end
      end
  end.

(** *** The character classes and the patterns *)

Definition isWordChar (c : ascii) : bool :=
  let n := nat_of_ascii c in
  isAsciiLetter c || ((48 <=? n) && (n <=? 57))%nat || Ascii.eqb c "_".

Definition isQuoteChar (c : ascii) : bool := Ascii.eqb c "'" || Ascii.eqb c DQUOTE.

(** [.]: any character but a line terminator *)
Definition isNotLineTerminator (c : ascii) : bool :=
  let n := nat_of_ascii c in negb ((n =? 10) || (n =? 13))%nat.

Definition s_plus : Regex := Plus (Chr isWhitespace).
Definition s_star : Regex := Star (Chr isWhitespace).
Definition w_plus : Regex := Plus (Chr isWordChar).
Definition quote : Regex := Chr isQuoteChar.
Definition quoted (i : nat) : Regex :=
  seq [quote; Capture i (Plus (Chr (fun c => negb (isQuoteChar c)))); quote].
Definition braces : Regex :=
  seq [Lit "{"; Star (Chr (fun c => negb (Ascii.eqb c "}"))); Lit "}"].
Definition opt_type : Regex := Opt (seq [Lit "type"; s_plus]).

(** The pattern and the number of its capturing groups *)
Definition pattern (p : Pattern) : Regex * nat :=
  match p with
  | staticImport =>
      (Alt
         (seq [Lit "import"; s_plus; opt_type;
               Opt (seq [w_plus; Opt (seq [s_star; Lit ","; s_star])]);
               Opt (Alt braces (seq [Lit "*"; s_plus; Lit "as"; s_plus; w_plus]));
               s_plus; Lit "from"; s_plus; quoted 1])
         (seq [Lit "import"; s_plus; opt_type; Capture 2 w_plus;
               s_plus; Lit "from"; s_plus; quoted 3]),
       3)
  | dynamicImport =>
      (seq [Lit "import"; s_star; Lit "("; s_star; quoted 1; s_star; Lit ")"], 1)
  | staticExport =>
      (seq [Lit "export"; s_plus; opt_type;
            Alt braces (seq [Lit "*"; Opt (seq [s_plus; Lit "as"; s_plus; w_plus])]);
            s_plus; Lit "from"; s_plus; quoted 1],
       1)
  | defaultExport =>
      (seq [Lit "export"; s_plus; Lit "default"; s_plus;
            alt [w_plus; braces;
                 seq [Lit "class"; s_plus; w_plus];
                 seq [Lit "function"; s_plus; w_plus]]],
       0)
  | namedExport =>
      (seq [Lit "export"; s_plus;
            alt [Lit "const"; Lit "let"; Lit "var"; Lit "function"; Lit "class";
                 Lit "enum"; Lit "interface"; Lit "type"];
            s_plus; Capture 1 w_plus],
       1)
  | namespaceSpecifier =>
      (seq [Alt (Lit "import") (Lit "export"); s_plus; opt_type;
            Lit "*"; s_plus; Lit "as"; s_plus; Capture 1 w_plus],
       1)
  | defaultSpecifier =>
      (seq [Lit "import"; s_plus; opt_type; Capture 1 w_plus;
            Alt (seq [s_star; Lit ","]) (seq [s_plus; Lit "from"])],
       1)
  | namedBlock =>
      (seq [Lit "{"; Capture 1 (Star (Chr (fun c => negb (Ascii.eqb c "}")))); Lit "}"], 1)
  | typeItem =>
      (seq [Bol; Lit "type"; s_plus; Capture 1 (Plus (Chr isNotLineTerminator))], 1)
  end.

Definition matchAll (p : Pattern) (s : str) : list RegExpMatch :=
  matchAllFrom (fst (pattern p)) (snd (pattern p)) s 0 0.

Definition exec (p : Pattern) (s : str) : option RegExpMatch :=
  execFrom (fst (pattern p)) (snd (pattern p)) s 0.

(** The scanner on this engine *)
Definition getFileImportsExports := Scanner.getFileImportsExports matchAll exec.

End RegExp.

(** ** The import-path converter (deprecated/@dler/mod.ts)

    This module takes its path functions from [node:path]; they are the
    fields of [NodePath].  Logging through [relinka] is left out. *)

Module Dler.
Import JsString.
Import PathKitJs (Completion, Normal, Throw, JsError, Error, TypeError).

Inductive ImportType := Absolute | Alias | Bare | Dynamic | Module_ | Relative.

Definition importType_eqb (a b : ImportType) : bool :=
  match a, b with
  | Absolute, Absolute | Alias, Alias | Bare, Bare | Dynamic, Dynamic
  | Module_, Module_ | Relative, Relative => true
  | _, _ => false
  end.

Record PathTypeInfo := mkPathTypeInfo {
  pti_type : ImportType;
  pti_symbol : option str
}.

Definition notSlash (c : ascii) : bool := negb (Ascii.eqb c "/").

Fixpoint takeWhile (p : ascii -> bool) (s : str) : str :=
  match s with
  | c :: s' => if p c then c :: takeWhile p s' else []
  | [] => []
  end.

(** [/^(@[^/]+\/[^/]+|[^/]+)/.exec(importPath)]: the matched text *)
Definition PACKAGE_NAME_RE_exec (importPath : str) : option str :=
  let scoped :=
    match importPath with
    | c :: rest =>
        if Ascii.eqb c "@" then
          let scope := takeWhile notSlash rest in
          match skipn (List.length scope) rest with
          | d :: rest2 =>
              let pkg := takeWhile notSlash rest2 in
              if negb (isEmpty scope) && Ascii.eqb d "/" && negb (isEmpty pkg)
              then Some (c :: scope ++ d :: pkg) else None
          | [] => None
          end
        else None
    | [] => None
    end in
  match scoped with
  | Some m => Some m
  | None =>
      let plain := takeWhile notSlash importPath in
      if isEmpty plain then None else Some plain
  end.

(** [extractPackageName] *)
Definition extractPackageName (importPath : option str) : option str :=
  match importPath with
  | None => None
  | Some importPath =>
      if isEmpty importPath || startsWith importPath "." || startsWith importPath "/"
      then None
      else PACKAGE_NAME_RE_exec importPath
  end.

(** [/^[A-Za-z]:\\/] *)
Definition DRIVE_BACKSLASH_RE (s : str) : bool :=
  match s with
  | c1 :: c2 :: c3 :: _ => isAsciiLetter c1 && Ascii.eqb c2 ":" && Ascii.eqb c3 "\"
  | _ => false
  end.

(** [determineImportPathType] *)
Definition determineImportPathType (importPath : str) : PathTypeInfo :=
  if startsWith importPath "@/" then mkPathTypeInfo Alias (Some ("@/" : str))
  else if startsWith importPath "~/" then mkPathTypeInfo Alias (Some ("~/" : str))
  else if startsWith importPath "./" then mkPathTypeInfo Relative (Some ("./" : str))
  else if startsWith importPath "../" then mkPathTypeInfo Relative (Some ("../" : str))
  else if startsWith importPath "/" then mkPathTypeInfo Absolute (Some ("/" : str))
  else if DRIVE_BACKSLASH_RE importPath
       then mkPathTypeInfo Absolute (Some (slice importPath 0 3))
  else if startsWith importPath "http://" then mkPathTypeInfo Bare (Some ("http://" : str))
  else if startsWith importPath "https://" then mkPathTypeInfo Bare (Some ("https://" : str))
  else
    match extractPackageName (Some importPath) with
    | Some _ => mkPathTypeInfo Module_ None
    | None => mkPathTypeInfo Bare None
    end.

(** *** Bare import URLs *)

Definition isQuote (c : ascii) : bool := Ascii.eqb c "'" || Ascii.eqb c DQUOTE.

(** [(['"])(https?:\/\/[^'"]+)\1] anchored at the head of [s]; the result
    is group 2. *)
Definition quotedUrlAt (s : str) : option str :=
  match s with
  | q :: rest =>
      if isQuote q then
        let scheme : option str :=
          if startsWith rest "https://" then Some ("https://" : str)
          else if startsWith rest "http://" then Some ("http://" : str)
          else None in
        match scheme with
        | Some sch =>
            let after := skipn (List.length sch) rest in
            let run := takeWhile (fun c => negb (isQuote c)) after in
            if isEmpty run then None
            else
              match skipn (List.length run) after with
              | c :: _ => if Ascii.eqb c q then Some (sch ++ run) else None
              | [] => None
              end
        | None => None
        end
      else None
  | [] => None
  end.

(** [from\s+] followed by a quoted URL, anchored at the head of [s] *)
Definition fromQuotedUrlAt (s : str) : option str :=
  if startsWith s "from" then
    let rest := skipn 4 s in
    let ws := takeWhile isWhitespace rest in
    if isEmpty ws then None else quotedUrlAt (skipn (List.length ws) rest)
  else None.

(** Leftmost match of an anchored matcher *)
Fixpoint search {A} (f : str -> option A) (s : str) : option A :=
  match f s with
  | Some r => Some r
  | None =>
      match s with
      | [] => None
      | _ :: s' => search f s'
      end
  end.

(** [getBareImportUrl] *)
Definition getBareImportUrl (importStr : str) (requireFromKeyword : bool) : option str :=
  if requireFromKeyword then search fromQuotedUrlAt importStr
  else search quotedUrlAt importStr.

(** *** Context of a conversion *)

Record LibConfigDeprecated := mkLibConfig {
  libMainFile : str
}.

Record ConversionOptions := mkConversionOptions {
  aliasPrefix : str;
  baseDir : str;
  currentLibName : option str;
  libsList : list (str * LibConfigDeprecated);
  sourceFile : str;
  urlMap : list (str * str);
  strip : list str
}.

(** The functions of [node:path] that the module calls *)
Record NodePath := mkNodePath {
  np_resolve : list str -> str;
  np_relative : str -> str -> str;
  np_dirname : str -> str;
  np_basename : str -> str;
  np_join : list str -> str;
  np_isAbsolute : str -> bool;
  np_normalize : str -> str
}.

Fixpoint lookup {A} (m : list (str * A)) (k : str) : option A :=
  match m with
  | [] => None
  | (k', v) :: t => if eqb k' k then Some v else lookup t k
  end.

(** A string that is present and not empty *)
Definition truthyStr (o : option str) : option str :=
  match o with
  | Some s => if isEmpty s then None else Some s
  | None => None
  end.

Section WithPath.

Variable path : NodePath.
(** [const CWD = process.cwd()] *)
Variable CWD : str.

(** [isLibraryImport] *)
Definition isLibraryImport (relativePathToRoot libName : str)
           (libConfigDeprecated : LibConfigDeprecated) (currentLibName : option str)
  : bool :=
  match truthyStr currentLibName with
  | Some cur =>
      if eqb libName cur then false
      else
        let libMainDir :=
          replaceBackslashes (np_dirname path (libMainFile libConfigDeprecated)) in
        startsWith relativePathToRoot (libMainDir ++ "/")
  | None =>
      let libMainDir :=
        replaceBackslashes (np_dirname path (libMainFile libConfigDeprecated)) in
      startsWith relativePathToRoot (libMainDir ++ "/")
  end.

(** [matchLibraryImport] *)
Fixpoint matchLibraryImport (relativeToRoot : str)
         (libsList : list (str * LibConfigDeprecated)) (currentLibName : option str)
  : option str :=
  match libsList with
  | [] => None
  | (libName, libConfigDeprecated) :: rest =>
      if negb (isEmpty (libMainFile libConfigDeprecated))
         && isLibraryImport relativeToRoot libName libConfigDeprecated currentLibName
      then Some libName
      else matchLibraryImport relativeToRoot rest currentLibName
  end.

(** *** The conversion functions *)

Definition convertAbsoluteToAlias (ip : str) (opts : ConversionOptions) : str :=
  let relativePath := replaceBackslashes (np_relative path (baseDir opts) ip) in
  aliasPrefix opts ++ relativePath.

Definition convertAbsoluteToBare (ip : str) : str :=
  replaceBackslashes (np_relative path CWD ip).

Definition convertAbsoluteToModule (ip : str) (opts : ConversionOptions) : str :=
  let relativeToRoot := replaceBackslashes (np_relative path CWD ip) in
  match truthyStr (matchLibraryImport relativeToRoot (libsList opts) (currentLibName opts)) with
  | Some libName => libName
  | None => ip
  end.

Definition convertAbsoluteToRelative (ip : str) (opts : ConversionOptions) : str :=
  let relativePath :=
    replaceBackslashes (np_relative path (np_dirname path (sourceFile opts)) ip) in
  if negb (startsWith relativePath ".") && negb (np_isAbsolute path relativePath)
  then "./" ++ relativePath else relativePath.

Definition convertAliasToAbsolute (ip : str) (opts : ConversionOptions) : str :=
  if negb (startsWith ip (aliasPrefix opts)) then ip
  else
    let subPath := sliceFrom ip (len (aliasPrefix opts)) in
    let absolutePath := np_resolve path [baseDir opts; subPath] in
    let sourceFileRelativeToBase := np_relative path (baseDir opts) (sourceFile opts) in
    if negb (isEmpty sourceFileRelativeToBase) then
      let sourceFileParts := splitOn PathKit.isSep sourceFileRelativeToBase in
      let newBaseDir :=
        Nat.iter (List.length sourceFileParts - 1) (np_dirname path)
                 (np_dirname path (sourceFile opts)) in
      let relativeToBase := filterNonEmpty (split "/" subPath) in
      np_resolve path (newBaseDir :: relativeToBase)
    else absolutePath.

Definition convertAliasToBare (ip : str) (opts : ConversionOptions) : str :=
  if negb (startsWith ip (aliasPrefix opts)) then ip
  else convertAbsoluteToBare (convertAliasToAbsolute ip opts).

Definition convertAliasToModule (ip : str) (opts : ConversionOptions) : str :=
  if negb (startsWith ip (aliasPrefix opts)) then ip
  else convertAbsoluteToModule (convertAliasToAbsolute ip opts) opts.

Definition convertAliasToRelative (ip : str) (opts : ConversionOptions) : str :=
  if negb (startsWith ip (aliasPrefix opts)) then ip
  else convertAbsoluteToRelative (convertAliasToAbsolute ip opts) opts.

Definition convertBareToAbsolute (ip : str) (opts : ConversionOptions) : str :=
  let mapped :=
    match getBareImportUrl ip false with
    | Some url => truthyStr (lookup (urlMap opts) url)
    | None => None
    end in
  match mapped with
  | Some localPath => np_resolve path [CWD; localPath]
  | None =>
      let libConfigDeprecated :=
        match truthyStr (extractPackageName (Some ip)) with
        | Some packageName => lookup (libsList opts) packageName
        | None => None
        end in
      match libConfigDeprecated with
      | Some lib =>
          if negb (isEmpty (libMainFile lib))
          then np_resolve path [CWD; libMainFile lib] else ip
      | None => ip
      end
  end.

Definition convertBareToAlias (ip : str) (opts : ConversionOptions) : str :=
  let absolutePath := convertBareToAbsolute ip opts in
  if negb (eqb absolutePath ip) then convertAbsoluteToAlias absolutePath opts else ip.

Definition convertBareToDynamic (ip : str) : str := ip.

Definition convertBareToModule (ip : str) (opts : ConversionOptions) : str :=
  let mapped :=
    match getBareImportUrl ip false with
    | Some url => truthyStr (lookup (urlMap opts) url)
    | None => None
    end in
  match mapped with
  | Some localPath => convertAbsoluteToModule (np_resolve path [CWD; localPath]) opts
  | None =>
      match truthyStr (extractPackageName (Some ip)) with
      | Some packageName =>
          match lookup (libsList opts) packageName with
          | Some _ => packageName
          | None => ip
          end
      | None => ip
      end
  end.

Definition convertBareToRelative (ip : str) (opts : ConversionOptions) : str :=
  let absolutePath := convertBareToAbsolute ip opts in
  if negb (eqb absolutePath ip) then convertAbsoluteToRelative absolutePath opts else ip.

Definition convertDynamicToAbsolute (ip : str) (opts : ConversionOptions) : str :=
  np_resolve path [np_dirname path (sourceFile opts); ip].

Definition convertDynamicToAlias (ip : str) (opts : ConversionOptions) : str :=
  convertAbsoluteToAlias (convertDynamicToAbsolute ip opts) opts.

Definition convertDynamicToBare (ip : str) (opts : ConversionOptions) : str :=
  convertAbsoluteToBare (convertDynamicToAbsolute ip opts).

Definition convertDynamicToModule (ip : str) (opts : ConversionOptions) : str :=
  convertAbsoluteToModule (convertDynamicToAbsolute ip opts) opts.

Definition convertDynamicToRelative (ip : str) (opts : ConversionOptions) : str :=
  convertAbsoluteToRelative (convertDynamicToAbsolute ip opts) opts.

Definition convertModuleToAbsolute (ip : str) (opts : ConversionOptions) : str :=
  let libConfigDeprecated :=
    match truthyStr (extractPackageName (Some ip)) with
    | Some packageName => lookup (libsList opts) packageName
    | None => None
    end in
  match libConfigDeprecated with
  | Some lib =>
      if isEmpty (libMainFile lib) then ip
      else np_dirname path (np_resolve path [CWD; libMainFile lib])
  | None => ip
  end.

Definition convertModuleToAlias (ip : str) (opts : ConversionOptions) : str :=
  let absolutePath := convertModuleToAbsolute ip opts in
  if negb (eqb absolutePath ip) then convertAbsoluteToAlias absolutePath opts else ip.

Definition convertModuleToBare (ip : str) (opts : ConversionOptions) : str :=
  let absolutePath := convertModuleToAbsolute ip opts in
  if negb (eqb absolutePath ip) then convertAbsoluteToBare absolutePath else ip.

Definition convertModuleToRelative (ip : str) (opts : ConversionOptions) : str :=
  let absolutePath := convertModuleToAbsolute ip opts in
  if negb (eqb absolutePath ip) then convertAbsoluteToRelative absolutePath opts else ip.

Definition convertRelativeToAbsolute (ip : str) (opts : ConversionOptions) : str :=
  np_resolve path [np_dirname path (sourceFile opts); ip].

Definition convertRelativeToAlias (ip : str) (opts : ConversionOptions) : str :=
  convertAbsoluteToAlias (convertRelativeToAbsolute ip opts) opts.

Definition convertRelativeToBare (ip : str) (opts : ConversionOptions) : str :=
  convertAbsoluteToBare (convertRelativeToAbsolute ip opts).

Definition convertRelativeToModule (ip : str) (opts : ConversionOptions) : str :=
  convertAbsoluteToModule (convertRelativeToAbsolute ip opts) opts.

Definition ConverterFunction := str -> ConversionOptions -> str.

(** [conversionMapping]: the table keyed by ["fromType:toType"] *)
Definition conversionMapping (fromType toType : ImportType) : option ConverterFunction :=
  match fromType, toType with
  | Absolute, Alias => Some convertAbsoluteToAlias
  | Absolute, Bare => Some (fun ip _ => convertAbsoluteToBare ip)
  | Absolute, Module_ => Some convertAbsoluteToModule
  | Absolute, Relative => Some convertAbsoluteToRelative
  | Alias, Absolute => Some convertAliasToAbsolute
  | Alias, Bare => Some convertAliasToBare
  | Alias, Module_ => Some convertAliasToModule
  | Alias, Relative => Some convertAliasToRelative
  | Bare, Absolute => Some convertBareToAbsolute
  | Bare, Alias => Some convertBareToAlias
  | Bare, Dynamic => Some (fun ip _ => convertBareToDynamic ip)
  | Bare, Module_ => Some convertBareToModule
  | Bare, Relative => Some convertBareToRelative
  | Dynamic, Absolute => Some convertDynamicToAbsolute
  | Dynamic, Alias => Some convertDynamicToAlias
  | Dynamic, Bare => Some convertDynamicToBare
  | Dynamic, Module_ => Some convertDynamicToModule
  | Dynamic, Relative => Some convertDynamicToRelative
  | Module_, Absolute => Some convertModuleToAbsolute
  | Module_, Alias => Some convertModuleToAlias
  | Module_, Bare => Some convertModuleToBare
  | Module_, Relative => Some convertModuleToRelative
  | Relative, Absolute => Some convertRelativeToAbsolute
  | Relative, Alias => Some convertRelativeToAlias
  | Relative, Bare => Some convertRelativeToBare
  | Relative, Module_ => Some convertRelativeToModule
  | _, _ => None
  end.

(** [/^((\.\.\/|\.\/)+)/.exec(s)]: the matched text, empty when there is
    no match *)
Fixpoint leadingDotSegments (s : str) : str :=
  match s with
  | c1 :: t =>
      match t with
      | c2 :: l =>
          if Ascii.eqb c1 "." && Ascii.eqb c2 "."
             && match l with c3 :: _ => Ascii.eqb c3 "/" | [] => false end
          then
            match l with
            | c3 :: r => c1 :: c2 :: c3 :: leadingDotSegments r
            | [] => []
            end
          else if Ascii.eqb c1 "." && Ascii.eqb c2 "/"
               then c1 :: c2 :: leadingDotSegments l
               else []
      | [] => []
      end
  | [] => []
  end.

(** One round of the loop over [strip] *)
Definition stripOnce (processedPath stripSegment : str) : str :=
  let normalizedStripSegment :=
    if endsWith stripSegment "/" then stripSegment else stripSegment ++ "/" in
  let leading := leadingDotSegments processedPath in
  let afterLeading := sliceFrom processedPath (len leading) in
  if startsWith afterLeading normalizedStripSegment
  then leading ++ sliceFrom afterLeading (len normalizedStripSegment)
  else processedPath.

Definition ensureDotPrefix (p : str) : str :=
  if negb (startsWith p ".") then "./" ++ p else p.

(** The options record as callers pass it: [aliasPrefix] may be absent. *)
Record SingleOptions := mkSingleOptions {
  so_aliasPrefix : option str;
  so_baseDir : str;
  so_currentLibName : option str;
  so_libsList : list (str * LibConfigDeprecated);
  so_sourceFile : str;
  so_urlMap : list (str * str);
  so_strip : list str
}.

(** [convertSingleImportPath] *)
Definition convertSingleImportPath (fromType toType : ImportType) (importPath : str)
           (options : SingleOptions) : str :=
  let fullOptions :=
    mkConversionOptions
      (match so_aliasPrefix options with Some p => p | None => "~/" end)
      (so_baseDir options) (so_currentLibName options) (so_libsList options)
      (so_sourceFile options) (so_urlMap options) (so_strip options) in
  match conversionMapping fromType toType with
  | None => importPath
  | Some converter =>
      let convertedPath := converter importPath fullOptions in
      if (Z.of_nat (List.length (strip fullOptions)) >? 0)%Z
         && negb (eqb convertedPath importPath)
         && negb (isEmpty (sourceFile fullOptions))
      then
        let importingFileDir := np_dirname path (sourceFile fullOptions) in
        let movedFiles : option str :=
          if importType_eqb fromType Alias && negb (isEmpty (baseDir fullOptions)) then
            let sourceTreeTarget :=
              np_resolve path
                [baseDir fullOptions; sliceFrom importPath (len (aliasPrefix fullOptions))] in
            let importingFileRelativeToBase :=
              np_relative path (baseDir fullOptions) (sourceFile fullOptions) in
            let targetFileRelativeToBase :=
              np_relative path (baseDir fullOptions) sourceTreeTarget in
            if negb (isEmpty importingFileRelativeToBase)
               && negb (isEmpty targetFileRelativeToBase)
            then
              let importingFileParts := splitOn PathKit.isSep importingFileRelativeToBase in
              let newBaseDir :=
                Nat.iter (List.length importingFileParts - 1) (np_dirname path)
                         (np_dirname path (sourceFile fullOptions)) in
              let newTargetLocation :=
                np_join path [newBaseDir; np_basename path targetFileRelativeToBase] in
              Some (ensureDotPrefix
                      (replaceBackslashes
                         (np_relative path importingFileDir newTargetLocation)))
            else None
          else None in
        match movedFiles with
        | Some processedPath => processedPath
        | None =>
            let processedPath := fold_left stripOnce (strip fullOptions) convertedPath in
            let preStripAbsoluteTarget := np_resolve path [importingFileDir; convertedPath] in
            let postStripAbsoluteTarget := np_resolve path [importingFileDir; processedPath] in
            if negb (eqb (np_normalize path preStripAbsoluteTarget)
                         (np_normalize path postStripAbsoluteTarget))
            then ensureDotPrefix
                   (replaceBackslashes
                      (np_relative path importingFileDir preStripAbsoluteTarget))
            else processedPath
        end
      else convertedPath
  end.

(** *** [convertImportPaths]

    The run is modelled with the trace of file-system operations it
    performs.  [stat] and the walk over the tree after validation
    ([processDirectoryRecursively] with the file processor that closes
    over the conversion context) are parameters. *)

Record ConvertImportPathsOptions := mkRunOptions {
  ro_baseDir : option str;
  ro_fromType : ImportType;
  ro_toType : ImportType;
  ro_libsList : list (str * LibConfigDeprecated);
  ro_aliasPrefix : option str;
  ro_currentLibName : option str;
  ro_distJsrDryRun : option bool;
  ro_fileExtensions : option (list str);
  ro_generateSourceMap : option bool;
  ro_strip : option (list str);
  ro_urlMap : option (list (str * str))
}.

Inductive FsOp :=
| OpStat (p : str)
| OpReaddir (p : str)
| OpReadFile (p : str)
| OpWriteFile (p content : str).

Inductive StatOutcome :=
| IsDirectory
| NotDirectory
| ENOENT
| StatFails (e : JsError).

Record FileResult := mkFileResult {
  filePath : str;
  message : str;
  success : bool
}.

(** What the file processor closes over *)
Record FileProcessor := mkFileProcessor {
  fp_fromType : ImportType;
  fp_toType : ImportType;
  fp_aliasPrefix : option str;
  fp_baseDir : str;
  fp_currentLibName : option str;
  fp_libsList : list (str * LibConfigDeprecated);
  fp_strip : list str;
  fp_urlMap : list (str * str);
  fp_distJsrDryRun : bool;
  fp_generateSourceMap : bool
}.

Record Run := mkRun {
  trace : list FsOp;
  outcome : Completion (list FileResult)
}.

Variable stat : str -> StatOutcome.
Variable processDirectoryRecursively :
  str -> list str -> FileProcessor -> Z -> list FsOp * list FileResult.

Definition CONCURRENCY_DEFAULT : Z := 5.
Definition DEFAULT_FILE_EXTENSIONS : list str :=
  [".ts" : str; ".tsx" : str; ".js" : str; ".jsx" : str].

(** [Set.prototype.add] on a set kept in insertion order *)
Definition setAdd (l : list str) (x : str) : list str :=
  if existsb (eqb x) l then l else l ++ [x].

(** [s.replace(/\/\//g, "/")] *)
Fixpoint replaceDoubleSlash (s : str) : str :=
  match s with
  | c1 :: t =>
      match t with
      | c2 :: r =>
          if Ascii.eqb c1 "/" && Ascii.eqb c2 "/" then c1 :: replaceDoubleSlash r
          else c1 :: replaceDoubleSlash t
      | [] => [c1]
      end
  | [] => []
  end.

(** A derived segment is kept when it is non-empty, is not ".", does
    not start with ".." and is not "/". *)
Definition usableSegment (s : str) : bool :=
  negb (isEmpty s) && negb (eqb s ".") && negb (startsWith s "..") && negb (eqb s "/").

(** The ancestor directory from which the structural path is taken *)
Definition ancestorDirForRelativePath (baseDir : str) : str :=
  let parentDir := np_dirname path baseDir in
  if negb (eqb parentDir baseDir) && negb (eqb parentDir (np_dirname path parentDir)) then
    let grandParentDir := np_dirname path parentDir in
    if negb (eqb grandParentDir parentDir)
       && negb (eqb grandParentDir (np_dirname path grandParentDir)) then
      let greatGrandParentDir := np_dirname path grandParentDir in
      if negb (eqb greatGrandParentDir grandParentDir)
         && negb (eqb greatGrandParentDir (np_dirname path greatGrandParentDir))
      then greatGrandParentDir else grandParentDir
    else parentDir
  else if negb (eqb baseDir CWD) then
    if negb (eqb parentDir baseDir) then parentDir else CWD
  else CWD.

(** The strip patterns of a run *)
Definition stripPatterns (fromType : ImportType) (userProvidedStrip : option (list str))
           (baseDir : str) : list str :=
  let strip := match userProvidedStrip with Some l => l | None => [] end in
  if importType_eqb fromType Alias then
    let autoStripPatterns := fold_left setAdd strip [] in
    let structuralPath :=
      replaceBackslashes (np_relative path (ancestorDirForRelativePath baseDir) baseDir) in
    let derived1 := if usableSegment structuralPath then [structuralPath] else [] in
    let baseDirName := np_basename path baseDir in
    let derived2 :=
      if usableSegment baseDirName
      then setAdd derived1 (replaceBackslashes baseDirName) else derived1 in
    let derived3 :=
      if (Z.of_nat (List.length derived2) =? 0)%Z && negb (eqb baseDir CWD) then
        let pathFromCwd := replaceBackslashes (np_relative path CWD baseDir) in
        if usableSegment pathFromCwd then setAdd derived2 pathFromCwd else derived2
      else derived2 in
    fold_left
      (fun acc segment =>
         if isEmpty segment then acc
         else
           let pattern := replaceBackslashes segment in
           let pattern := if negb (endsWith pattern "/") then pattern ++ "/" else pattern in
           let pattern := replaceDoubleSlash pattern in
           if negb (isEmpty pattern) && negb (eqb pattern "/") && negb (eqb pattern "./")
              && (len pattern >? 1)%Z
           then setAdd acc pattern else acc)
      derived3 autoStripPatterns
  else strip.

Definition convertImportPaths (options : ConvertImportPathsOptions) : Run :=
  match truthyStr (ro_baseDir options) with
  | None => mkRun [] (Throw (Error "`baseDir` option is required."))
  | Some rawBaseDir =>
      let baseDir := np_resolve path [CWD; rawBaseDir] in
      let fromType := ro_fromType options in
      let toType := ro_toType options in
      if (importType_eqb fromType Alias || importType_eqb toType Alias)
         && match truthyStr (ro_aliasPrefix options) with None => true | Some _ => false end
      then mkRun [] (Throw (Error "aliasPrefix is required for alias path conversions"))
      else
        match stat baseDir with
        | ENOENT =>
            mkRun [OpStat baseDir]
                  (Throw (Error ("Specified baseDir does not exist: " ++ baseDir)))
        | NotDirectory =>
            mkRun [OpStat baseDir]
                  (Throw (Error ("Specified baseDir is not a directory: " ++ baseDir)))
        | StatFails e => mkRun [OpStat baseDir] (Throw e)
        | IsDirectory =>
            let strip := stripPatterns fromType (ro_strip options) baseDir in
            let processor :=
              mkFileProcessor fromType toType (ro_aliasPrefix options) baseDir
                (ro_currentLibName options) (ro_libsList options) strip
                (match ro_urlMap options with Some m => m | None => [] end)
                (match ro_distJsrDryRun options with Some b => b | None => false end)
                (match ro_generateSourceMap options with Some b => b | None => false end) in
            let (ops, results) :=
              processDirectoryRecursively baseDir
                (match ro_fileExtensions options with
                 | Some l => l
                 | None => DEFAULT_FILE_EXTENSIONS
                 end)
                processor CONCURRENCY_DEFAULT in
            mkRun (OpStat baseDir :: ops) (Normal results)
        end
  end.

End WithPath.

(** A sample value of the interface for closed examples: pathkit's own
    functions.  It is not [node:path], from which it differs on some
    inputs ([dirname] of ["a/"] is ["a"] here and ["."] there); the
    theorems about the converters hold for every [NodePath]. *)
Definition pathkitAsNodePath (process_cwd : option str) : NodePath :=
  mkNodePath (PathKit.resolve process_cwd) (PathKit.relative process_cwd)
             PathKit.dirname (fun p => PathKit.basename p None)
             PathKit.join PathKit.isAbsolute PathKit.normalize.

End Dler.

(** ** The scanner of the deprecated module (deprecated/@dler/mod.ts)

    This earlier [getFileImportsExports] applies [limitPerType] while it
    scans: a counter per path type accepts or rejects each statement, and
    only when [pathTypes] is given.  As for the scanner above, the
    regular-expression engine is a parameter. *)

Module DlerScanner.
Import JsString Dler.
Import Scanner (RegExpMatch, m_index, group, wholeMatch, endOf, truthy).
Import Scanner (Kind, KImport, KExport, kindName, KindFilter, OnlyImport, OnlyExport, All).
Import Scanner (SpNamed, SpDefault, SpNamespace, SpAll, ImportExportSpecifier, mkSpecifier).

(** ["static" | "dynamic" | "export"] *)
Inductive StatementType := StStatic | StDynamic | StExport.

(** A field that is left out of the object is [None]; [pathTypeSymbol],
    when present, may be [null]. *)
Record ImportExportInfo := mkInfo {
  statement : str;
  type : StatementType;
  kind : Kind;
  source : option str;
  pathType : option ImportType;
  pathTypeSymbol : option (option str);
  specifiers : option (list ImportExportSpecifier);
  isTypeOnly : option bool;
  start : Z;
  end_ : Z
}.

Record GetFileImportsExportsOptions := mkOptions {
  opt_pathTypes : option (list ImportType);
  opt_limitPerType : option Z;
  opt_kind : option KindFilter
}.

(** The patterns of the source: the two constants by name, the literals
    of [parseNamedSpecifiers] and of the static loop by what they match. *)
Inductive Pattern :=
| STATIC_IMPORT_REGEX
| DYNAMIC_IMPORT_REGEX
| blockComment
| lineComment
| whiteSpace
| asSeparator
| namespaceAs
| declarationWord.

(** [typeCounts]: an object with a number for some of the path types *)
Definition TypeCounts := ImportType -> option Z.

Definition noCounts : TypeCounts := fun _ => None.

(** [typeCounts[pathType] || 0] *)
Definition countOf (typeCounts : TypeCounts) (pathType : ImportType) : Z :=
  match typeCounts pathType with
  | Some c => c
  | None => 0
  end.

Definition setCount (typeCounts : TypeCounts) (pathType : ImportType) (c : Z) : TypeCounts :=
  fun t => if importType_eqb t pathType then Some c else typeCounts t.

(** [shouldIncludeByPathType]: the answer and the counters after the call *)
Definition shouldIncludeByPathType
           (pathTypes : option (list ImportType)) (limitPerType : option Z)
           (typeCounts : TypeCounts) (pathType : ImportType) : bool * TypeCounts :=
  match pathTypes with
  | None => (true, typeCounts)
  | Some pathTypes =>
      if negb (existsb (importType_eqb pathType) pathTypes) then (false, typeCounts)
      else
        match limitPerType with
        | None => (true, typeCounts)
        | Some limit =>
            if (limit =? 0)%Z then (true, typeCounts)
            else
              let c := (countOf typeCounts pathType + 1)%Z in
              ((c <=? limit)%Z, setCount typeCounts pathType c)
        end
  end.

(** [shouldIncludeByKind] *)
Definition shouldIncludeByKind (kind : KindFilter) (statementKind : Kind) : bool :=
  match kind, statementKind with
  | All, _ | OnlyImport, KImport | OnlyExport, KExport => true
  | _, _ => false
  end.

Record NamedSpecifier := mkNamed {
  ns_name : str;
  ns_alias : option str;
  ns_isType : bool
}.

(** [{ type: "named", name, ...(alias && { alias }), ...(isType && { isType: true }) }] *)
Definition namedToSpecifier (ns : NamedSpecifier) : ImportExportSpecifier :=
  mkSpecifier SpNamed (ns_name ns) (truthy (ns_alias ns))
              (if ns_isType ns then Some true else None).

Definition groupText (m : RegExpMatch) (i : nat) : str :=
  match group m i with
  | Some s => s
  | None => []
  end.

Section WithRegExp.

(** [[...s.matchAll(pattern)]] and [Array.from(s.matchAll(pattern))] *)
Variable matchAll : Pattern -> str -> list RegExpMatch.
(** [pattern.exec(s)] *)
Variable exec : Pattern -> str -> option RegExpMatch.
(** [s.replace(pattern, replacement)] for a global pattern *)
Variable replaceAll : Pattern -> str -> str -> str.
(** [s.split(pattern)] *)
Variable splitBy : Pattern -> str -> list str.

(** [parseNamedSpecifiers] *)
Definition parseNamedSpecifiers (block : str) : list NamedSpecifier :=
  let cleanBlock :=
    trim (replaceAll whiteSpace
            (replaceAll lineComment (replaceAll blockComment block []) []) " ") in
  if isEmpty cleanBlock then []
  else
    map (fun imp =>
           let hasTypeKeyword := startsWith imp "type " in
           let withoutType := if hasTypeKeyword then trim (sliceFrom imp 5) else imp in
           let parts := map trim (splitBy asSeparator withoutType) in
           mkNamed (nth 0 parts []) (nth_error parts 1) hasTypeKeyword)
        (filterNonEmpty (map trim (split "," cleanBlock))).

(** [s.slice(1, s.lastIndexOf("}")).trim()] *)
Definition blockOf (s : str) : str := trim (slice s 1 (lastIndexOf s "}")).

(** [beforeFrom] of the static loop *)
Definition beforeFrom (statement : str) (statementKind : Kind) (hasSource : bool) : str :=
  let from := (indexOf statement (kindName statementKind) + len (kindName statementKind))%Z in
  if hasSource then trim (slice statement from (indexOf statement "from"))
  else trim (sliceFrom statement from).

(** The [specifiers] array that the static loop fills *)
Definition specifiersOf (beforeFrom : str) (isTypeOnly : bool)
  : list ImportExportSpecifier :=
  let typeFlag := if isTypeOnly then Some true else None in
  if startsWith beforeFrom "{" then
    map namedToSpecifier (parseNamedSpecifiers (blockOf beforeFrom))
  else if startsWith beforeFrom "*" then
    match exec namespaceAs beforeFrom with
    | Some asMatch => [mkSpecifier SpNamespace (groupText asMatch 1) None typeFlag]
    | None => [mkSpecifier SpAll "*" None typeFlag]
    end
  else if negb (isEmpty beforeFrom) then
    let parts := map trim (split "," beforeFrom) in
    let first := nth 0 parts [] in
    let defaults :=
      match startsWith first "{", exec declarationWord first with
      | false, None =>
          let hasTypeKeyword := startsWith first "type " in
          let name := if hasTypeKeyword then trim (sliceFrom first 5) else first in
          [mkSpecifier SpDefault name None (if hasTypeKeyword then Some true else None)]
      | _, _ => []
      end in
    let named :=
      if (1 <? List.length parts)%nat then
        let namedPart := trim (join "," (skipn 1 parts)) in
        if startsWith namedPart "{"
        then map namedToSpecifier (parseNamedSpecifiers (blockOf namedPart))
        else []
      else [] in
    defaults ++ named
  else [].

(** The state of the two loops: [typeCounts] and [statements] *)
Definition State := (TypeCounts * list ImportExportInfo)%type.

(** The body of the loop over the static matches *)
Definition staticStep (options : GetFileImportsExportsOptions) (st : State)
           (m : RegExpMatch) : State :=
  let kindFilter := match opt_kind options with Some k => k | None => All end in
  let statement := wholeMatch m in
  let statementKind := if eqb (groupText m 1) "import" then KImport else KExport in
  if negb (shouldIncludeByKind kindFilter statementKind) then st
  else
    let source := groupText m 3 in
    let hasSource := includes statement "from" in
    let pathInfo := if hasSource then Some (determineImportPathType source) else None in
    let (ok, typeCounts) :=
      match pathInfo with
      | Some info =>
          shouldIncludeByPathType (opt_pathTypes options) (opt_limitPerType options)
                                  (fst st) (pti_type info)
      | None => (true, fst st)
      end in
    if negb ok then (typeCounts, snd st)
    else
      let isTypeOnly :=
        includes statement (kindName statementKind ++ " type")
        && negb (includes statement (kindName statementKind ++ " type {")) in
      let specifiers :=
        specifiersOf (beforeFrom statement statementKind hasSource) isTypeOnly in
      (typeCounts,
       snd st ++
       [mkInfo statement StStatic statementKind
               (if hasSource then Some source else None)
               (option_map pti_type pathInfo)
               (option_map pti_symbol pathInfo)
               (Some specifiers)
               (if isTypeOnly then Some true else None)
               (m_index m) (endOf m)]).

(** The body of the loop over the dynamic imports *)
Definition dynamicStep (options : GetFileImportsExportsOptions) (st : State)
           (m : RegExpMatch) : State :=
  let statement := wholeMatch m in
  let source := groupText m 2 in
  let pathInfo := determineImportPathType source in
  let (ok, typeCounts) :=
    shouldIncludeByPathType (opt_pathTypes options) (opt_limitPerType options)
                            (fst st) (pti_type pathInfo) in
  if negb ok then (typeCounts, snd st)
  else
    (typeCounts,
     snd st ++
     [mkInfo statement StDynamic KImport (Some source)
             (Some (pti_type pathInfo)) (Some (pti_symbol pathInfo))
             None None (m_index m) (endOf m)]).

(** [getFileImportsExports] *)
Definition getFileImportsExports (code : str) (options : GetFileImportsExportsOptions)
  : list ImportExportInfo :=
  let kindFilter := match opt_kind options with Some k => k | None => All end in
  let st := fold_left (staticStep options) (matchAll STATIC_IMPORT_REGEX code)
                      (noCounts, []) in
  let st :=
    if shouldIncludeByKind kindFilter KImport
    then fold_left (dynamicStep options) (matchAll DYNAMIC_IMPORT_REGEX code) st
    else st in
  snd st.

End WithRegExp.

End DlerScanner.

(** ** The patterns of the deprecated scanner on the backtracking matcher *)

Module DlerRegExp.
Import JsString RegExp DlerScanner.

(** [[^\s,]+] *)
Definition name_plus : Regex :=
  Plus (Chr (fun c => negb (isWhitespace c || Ascii.eqb c ","))).

(** [\s+as\s+[^\s,]+] *)
Definition asName : Regex := seq [s_plus; Lit "as"; s_plus; name_plus].

(** [\*\s+as\s+[^,\s]+] *)
Definition starAs : Regex := seq [Lit "*"; s_plus; Lit "as"; s_plus; name_plus].

(** [\{[^}]*\}|\*\s+as\s+[^,\s]+|[^\s,]+(?:\s+as\s+[^\s,]+)?] *)
Definition clause : Regex := alt [braces; starAs; seq [name_plus; Opt asName]].

Definition pattern (p : Pattern) : Regex * nat :=
  match p with
  | STATIC_IMPORT_REGEX =>
      (seq [Capture 1 (Alt (Lit "import") (Lit "export"));
            Opt (seq [s_plus; Lit "type"]);
            s_star;
            Opt (seq [alt [braces; starAs;
                           seq [name_plus; Opt asName;
                                Star (seq [s_star; Lit ","; s_star; clause])]];
                      s_star; Lit "from"; s_plus]);
            Capture 2 quote;
            Capture 3 (Star (Alt (seq [NotAhead (Backref 2); Chr isNotLineTerminator])
                                 (seq [Lit "\"; Backref 2])));
            Backref 2],
       3)
  | DYNAMIC_IMPORT_REGEX =>
      (seq [Lit "import"; s_star; Lit "("; s_star; Capture 1 quote;
            Capture 2 (Plus (Chr (fun c => negb (isQuoteChar c))));
            Backref 1; s_star; Lit ")"],
       2)
  | blockComment => (seq [Lit "/*"; LazyStar (Chr (fun _ => true)); Lit "*/"], 0)
  | lineComment => (seq [Lit "//"; Star (Chr isNotLineTerminator)], 0)
  | whiteSpace => (s_plus, 0)
  | asSeparator => (seq [s_plus; Lit "as"; s_plus], 0)
  | namespaceAs => (seq [Lit "*"; s_plus; Lit "as"; s_plus; Capture 1 name_plus], 1)
  | declarationWord =>
      (seq [Bol;
            Capture 1 (alt [Lit "interface"; Lit "class"; Lit "const"; Lit "let"; Lit "var"]);
            Chr isWhitespace],
       1)
  end.

Definition matchAll (p : Pattern) (s : str) : list Scanner.RegExpMatch :=
  matchAllFrom (fst (pattern p)) (snd (pattern p)) s 0 0.

Definition exec (p : Pattern) (s : str) : option Scanner.RegExpMatch :=
  execFrom (fst (pattern p)) (snd (pattern p)) s 0.

Definition replaceAll (p : Pattern) (s rep : str) : str :=
  replaceFrom (fst (pattern p)) rep s 0 0.

Definition splitBy (p : Pattern) (s : str) : list str :=
  splitFrom (fst (pattern p)) s 0 0 [].

(** The deprecated scanner on this engine *)
Definition getFileImportsExports :=
  DlerScanner.getFileImportsExports matchAll exec replaceAll splitBy.

End DlerRegExp.

(** ** Path segments: [stripPathSegments] and [attachPathSegments] *)

Module PathSegments.
Import JsString PathKit.
Import PathKitJs (Completion, Normal, Throw, JsError, Error, TypeError).

Definition isDotSegment (s : str) : bool := eqb s DOT || eqb s DOUBLE_DOT.

(** The [while] loop that moves leading [.] and [..] segments to the
    preserved ones: the result is the moved segments and the rest. *)
Fixpoint shiftDotSegments (pathSegments : list str) : list str * list str :=
  match pathSegments with
  | s :: rest =>
      if isDotSegment s
      then let (moved, body) := shiftDotSegments rest in (s :: moved, body)
      else ([], pathSegments)
  | [] => ([], [])
  end.

(** [stripPathSegments(path, count, alias)] for an integer [count]; the
    defaults of the source are [count = 1] and the empty [alias]. *)
Definition stripPathSegments (path : str) (count : Z) (alias : str) : str :=
  if (len path =? 0)%Z then path
  else if (count <=? 0)%Z then path
  else
    let normalizedPath := normalizeWindowsPath path in
    let parsed := parse normalizedPath in
    let fromDir : list str :=
      if negb (isEmpty (dir parsed)) && negb (eqb (dir parsed) (root parsed)) then
        let dirRelativeToRoot :=
          if negb (isEmpty (root parsed)) && startsWith (dir parsed) (root parsed)
          then substringFrom (dir parsed) (len (root parsed))
          else dir parsed in
        split "/" dirRelativeToRoot
      else [] in
    let fromBase : list str := if isEmpty (base parsed) then [] else [base parsed] in
    let pathSegments := filterNonEmpty (fromDir ++ fromBase) in
    let '(aliasSegment, pathSegments) :=
      match pathSegments with
      | s0 :: rest =>
          if negb (isEmpty alias) && startsWith s0 alias
          then ([s0], rest) else ([], pathSegments)
      | [] => ([], [])
      end in
    let '(dotSegments, pathSegments) := shiftDotSegments pathSegments in
    let leadingPreservedSegments := aliasSegment ++ dotSegments in
    let numToStrip := Z.min count (Z.of_nat (List.length pathSegments)) in
    let remainingBodySegments := skipn (Z.to_nat numToStrip) pathSegments in
    let pathRoot := root parsed in
    let effectiveSegments := leadingPreservedSegments ++ remainingBodySegments in
    match effectiveSegments with
    | [] => normalize (if isEmpty pathRoot then DOT else pathRoot)
    | _ :: _ =>
        if negb (isEmpty pathRoot) then join (pathRoot :: effectiveSegments)
        else join effectiveSegments
    end.

Inductive Position := Before | After.

Definition position_eqb (a b : Position) : bool :=
  match a, b with
  | Before, Before | After, After => true
  | _, _ => false
  end.

(** The options of [attachPathSegments]; an absent field takes its
    default. *)
Record AttachOptions := mkAttachOptions {
  ao_position : option Position;
  ao_normalize : option bool;
  ao_ensureSlash : option bool;
  ao_preserveRoot : option bool;
  ao_preserveAlias : option str
}.

Definition defaultAttachOptions : AttachOptions :=
  mkAttachOptions None None None None None.

(** [segments: string | string[]] *)
Inductive SegmentsArg :=
| OneSegment (s : str)
| SegmentArray (l : list str).

(** [s.replace(pattern, replacement)] for a string pattern and a
    replacement without [$]: the first occurrence only. *)
Definition replaceFirst (s pattern replacement : str) : str :=
  let i := indexOf s pattern in
  if (i =? -1)%Z then s
  else firstn (Z.to_nat i) s ++ replacement
       ++ skipn (Z.to_nat i + List.length pattern) s.

(** A string that is present and not empty *)
Definition truthyString (o : option str) : option str :=
  match o with
  | Some s => if isEmpty s then None else Some s
  | None => None
  end.

Section WithRegExp.

(** [new RegExp(source).exec(subject)]: the matched text, [None] without
    a match; the constructor throws on a source that is no pattern. *)
Variable regExpExec : str -> str -> Completion (option str).

Definition attachPathSegments (path : str) (segments : SegmentsArg)
           (options : AttachOptions) : Completion str :=
  if (len path =? 0)%Z then Normal path
  else
    let position := match ao_position options with Some p => p | None => After end in
    let shouldNormalize := match ao_normalize options with Some b => b | None => true end in
    let ensureSlash := match ao_ensureSlash options with Some b => b | None => true end in
    let preserveRoot := match ao_preserveRoot options with Some b => b | None => true end in
    let segmentsArray :=
      match segments with OneSegment s => [s] | SegmentArray l => l end in
    let validSegments := filter (fun s => (len s >? 0)%Z) segmentsArray in
    if (Z.of_nat (List.length validSegments) =? 0)%Z then Normal path
    else
      let basePath := if shouldNormalize then normalizeWindowsPath path else path in
      let finish (alias pathWithoutAlias : str) : str :=
        let isAbsolute := IS_ABSOLUTE_RE pathWithoutAlias in
        let root := if preserveRoot && isAbsolute then SLASH else EMPTY in
        let pathWithoutRoot :=
          if isAbsolute then sliceFrom pathWithoutAlias 1 else pathWithoutAlias in
        let joinedSegments := JsString.join SLASH validSegments in
        let result :=
          match position with
          | Before =>
              if ensureSlash
              then alias ++ root ++ joinedSegments ++ SLASH ++ pathWithoutRoot
              else alias ++ root ++ joinedSegments ++ pathWithoutRoot
          | After =>
              if ensureSlash
              then alias ++ root ++ pathWithoutRoot ++ SLASH ++ joinedSegments
              else alias ++ root ++ pathWithoutRoot ++ joinedSegments
          end in
        if shouldNormalize then normalize result else result in
      match truthyString (ao_preserveAlias options), position with
      | Some preserveAlias, Before =>
          match regExpExec ("^" ++ replaceFirst preserveAlias "*" ".*") basePath with
          | Throw e => Throw e
          | Normal (Some aliasMatch) =>
              Normal (finish aliasMatch (sliceFrom basePath (len aliasMatch)))
          | Normal None => Normal (finish EMPTY basePath)
          end
      | _, _ => Normal (finish EMPTY basePath)
      end.

End WithRegExp.

End PathSegments.

(** ** The [win32] member of the platform table *)

Module Win32.
Import JsString PathKit.

(** [s.replace(/\//g, BACK_SLASH)] *)
Definition replaceSlashes (s : str) : str :=
  map (fun c => if Ascii.eqb c "/" then "\"%char else c) s.

(** [/^[a-zA-Z]:/] *)
Definition DRIVE_PREFIX_RE (s : str) : bool :=
  match s with
  | c1 :: c2 :: _ => isAsciiLetter c1 && Ascii.eqb c2 ":"
  | _ => false
  end.

(** [win32.isAbsolute]: [/^[a-zA-Z]:[/\\]/] or [/^[/\\]{2}/] *)
Definition isAbsolute (p : str) : bool :=
  match p with
  | c1 :: c2 :: c3 :: _ =>
      isAsciiLetter c1 && Ascii.eqb c2 ":" && isSep c3 || UNC_REGEX p
  | _ => UNC_REGEX p
  end.

Section WithProcess.

Variable process_cwd : option str.

(** [win32.toNamespacedPath] *)
Definition toNamespacedPath (p : str) : str :=
  if (len p =? 0)%Z then p
  else
    let resolved := resolve process_cwd [p] in
    if DRIVE_PREFIX_RE resolved then "\\?\" ++ replaceSlashes resolved
    else if UNC_REGEX resolved
         then "\\?\UNC\" ++ replaceSlashes (substringFrom resolved 2)
         else replaceSlashes p.

End WithProcess.

End Win32.

(** ** Rewriting of aliased imports (mod.ts of pathkit) *)

Module ImportRewrite.
Import JsString PathKit.
Import PathKitJs (Completion, Normal, Throw, JsError, Error, TypeError).
Import PathSegments (replaceFirst).

(** [paths: Record<string, string[]>] as its own keys in enumeration
    order, each with its array *)
Definition Paths := list (str * list str).

Fixpoint getPaths (paths : Paths) (k : str) : option (list str) :=
  match paths with
  | [] => None
  | (k', v) :: t => if eqb k' k then Some v else getPaths t k
  end.

(** [paths[k]?.[0]] when it is truthy *)
Definition firstTarget (paths : Paths) (k : str) : option str :=
  match getPaths paths k with
  | Some (t0 :: _) => if isEmpty t0 then None else Some t0
  | _ => None
  end.

Record AliasMatch := mkAliasMatch {
  am_key : str;
  am_root : str;
  am_resolvedPath : str;
  am_suffix : str
}.

(** The [for (const aliasKey in paths)] loop of [findAliasMatch] over the
    keys still to visit *)
Fixpoint wildcardMatch (importPath : str) (paths : Paths) (keys : list str)
  : option AliasMatch :=
  match keys with
  | [] => None
  | aliasKey :: rest =>
      if endsWith aliasKey "/*" then
        let aliasRoot := slice aliasKey 0 (-2) in
        if eqb importPath aliasRoot || startsWith importPath (aliasRoot ++ "/") then
          let suffix :=
            if eqb importPath aliasRoot then EMPTY
            else sliceFrom importPath (len aliasRoot + 1) in
          match firstTarget paths aliasKey with
          | Some t0 => Some (mkAliasMatch aliasKey aliasRoot (slice t0 0 (-2)) suffix)
          | None => wildcardMatch importPath paths rest
          end
        else wildcardMatch importPath paths rest
      else wildcardMatch importPath paths rest
  end.

(** [findAliasMatch]; on a record without keys the first key is
    [undefined] and its [replace] throws. *)
Definition findAliasMatch (importPath : str) (paths : Paths)
  : Completion (option AliasMatch) :=
  match map fst paths with
  | [] => Throw (TypeError "Cannot read properties of undefined (reading 'replace')")
  | firstPathKey :: _ =>
      let baseAlias := replaceFirst firstPathKey "/*" EMPTY in
      if startsWith importPath "@" && negb (startsWith importPath baseAlias) then Normal None
      else
        match firstTarget paths importPath with
        | Some t0 => Normal (Some (mkAliasMatch importPath importPath t0 EMPTY))
        | None => Normal (wildcardMatch importPath paths (map fst paths))
        end
  end.

(** [getTargetExtension] *)
Definition getTargetExtension (relPath originalExt : str) : str :=
  if negb (isEmpty originalExt) then relPath else relPath.

Section WithFiles.

Variable process_cwd : option str.

(** [toRelativeImport] *)
Definition toRelativeImport (absPath fromDir : str) : str :=
  let rel := normalizeWindowsPath (relative process_cwd fromDir absPath) in
  if startsWith rel DOT then rel else "./" ++ rel.

(** [resolveFileWithExtensions] with its default extensions, which looks
    files up on disk: the file found, if any *)
Variable resolveFileWithExtensions : str -> option str.

(** [convertStringAliasRelative] *)
Definition convertStringAliasRelative (importPath importerFile pathPattern targetDir : str)
  : Completion str :=
  let baseAlias := replaceFirst pathPattern "/*" EMPTY in
  if startsWith importPath "@" && negb (startsWith importPath baseAlias)
  then Normal importPath
  else
    let paths : Paths := [(pathPattern, ["./*" : str])] in
    let importerDir := dirname importerFile in
    match findAliasMatch importPath paths with
    | Throw e => Throw e
    | Normal None => Normal importPath
    | Normal (Some m) =>
        let absPath := resolve process_cwd [targetDir; am_resolvedPath m; am_suffix m] in
        let resolvedFile := resolveFileWithExtensions absPath in
        let relPath := toRelativeImport (orElse resolvedFile absPath) importerDir in
        let originalExt := extname importPath in
        Normal (getTargetExtension relPath originalExt)
    end.

End WithFiles.

(** [s.indexOf(sub, position)] *)
Definition indexOfAt (s sub : str) (position : Z) : Z :=
  let p := Z.min (Z.max position 0) (len s) in
  indexOfFrom (skipn (Z.to_nat p) s) sub p.

(** [s.substring(a, b)] *)
Definition substring (s : str) (a b : Z) : str :=
  let a := Z.min (Z.max a 0) (len s) in
  let b := Z.min (Z.max b 0) (len s) in
  let lo := Z.min a b in
  let hi := Z.max a b in
  firstn (Z.to_nat (hi - lo)) (skipn (Z.to_nat lo) s).

(** The [while] loop of [replaceAllInString]; [None] when [fuel] rounds
    do not reach its end. *)
Fixpoint replaceAllLoop (fuel : nat) (original searchValue replaceValue : str)
         (currentPosition : Z) (result : str) : option str :=
  match fuel with
  | O => None
  | S fuel' =>
      if (currentPosition <? len original)%Z then
        let foundIdx := indexOfAt original searchValue currentPosition in
        if (foundIdx =? -1)%Z
        then Some (result ++ substringFrom original currentPosition)
        else
          replaceAllLoop fuel' original searchValue replaceValue
            (foundIdx + len searchValue)%Z
            (result ++ substring original currentPosition foundIdx ++ replaceValue)
      else Some result
  end.

(** [replaceAllInString] *)
Definition replaceAllInString (fuel : nat) (original searchValue replaceValue : str)
  : option str :=
  replaceAllLoop fuel original searchValue replaceValue 0 EMPTY.

End ImportRewrite.

(** ** Text helpers of the deprecated module *)

Module DlerText.
Import JsString.

(** [replaceJsExtension] *)
Definition replaceJsExtension (importPath : str) : str :=
  if endsWith importPath ".js" then slice importPath 0 (-3) ++ ".ts" else importPath.

(** [normalizeQuotes]: [str.replace(/['"]/g, '"')] *)
Definition normalizeQuotes (s : str) : str :=
  map (fun c => if Ascii.eqb c "'" || Ascii.eqb c DQUOTE then DQUOTE else c) s.

End DlerText.

(** * Properties

    Everything above is the embedding of the sources; everything below is
    stated and proved about it. *)

(** ** Facts about the string primitives *)

Module JsStringFacts.
Import JsString.

Lemma eqb_eq (a b : str) : eqb a b = true <-> a = b.
Proof.
  revert b; induction a as [|c a IH]; intros [|d b]; simpl; split; intro H;
    try reflexivity; try discriminate.
  - apply andb_true_iff in H as [H1 H2].
    apply Ascii.eqb_eq in H1. apply IH in H2. congruence.
  - injection H as -> ->. rewrite Ascii.eqb_refl. simpl. now apply IH.
Qed.

Lemma eqb_refl (a : str) : eqb a a = true.
Proof. now apply eqb_eq. Qed.

Lemma eqb_neq (a b : str) : eqb a b = false <-> a <> b.
Proof.
  split; intro H.
  - intro E. apply eqb_eq in E. congruence.
  - destruct (eqb a b) eqn:E; [apply eqb_eq in E; contradiction | reflexivity].
Qed.

Lemma len_app (a b : str) : len (a ++ b) = (len a + len b)%Z.
Proof. unfold len. rewrite length_app. lia. Qed.

Lemma len_nonneg (a : str) : (0 <= len a)%Z.
Proof. unfold len. lia. Qed.

Lemma len_zero (a : str) : len a = 0%Z <-> a = [].
Proof. unfold len. destruct a; simpl; split; intro H; try reflexivity; try discriminate; lia. Qed.

Lemma startsWith_app (p s : str) : startsWith (p ++ s) p = true.
Proof. induction p as [|c p IH]; simpl; [reflexivity|]. now rewrite Ascii.eqb_refl. Qed.

Lemma startsWith_inv (s p : str) :
  startsWith s p = true -> exists t, s = p ++ t.
Proof.
  revert s; induction p as [|c p IH]; intros s H; simpl in *.
  - now exists s.
  - destruct s as [|d s]; [discriminate|].
    apply andb_true_iff in H as [H1 H2]. apply Ascii.eqb_eq in H1. subst d.
    destruct (IH _ H2) as [t ->]. now exists t.
Qed.

Lemma endsWith_app (s p : str) : endsWith (s ++ p) p = true.
Proof. unfold endsWith. rewrite rev_app_distr. apply startsWith_app. Qed.

Lemma clampIndex_in_range (n i : Z) : (0 <= i <= n)%Z -> clampIndex n i = i.
Proof.
  intro H. unfold clampIndex.
  destruct (Z.ltb_spec i 0); [lia|]. apply Z.min_l. lia.
Qed.

Lemma slice_prefix (a b : str) : slice (a ++ b) 0 (len a) = a.
Proof.
  pose proof (len_nonneg a). pose proof (len_nonneg b).
  unfold slice. rewrite !clampIndex_in_range by (rewrite len_app; lia).
  rewrite Z.sub_0_r. unfold len. rewrite Nat2Z.id. simpl.
  rewrite firstn_app, firstn_all, Nat.sub_diag. simpl. apply app_nil_r.
Qed.

Lemma slice_middle (a b c : str) :
  slice (a ++ b ++ c) (len a) (len a + len b) = b.
Proof.
  pose proof (len_nonneg a). pose proof (len_nonneg b). pose proof (len_nonneg c).
  unfold slice. rewrite !clampIndex_in_range by (rewrite !len_app; lia).
  replace (len a + len b - len a)%Z with (len b) by lia.
  unfold len. rewrite !Nat2Z.id.
  rewrite skipn_app, skipn_all, Nat.sub_diag. simpl.
  rewrite firstn_app, firstn_all, Nat.sub_diag. simpl. apply app_nil_r.
Qed.

Definition lacks (ch : ascii) (s : str) : Prop := Forall (fun c => c <> ch) s.

Lemma lastIndexOfAux_lacks ch s i acc :
  lacks ch s -> lastIndexOfAux ch s i acc = acc.
Proof.
  revert i acc; induction s as [|d s IH]; intros i acc H; simpl; [reflexivity|].
  inversion H as [|? ? Hd Hs]; subst.
  apply Ascii.eqb_neq in Hd. rewrite Hd. now apply IH.
Qed.

Lemma lastIndexOfAux_app ch a b i acc :
  lacks ch b ->
  lastIndexOfAux ch (a ++ ch :: b) i acc = (i + len a)%Z.
Proof.
  revert i acc; induction a as [|d a IH]; intros i acc H; simpl.
  - rewrite Ascii.eqb_refl. rewrite lastIndexOfAux_lacks by assumption.
    unfold len; simpl; lia.
  - rewrite IH by assumption. unfold len. simpl List.length. lia.
Qed.

Lemma lastIndexOf_lacks ch s : lacks ch s -> lastIndexOf s ch = (-1)%Z.
Proof. intro H. unfold lastIndexOf. now apply lastIndexOfAux_lacks. Qed.

Lemma lastIndexOf_app ch a b :
  lacks ch b -> lastIndexOf (a ++ ch :: b) ch = len a.
Proof. intro H. unfold lastIndexOf. rewrite lastIndexOfAux_app by assumption. lia. Qed.

Lemma split_lacks ch s : lacks ch s -> split ch s = [s].
Proof.
  unfold split. induction s as [|d s IH]; intro H; simpl; [reflexivity|].
  inversion H as [|? ? Hd Hs]; subst.
  assert (E : Ascii.eqb ch d = false) by (apply Ascii.eqb_neq; congruence).
  rewrite E, (IH Hs). reflexivity.
Qed.

Lemma split_nonnil ch s : split ch s <> [].
Proof.
  unfold split. destruct s as [|d s]; simpl; [discriminate|].
  destruct (Ascii.eqb ch d); [discriminate|].
  destruct (splitOn (Ascii.eqb ch) s); discriminate.
Qed.

Lemma split_cons_lacks ch a b :
  lacks ch a -> split ch (a ++ ch :: b) = a :: split ch b.
Proof.
  unfold split. induction a as [|d a IH]; intro H; simpl.
  - now rewrite Ascii.eqb_refl.
  - inversion H as [|? ? Hd Hs]; subst.
    assert (E : Ascii.eqb ch d = false) by (apply Ascii.eqb_neq; congruence).
    rewrite E, (IH Hs). reflexivity.
Qed.

(** Splitting [a ++ b] when [a] is free of separators merges [a] into the
    first piece of [b]. *)
Lemma split_app_lacks ch a b :
  lacks ch a ->
  split ch (a ++ b) =
    match split ch b with
    | h :: t => (a ++ h) :: t
    | [] => [a]
    end.
Proof.
  unfold split. induction a as [|d a IH]; intro H; simpl.
  - destruct (splitOn (Ascii.eqb ch) b) eqn:E; [|reflexivity].
    exfalso. now apply (split_nonnil ch b).
  - inversion H as [|? ? Hd Hs]; subst.
    assert (E : Ascii.eqb ch d = false) by (apply Ascii.eqb_neq; congruence).
    rewrite E, (IH Hs).
    destruct (splitOn (Ascii.eqb ch) b); reflexivity.
Qed.

Lemma join_snoc sep (l : list str) (x : str) :
  join sep (l ++ [x]) = match l with [] => x | _ => join sep l ++ sep ++ x end.
Proof.
  induction l as [|y l IH]; [reflexivity|].
  destruct l as [|z l]; [reflexivity|].
  change (join sep ((y :: z :: l) ++ [x])) with (y ++ sep ++ join sep ((z :: l) ++ [x])).
  rewrite IH. change (join sep (y :: z :: l)) with (y ++ sep ++ join sep (z :: l)).
  now rewrite <- !app_assoc.
Qed.

End JsStringFacts.

(** ** Facts about the path algebra *)

Module PathKitFacts.
Import JsString JsStringFacts PathKit.

(** *** A segment-level reading of [normalizeString]

    The result is kept as a stack of segments, top first. *)

Definition pushSegment (allowAboveRoot : bool) (rs : list str) (seg : str) : list str :=
  if isEmpty seg || eqb seg DOT then rs
  else if eqb seg DOUBLE_DOT then
    match rs with
    | [] => if allowAboveRoot then [DOUBLE_DOT] else []
    | top :: rs' =>
        if eqb top DOUBLE_DOT then (if allowAboveRoot then DOUBLE_DOT :: rs else rs)
        else rs'
    end
  else seg :: rs.

Definition render (rs : list str) : str := JsString.join SLASH (rev rs).

Definition topLen (rs : list str) : Z :=
  match rs with
  | [] => 0%Z
  | top :: _ => len top
  end.

Definition goodSeg (s : str) : Prop := s <> [] /\ lacks "/" s.

Definition dotStep (d : Z) (c : ascii) : Z :=
  if Ascii.eqb c "." && negb (d =? -1)%Z then (d + 1)%Z else (-1)%Z.

Definition dotsOf (cur : str) : Z := fold_left dotStep cur 0%Z.

Lemma dotsOf_snoc cur c : dotsOf (cur ++ [c]) = dotStep (dotsOf cur) c.
Proof. unfold dotsOf. now rewrite fold_left_app. Qed.

Lemma dotStep_fold cur d :
  (-1 <= d)%Z ->
  fold_left dotStep cur d =
    if (d =? -1)%Z then (-1)%Z
    else if forallb (Ascii.eqb ".") cur then (d + len cur)%Z else (-1)%Z.
Proof.
  revert d; induction cur as [|c cur IH]; intros d Hd; cbn [fold_left forallb].
  - unfold len; simpl. destruct (Z.eqb_spec d (-1)); lia.
  - unfold dotStep at 2.
    destruct (Z.eqb_spec d (-1)) as [->|Hd']; cbn [negb].
    + rewrite andb_false_r. now rewrite IH.
    + rewrite andb_true_r. rewrite (Ascii.eqb_sym c ".").
      destruct (Ascii.eqb "." c); cbn [andb].
      * rewrite IH by lia.
        destruct (Z.eqb_spec (d + 1) (-1)); [lia|].
        destruct (forallb (Ascii.eqb ".") cur); [|reflexivity].
        unfold len. simpl List.length. lia.
      * now rewrite IH.
Qed.

Lemma dotsOf_spec cur :
  dotsOf cur = if forallb (Ascii.eqb ".") cur then len cur else (-1)%Z.
Proof. unfold dotsOf. rewrite dotStep_fold by lia. reflexivity. Qed.

Lemma dotsOf_zero cur : dotsOf cur = 0%Z -> cur = [].
Proof.
  rewrite dotsOf_spec. destruct (forallb _ cur); [|discriminate].
  apply len_zero.
Qed.

Lemma dotsOf_one cur : dotsOf cur = 1%Z -> cur = DOT.
Proof.
  rewrite dotsOf_spec. destruct cur as [|a [|b cur]]; cbn [forallb].
  - discriminate.
  - destruct (Ascii.eqb_spec "." a) as [<-|]; [reflexivity|discriminate].
  - destruct (_ && _); [|discriminate]. unfold len. simpl List.length. lia.
Qed.

Lemma dotsOf_two cur : dotsOf cur = 2%Z -> cur = DOUBLE_DOT.
Proof.
  rewrite dotsOf_spec. destruct cur as [|a [|b [|c cur]]]; cbn [forallb].
  - discriminate.
  - destruct (_ && _); discriminate.
  - destruct (Ascii.eqb_spec "." a) as [<-|]; [|discriminate].
    destruct (Ascii.eqb_spec "." b) as [<-|]; [reflexivity|discriminate].
  - destruct (_ && _); [|discriminate]. unfold len. simpl List.length. lia.
Qed.

(** Rendering a stack *)

Lemma render_cons x rs :
  render (x :: rs) = match rs with [] => x | _ => render rs ++ SLASH ++ x end.
Proof.
  unfold render. cbn [rev]. rewrite join_snoc.
  destruct rs as [|y rs]; [reflexivity|].
  destruct (rev (y :: rs)) eqn:E; [|reflexivity].
  apply (f_equal (@List.length _)) in E. rewrite length_rev in E. discriminate.
Qed.

Lemma render_nonempty rs :
  Forall goodSeg rs -> rs <> [] -> (len (render rs) > 0)%Z.
Proof.
  intros H Hne. destruct rs as [|x rs]; [contradiction|].
  inversion H as [|? ? [Hx _] _]; subst.
  rewrite render_cons.
  assert (0 < len x)%Z.
  { pose proof (len_nonneg x). destruct (Z.eq_dec (len x) 0) as [E|]; [|lia].
    apply len_zero in E. contradiction. }
  destruct rs; [lia|]. rewrite !len_app.
  pose proof (len_nonneg (render (s :: rs))). pose proof (len_nonneg SLASH). lia.
Qed.

Lemma goodSeg_push allow rs cur :
  Forall goodSeg rs -> lacks "/" cur -> Forall goodSeg (pushSegment allow rs cur).
Proof.
  intros H Hc. unfold pushSegment.
  destruct (isEmpty cur) eqn:E1; cbn [orb]; [assumption|].
  destruct (eqb cur DOT) eqn:E2; [assumption|].
  assert (Hg : goodSeg cur).
  { split; [|assumption]. intros ->. discriminate. }
  destruct (eqb cur DOUBLE_DOT) eqn:E3.
  - destruct rs as [|top rs'].
    + destruct allow; [|constructor]. constructor; [|constructor].
      apply eqb_eq in E3. now subst.
    + destruct (eqb top DOUBLE_DOT).
      * destruct allow; [|assumption]. constructor; [|assumption].
        apply eqb_eq in E3. now subst.
      * now inversion H.
  - now constructor.
Qed.

Lemma len_pos_of_good x : goodSeg x -> (0 < len x)%Z.
Proof.
  intros [Hx _]. pose proof (len_nonneg x).
  destruct (Z.eq_dec (len x) 0) as [E|]; [|lia].
  apply len_zero in E. contradiction.
Qed.

Lemma lastIndexOf_render top rs :
  goodSeg top -> Forall goodSeg rs ->
  lastIndexOf (render (top :: rs)) "/" =
    match rs with [] => (-1)%Z | _ => len (render rs) end.
Proof.
  intros [_ Ht] Hrs. rewrite render_cons. destruct rs as [|y rs].
  - now apply lastIndexOf_lacks.
  - change (SLASH ++ top) with ("/"%char :: top). now apply lastIndexOf_app.
Qed.

Lemma topLen_render rs :
  Forall goodSeg rs ->
  (len (render rs) - 1 - lastIndexOf (render rs) "/")%Z = topLen rs.
Proof.
  intro H. destruct rs as [|top rs]; [reflexivity|].
  inversion H as [|? ? Ht Hrs]; subst.
  rewrite lastIndexOf_render by assumption.
  rewrite render_cons. cbn [topLen]. destruct rs as [|y rs]; [lia|].
  rewrite !len_app. change (len SLASH) with 1%Z. lia.
Qed.

Lemma endsWith_snoc (p : str) (b c : ascii) :
  endsWith (p ++ [b]) [c] = Ascii.eqb c b.
Proof.
  unfold endsWith. rewrite rev_app_distr. cbn [rev app startsWith].
  now rewrite andb_true_r.
Qed.

Lemma charAt_app (p q : str) :
  charAt (p ++ q) (len p) = nth_error q 0.
Proof.
  unfold charAt. pose proof (len_nonneg p).
  destruct (Z.ltb_spec (len p) 0); [lia|].
  unfold len. rewrite Nat2Z.id, nth_error_app2 by lia. now rewrite Nat.sub_diag.
Qed.

(** A stack whose rendering ends in [..] with a top of length two has
    [..] on top, and conversely. *)
Lemma top_is_dotdot top rs :
  goodSeg top -> Forall goodSeg rs ->
  let r := render (top :: rs) in
  (len r <? 2)%Z || negb (len top =? 2)%Z || negb (endsWith r DOT)
    || negb (charIs (charAt r (len r - 2)) ".")
  = negb (eqb top DOUBLE_DOT).
Proof.
  intros Ht Hrs r.
  assert (Hr : exists p, r = p ++ top).
  { unfold r. rewrite render_cons. destruct rs; [now exists []|].
    eexists. now rewrite app_assoc. }
  destruct Hr as [p Hr]. clearbody r. subst r.
  destruct (Z.eqb_spec (len top) 2) as [E|E].
  - destruct top as [|a [|b [|c top]]]; try (unfold len in E; simpl in E; lia).
    assert (L : len (p ++ [a; b]) = (len p + 2)%Z) by (rewrite len_app; reflexivity).
    rewrite L. pose proof (len_nonneg p).
    destruct (Z.ltb_spec (len p + 2) 2); [lia|]. cbn [negb orb].
    change (p ++ [a; b]) with (p ++ [a] ++ [b]). rewrite app_assoc.
    unfold DOT. cbn [list_ascii_of_string]. rewrite endsWith_snoc.
    rewrite <- app_assoc. cbn [app].
    replace (len p + 2 - 2)%Z with (len p) by lia.
    rewrite charAt_app. cbn [nth_error charIs].
    unfold DOUBLE_DOT. cbn [list_ascii_of_string eqb].
    rewrite andb_true_r.
    rewrite (Ascii.eqb_sym "." b).
    destruct (Ascii.eqb a "."), (Ascii.eqb b "."); reflexivity.
  - cbn [negb]. rewrite orb_true_r. cbn [orb].
    destruct (eqb top DOUBLE_DOT) eqn:E2; [|reflexivity].
    apply eqb_eq in E2. subst top. now contradiction E.
Qed.

Lemma nsBody_slash path allow front cur rest rs st :
  path = front ++ cur ++ rest ->
  lacks "/" cur ->
  Forall goodSeg rs ->
  res st = render rs ->
  lastSegmentLength st = topLen rs ->
  lastSlash st = (len front - 1)%Z ->
  dots st = dotsOf cur ->
  nsBody path allow (len front + len cur) "/" st =
    mkNState (render (pushSegment allow rs cur))
             (topLen (pushSegment allow rs cur))
             (len front + len cur) 0.
Proof.
  intros Hpath Hcur Hrs Hres Hlsl Hls Hdots.
  destruct st as [r lsl ls d]. cbn [res lastSegmentLength lastSlash dots] in *.
  subst r lsl ls d.
  unfold nsBody. cbn [res lastSegmentLength lastSlash dots].
  change (Ascii.eqb "/" "/") with true. cbv iota.
  pose proof (len_nonneg cur) as Hlc.
  destruct (Z.eqb_spec (len front - 1) (len front + len cur - 1)) as [E0|E0].
  { assert (cur = []) by (apply len_zero; lia). subst cur. reflexivity. }
  cbn [orb].
  assert (Hne : cur <> []) by (intros ->; unfold len in E0; simpl in E0; lia).
  assert (Hemp : isEmpty cur = false) by (destruct cur; [contradiction|reflexivity]).
  destruct (Z.eqb_spec (dotsOf cur) 1) as [E1|E1].
  { apply dotsOf_one in E1. subst cur. reflexivity. }
  destruct (Z.eqb_spec (dotsOf cur) 2) as [E2|E2].
  { apply dotsOf_two in E2. subst cur.
    unfold pushSegment. rewrite Hemp. cbn [orb].
    change (eqb DOUBLE_DOT DOT) with false. change (eqb DOUBLE_DOT DOUBLE_DOT) with true.
    cbv iota.
    destruct rs as [|top rs'].
    - change (render []) with (@nil ascii). cbn -[Z.add].
      destruct allow; reflexivity.
    - inversion Hrs as [|? ? Ht Hrs']; subst.
      cbn [topLen]. rewrite (top_is_dotdot top rs' Ht Hrs').
      pose proof (render_nonempty (top :: rs') Hrs ltac:(discriminate)) as Hpos.
      destruct (eqb top DOUBLE_DOT) eqn:Etop; cbn [negb].
      + destruct allow; [|reflexivity].
        destruct (Z.gtb_spec (len (render (top :: rs'))) 0); [|lia].
        rewrite (render_cons DOUBLE_DOT (top :: rs')). reflexivity.
      + rewrite lastIndexOf_render by assumption.
        destruct (Z.gtb_spec (len (render (top :: rs'))) 2) as [G2|G2].
        * destruct rs' as [|y rs'']; [reflexivity|].
          pose proof (len_nonneg (render (y :: rs''))).
          destruct (Z.eqb_spec (len (render (y :: rs''))) (-1)); [lia|].
          rewrite render_cons. rewrite slice_prefix.
          rewrite topLen_render by assumption. reflexivity.
        * destruct (Z.gtb_spec (len (render (top :: rs'))) 0); [|lia].
          destruct rs' as [|y rs'']; [reflexivity|].
          exfalso. rewrite render_cons in G2. rewrite !len_app in G2.
          change (len SLASH) with 1%Z in G2.
          pose proof (len_pos_of_good top Ht).
          pose proof (render_nonempty (y :: rs'') Hrs' ltac:(discriminate)). lia. }
  assert (Hd1 : eqb cur DOT = false).
  { apply eqb_neq. intros ->. now apply E1. }
  assert (Hd2 : eqb cur DOUBLE_DOT = false).
  { apply eqb_neq. intros ->. now apply E2. }
  unfold pushSegment. rewrite Hemp, Hd1, Hd2. cbn [orb].
  replace (len front - 1 + 1)%Z with (len front) by lia.
  subst path. rewrite slice_middle.
  cbn [topLen]. f_equal.
  rewrite render_cons. destruct rs as [|y rs'']; [reflexivity|].
  pose proof (render_nonempty (y :: rs'') Hrs ltac:(discriminate)).
  destruct (Z.gtb_spec (len (render (y :: rs''))) 0); [reflexivity|lia].
Qed.

Lemma nsBody_other path allow index c st :
  c <> "/"%char ->
  nsBody path allow index c st =
    mkNState (res st) (lastSegmentLength st) (lastSlash st) (dotStep (dots st) c).
Proof.
  intro Hc. unfold nsBody, dotStep.
  apply Ascii.eqb_neq in Hc. rewrite Hc.
  destruct (Ascii.eqb c "." && negb (dots st =? -1)%Z); reflexivity.
Qed.

Definition normalizeSegments (allowAboveRoot : bool) (segs rs : list str) : list str :=
  fold_left (pushSegment allowAboveRoot) segs rs.

Lemma nsLoop_spec path allow :
  forall rest front cur rs st char,
    path = front ++ cur ++ rest ->
    lacks "/" cur ->
    Forall goodSeg rs ->
    res st = render rs ->
    lastSegmentLength st = topLen rs ->
    lastSlash st = (len front - 1)%Z ->
    dots st = dotsOf cur ->
    (char = Some "/"%char -> cur = []) ->
    nsLoop path allow rest (len front + len cur) char st =
      render (normalizeSegments allow (split "/" (cur ++ rest)) rs).
Proof.
  induction rest as [|c rest' IH]; intros front cur rs st char Hp Hcur Hrs Hres Hlsl Hls Hd Hch.
  - rewrite app_nil_r. rewrite split_lacks by assumption.
    cbn [nsLoop normalizeSegments fold_left].
    assert (B : res (nsBody path allow (len front + len cur) "/" st)
                = render (pushSegment allow rs cur)).
    { erewrite nsBody_slash by eassumption. reflexivity. }
    destruct char as [c|]; [|exact B].
    destruct (Ascii.eqb_spec c "/") as [->|Hc]; [|exact B].
    rewrite (Hch eq_refl). exact Hres.
  - cbn [nsLoop].
    destruct (Ascii.eqb_spec c "/") as [->|Hc].
    + erewrite nsBody_slash by eassumption.
      rewrite split_cons_lacks by assumption.
      cbn [normalizeSegments fold_left].
      replace (len front + len cur + 1)%Z
        with (len (front ++ cur ++ ["/"%char]) + len (@nil ascii))%Z
        by (rewrite !len_app; unfold len; simpl; lia).
      rewrite (IH (front ++ cur ++ ["/"%char]) [] (pushSegment allow rs cur)).
      * reflexivity.
      * rewrite Hp. rewrite <- !app_assoc. reflexivity.
      * constructor.
      * now apply goodSeg_push.
      * reflexivity.
      * reflexivity.
      * cbn [lastSlash]. rewrite !len_app. unfold len. simpl. lia.
      * reflexivity.
      * reflexivity.
    + rewrite nsBody_other by assumption.
      replace (len front + len cur + 1)%Z with (len front + len (cur ++ [c]))%Z
        by (rewrite len_app; unfold len; simpl; lia).
      replace (cur ++ c :: rest') with ((cur ++ [c]) ++ rest')
        by (rewrite <- app_assoc; reflexivity).
      apply IH.
      * rewrite Hp. rewrite <- !app_assoc. reflexivity.
      * apply Forall_app. split; [assumption|]. constructor; [assumption|constructor].
      * assumption.
      * exact Hres.
      * exact Hlsl.
      * exact Hls.
      * cbn [dots]. rewrite dotsOf_snoc. now rewrite Hd.
      * intro E. injection E as ->. contradiction.
Qed.

(** [normalizeString] splits the path at slashes and runs the segments
    through a stack. *)
Lemma normalizeString_segments path allow :
  normalizeString path allow =
    render (normalizeSegments allow (split "/" path) []).
Proof.
  unfold normalizeString.
  change 0%Z with (len (@nil ascii) + len (@nil ascii))%Z at 1.
  rewrite (nsLoop_spec path allow path [] [] []);
    try reflexivity; try constructor; discriminate.
Qed.

End PathKitFacts.

(** ** [resolve] and [relative] read as operations on segment stacks, and their round trip *)

Module ResolveFacts.
Import JsString JsStringFacts PathKit PathKitFacts.

Lemma split_app_sep ch a b :
  split ch (a ++ ch :: b) = split ch a ++ split ch b.
Proof.
  unfold split. induction a as [|d a IH]; cbn [app splitOn].
  - now rewrite Ascii.eqb_refl.
  - rewrite IH. destruct (Ascii.eqb ch d); [reflexivity|].
    destruct (splitOn (Ascii.eqb ch) a) eqn:E; [|reflexivity].
    exfalso. now apply (split_nonnil ch a).
Qed.

Lemma split_pieces_lack ch s : Forall (lacks ch) (split ch s).
Proof.
  unfold split. induction s as [|d s IH]; cbn [splitOn].
  - repeat constructor.
  - destruct (Ascii.eqb_spec ch d) as [E|E].
    + constructor; [constructor|assumption].
    + destruct (splitOn (Ascii.eqb ch) s) as [|h t]; [repeat constructor; congruence|].
      inversion IH; subst. constructor; [|assumption].
      constructor; [congruence|assumption].
Qed.

Lemma split_join (l : list str) :
  l <> [] -> Forall (lacks "/") l -> split "/" (JsString.join SLASH l) = l.
Proof.
  induction l as [|x l IH]; intros Hne H; [contradiction|].
  inversion H as [|? ? Hx Hl]; subst.
  destruct l as [|y l].
  - now apply split_lacks.
  - change (JsString.join SLASH (x :: y :: l))
      with (x ++ "/"%char :: JsString.join SLASH (y :: l)).
    rewrite split_cons_lacks by assumption.
    rewrite IH; [reflexivity|discriminate|assumption].
Qed.

(** Preservation of a property of segments by the stack discipline *)
Lemma pushSegment_Forall (Q : str -> Prop) allow rs cur :
  Q DOUBLE_DOT -> Forall Q rs -> Q cur -> Forall Q (pushSegment allow rs cur).
Proof.
  intros Hdd Hrs Hc. unfold pushSegment.
  destruct (isEmpty cur || eqb cur DOT); [assumption|].
  destruct (eqb cur DOUBLE_DOT).
  - destruct rs as [|top rs'].
    + destruct allow; repeat constructor; assumption.
    + destruct (eqb top DOUBLE_DOT).
      * destruct allow; [constructor|]; assumption.
      * now inversion Hrs.
  - now constructor.
Qed.

Lemma normalizeSegments_Forall (Q : str -> Prop) allow segs :
  Q DOUBLE_DOT -> Forall Q segs ->
  forall rs, Forall Q rs -> Forall Q (normalizeSegments allow segs rs).
Proof.
  intros Hdd Hs. induction Hs as [|x l Hx Hl IH]; intros rs Hrs; [assumption|].
  cbn [normalizeSegments fold_left]. apply IH. now apply pushSegment_Forall.
Qed.

(** With [allowAboveRoot = false] no dot segment ever enters the stack. *)
Definition plain (s : str) : Prop := s <> [] /\ s <> DOT /\ s <> DOUBLE_DOT.

Lemma pushSegment_plain rs cur :
  Forall plain rs -> Forall plain (pushSegment false rs cur).
Proof.
  intro Hrs. unfold pushSegment.
  destruct (isEmpty cur) eqn:E0; cbn [orb]; [assumption|].
  destruct (eqb cur DOT) eqn:E1; [assumption|].
  destruct (eqb cur DOUBLE_DOT) eqn:E2.
  - destruct rs as [|top rs']; [constructor|].
    destruct (eqb top DOUBLE_DOT); [assumption|]. now inversion Hrs.
  - constructor; [|assumption]. repeat split.
    + intros ->. discriminate.
    + now apply eqb_neq.
    + now apply eqb_neq.
Qed.

Lemma normalizeSegments_plain segs :
  forall rs, Forall plain rs -> Forall plain (normalizeSegments false segs rs).
Proof.
  induction segs as [|x l IH]; intros rs Hrs; [assumption|].
  cbn [normalizeSegments fold_left]. apply IH. now apply pushSegment_plain.
Qed.

Lemma normalizeSegments_app allow a b rs :
  normalizeSegments allow (a ++ b) rs =
    normalizeSegments allow b (normalizeSegments allow a rs).
Proof. unfold normalizeSegments. apply fold_left_app. Qed.

Lemma normalizeSegments_ups n :
  forall rs, Forall plain rs ->
    normalizeSegments false (repeat DOUBLE_DOT n) rs = skipn n rs.
Proof.
  induction n as [|n IH]; intros rs Hrs; [reflexivity|].
  cbn [repeat normalizeSegments fold_left].
  destruct rs as [|top rs'].
  - change (pushSegment false [] DOUBLE_DOT) with (@nil str).
    change (fold_left (pushSegment false) (repeat DOUBLE_DOT n) [])
      with (normalizeSegments false (repeat DOUBLE_DOT n) []).
    rewrite IH by constructor. now rewrite skipn_nil.
  - inversion Hrs as [|? ? [_ [_ Ht]] Hrs']; subst.
    apply eqb_neq in Ht.
    assert (E : pushSegment false (top :: rs') DOUBLE_DOT = rs').
    { unfold pushSegment. change (isEmpty DOUBLE_DOT || eqb DOUBLE_DOT DOT) with false.
      change (eqb DOUBLE_DOT DOUBLE_DOT) with true. cbv iota. now rewrite Ht. }
    rewrite E. now apply IH.
Qed.

Lemma normalizeSegments_downs allow l :
  Forall plain l ->
  forall rs, normalizeSegments allow l rs = rev l ++ rs.
Proof.
  induction 1 as [|x l [Hx [Hd Hdd]] Hl IH]; intro rs; [reflexivity|].
  cbn [normalizeSegments fold_left rev].
  assert (E : pushSegment allow rs x = x :: rs).
  { unfold pushSegment. apply eqb_neq in Hd, Hdd. rewrite Hd, Hdd.
    destruct x; [contradiction|reflexivity]. }
  rewrite E. change (fold_left (pushSegment allow) l (x :: rs))
    with (normalizeSegments allow l (x :: rs)).
  rewrite IH. now rewrite <- app_assoc.
Qed.

(** *** Backslashes never survive [normalizeWindowsPath] *)

Lemma replaceBackslashes_lacks s : lacks "\" (replaceBackslashes s).
Proof.
  unfold lacks, replaceBackslashes. induction s as [|c s IH]; cbn [map]; constructor.
  - destruct (Ascii.eqb_spec c "\"); [discriminate|assumption].
  - assumption.
Qed.

Lemma replaceBackslashes_id s : lacks "\" s -> replaceBackslashes s = s.
Proof.
  unfold replaceBackslashes. induction 1 as [|c s Hc Hs IH]; cbn [map]; [reflexivity|].
  apply Ascii.eqb_neq in Hc. now rewrite Hc, IH.
Qed.

Lemma toUpperChar_backslash c : toUpperChar c = "\"%char -> c = "\"%char.
Proof.
  destruct c as [[] [] [] [] [] [] [] []]; vm_compute; intro E;
    try discriminate E; reflexivity.
Qed.

Lemma normalizeWindowsPath_lacks s : lacks "\" (normalizeWindowsPath s).
Proof.
  unfold normalizeWindowsPath. destruct (isEmpty s) eqn:E.
  - destruct s; [constructor|discriminate].
  - pose proof (replaceBackslashes_lacks s) as H.
    destruct (replaceBackslashes s) as [|c1 [|c2 [|c3 r]]]; try assumption.
    destruct (DRIVE_LETTER_START_RE _); [|assumption].
    inversion H as [|? ? H1 Ha]; subst. inversion Ha as [|? ? H2 Hb]; subst.
    inversion Hb as [|? ? H3 Hc]; subst.
    repeat constructor; try assumption; intro E'; apply toUpperChar_backslash in E';
      contradiction.
Qed.

Lemma normalizeWindowsPath_id s :
  lacks "\" s -> DRIVE_LETTER_START_RE s = false -> normalizeWindowsPath s = s.
Proof.
  intros H D. unfold normalizeWindowsPath. destruct (isEmpty s); [reflexivity|].
  rewrite replaceBackslashes_id by assumption.
  destruct s as [|c1 [|c2 [|c3 r]]]; try reflexivity. now rewrite D.
Qed.

Lemma drive_start_is_absolute s :
  DRIVE_LETTER_START_RE s = true -> IS_ABSOLUTE_RE s = true.
Proof.
  destruct s as [|c1 [|c2 [|c3 r]]]; try discriminate.
  unfold DRIVE_LETTER_START_RE, IS_ABSOLUTE_RE, isSep. intro H.
  apply andb_true_iff in H as [H H3]. apply andb_true_iff in H as [H1 H2].
  rewrite H1, H2, H3. cbn [andb orb]. apply orb_true_r.
Qed.

(** *** The loop of [resolve] *)

Lemma resolveLoop_acc visit :
  forall acc,
    resolveLoop visit acc =
      (fst (resolveLoop visit []) ++ acc, snd (resolveLoop visit [])).
Proof.
  induction visit as [|p rest IH]; intro acc; cbn [resolveLoop]; [reflexivity|].
  destruct (len p =? 0)%Z; [apply IH|].
  destruct (IS_ABSOLUTE_RE (normalizeWindowsPath p)).
  - cbn [fst snd]. rewrite ?app_nil_r, <- ?app_assoc. reflexivity.
  - rewrite (IH (normalizeWindowsPath p ++ SLASH ++ acc)).
    rewrite (IH (normalizeWindowsPath p ++ SLASH ++ [])).
    cbn [fst snd]. rewrite ?app_nil_r, <- ?app_assoc. reflexivity.
Qed.

Lemma resolveLoop_last visit d :
  IS_ABSOLUTE_RE (normalizeWindowsPath d) = true ->
  forall acc, snd (resolveLoop (visit ++ [d]) acc) = true.
Proof.
  intro Hd. induction visit as [|p rest IH]; intro acc; cbn [app resolveLoop].
  - destruct (Z.eqb_spec (len d) 0) as [E|E].
    + apply len_zero in E. subst d. discriminate.
    + now rewrite Hd.
  - destruct (len p =? 0)%Z; [apply IH|].
    destruct (IS_ABSOLUTE_RE (normalizeWindowsPath p)); [reflexivity|apply IH].
Qed.

Lemma resolveLoop_shape visit :
  lacks "\" (fst (resolveLoop visit [])) /\
  (fst (resolveLoop visit []) = [] \/
   exists P', fst (resolveLoop visit []) = P' ++ SLASH).
Proof.
  induction visit as [|p rest [IH1 IH2]]; cbn [resolveLoop].
  - split; [constructor|now left].
  - destruct (len p =? 0)%Z; [now split|].
    pose proof (normalizeWindowsPath_lacks p) as Hp.
    assert (Hs : lacks "\" SLASH) by (repeat constructor; discriminate).
    destruct (IS_ABSOLUTE_RE (normalizeWindowsPath p)).
    + cbn [fst]. split.
      * apply Forall_app. split; [assumption|]. now rewrite app_nil_r.
      * right. exists (normalizeWindowsPath p). now rewrite app_nil_r.
    + rewrite resolveLoop_acc. cbn [fst]. rewrite app_nil_r. split.
      * apply Forall_app. split; [assumption|]. now apply Forall_app.
      * right. exists (fst (resolveLoop rest []) ++ normalizeWindowsPath p).
        now rewrite <- app_assoc.
Qed.

Definition post (s : str) : str := if IS_ABSOLUTE_RE s then s else SLASH ++ s.

Definition prefixOf (pc : option str) (x : str) : str :=
  fst (resolveLoop [x; cwd pc] []).

Definition stackOf (pc : option str) (x : str) : list str :=
  normalizeSegments false (split "/" (prefixOf pc x)) [].

Lemma resolve_one pc x :
  IS_ABSOLUTE_RE (normalizeWindowsPath (cwd pc)) = true ->
  resolve pc [x] = post (render (stackOf pc x)).
Proof.
  intro Hc. unfold resolve, stackOf, prefixOf, EMPTY. cbn [rev app list_ascii_of_string].
  pose proof (resolveLoop_last [x] (cwd pc) Hc []) as Hb. cbn [app] in Hb.
  destruct (resolveLoop [x; cwd pc] []) as [P b]. cbn [fst snd] in *. subst b.
  cbv beta iota zeta. cbn [negb]. rewrite normalizeString_segments. reflexivity.
Qed.

Lemma normalizeSegments_prefix P r :
  (P = [] \/ exists P', P = P' ++ SLASH) ->
  normalizeSegments false (split "/" (P ++ r ++ SLASH)) [] =
    normalizeSegments false (split "/" r)
      (normalizeSegments false (split "/" P) []).
Proof.
  assert (Ht : forall rs, normalizeSegments false (split "/" r ++ [[]]) rs
                          = normalizeSegments false (split "/" r) rs).
  { intro rs. now rewrite normalizeSegments_app. }
  intros [->|[P' ->]].
  - cbn [app]. change (r ++ SLASH) with (r ++ "/"%char :: []).
    rewrite split_app_sep. apply Ht.
  - rewrite <- app_assoc. change (SLASH ++ r ++ SLASH) with ("/"%char :: r ++ "/"%char :: []).
    change (P' ++ SLASH) with (P' ++ "/"%char :: []).
    rewrite !split_app_sep, !normalizeSegments_app. reflexivity.
Qed.

Lemma resolveLoop_cons p rest acc :
  resolveLoop (p :: rest) acc =
    if (len p =? 0)%Z then resolveLoop rest acc
    else if IS_ABSOLUTE_RE (normalizeWindowsPath p)
         then (normalizeWindowsPath p ++ SLASH ++ acc, true)
         else resolveLoop rest (normalizeWindowsPath p ++ SLASH ++ acc).
Proof. reflexivity. Qed.

Lemma resolve_two pc x r :
  IS_ABSOLUTE_RE (normalizeWindowsPath (cwd pc)) = true ->
  r <> [] -> normalizeWindowsPath r = r -> IS_ABSOLUTE_RE r = false ->
  resolve pc [x; r] =
    post (render (normalizeSegments false (split "/" r) (stackOf pc x))).
Proof.
  intros Hc Hne Hn Ha. unfold resolve, EMPTY.
  change (rev [x; r] ++ [cwd pc]) with (r :: [x; cwd pc]).
  rewrite resolveLoop_cons.
  destruct (Z.eqb_spec (len r) 0) as [E|_]; [apply len_zero in E; contradiction|].
  rewrite Hn, Ha. rewrite resolveLoop_acc.
  pose proof (resolveLoop_last [x] (cwd pc) Hc []) as Hb. cbn [app] in Hb.
  destruct (resolveLoop_shape [x; cwd pc]) as [_ Hshape].
  unfold stackOf, prefixOf.
  change (list ascii) with str in *. revert Hb Hshape.
  generalize (resolveLoop [x; cwd pc] []). intros [P b] Hb Hshape.
  cbn [fst snd] in *. subst b.
  cbv beta iota zeta. cbn [negb]. rewrite normalizeString_segments.
  cbn [list_ascii_of_string]. rewrite app_nil_r.
  now rewrite normalizeSegments_prefix.
Qed.

(** *** The segments of a resolved path *)

Lemma split_pieces_Forall (c ch : ascii) (s : str) :
  lacks c s -> Forall (lacks c) (split ch s).
Proof.
  unfold split. induction 1 as [|d s Hd Hs IH]; cbn [splitOn].
  - repeat constructor.
  - destruct (Ascii.eqb ch d).
    + constructor; [constructor|assumption].
    + destruct (splitOn (Ascii.eqb ch) s) as [|h t]; [repeat constructor; assumption|].
      inversion IH; subst. constructor; [|assumption]. now constructor.
Qed.

Lemma normalizeSegments_good allow segs :
  Forall (lacks "/") segs ->
  forall rs, Forall goodSeg rs -> Forall goodSeg (normalizeSegments allow segs rs).
Proof.
  induction 1 as [|x l Hx Hl IH]; intros rs Hrs; [assumption|].
  cbn [normalizeSegments fold_left]. apply IH. now apply goodSeg_push.
Qed.

Lemma stackOf_good pc (x : str) :
  Forall goodSeg (stackOf pc x) /\ Forall (lacks "\") (stackOf pc x)
  /\ Forall plain (stackOf pc x).
Proof.
  unfold stackOf. repeat split.
  - apply normalizeSegments_good; [apply split_pieces_lack|constructor].
  - apply normalizeSegments_Forall; [repeat constructor; discriminate| |constructor].
    apply split_pieces_Forall. unfold prefixOf. apply resolveLoop_shape.
  - apply normalizeSegments_plain. constructor.
Qed.

Lemma filterNonEmpty_good (l : list str) :
  Forall goodSeg l -> filterNonEmpty l = l.
Proof.
  unfold filterNonEmpty. induction 1 as [|x l [Hx _] Hl IH]; cbn [filter]; [reflexivity|].
  destruct x; [contradiction|]. cbn [isEmpty negb]. now rewrite IH.
Qed.

Lemma segments_render (rs : list str) :
  Forall goodSeg rs -> filterNonEmpty (split "/" (render rs)) = rev rs.
Proof.
  intro H. destruct rs as [|top rs'] eqn:E; [reflexivity|]. rewrite <- E in *.
  assert (Hr : Forall goodSeg (rev rs)) by now apply Forall_rev.
  unfold render. rewrite split_join.
  - now apply filterNonEmpty_good.
  - intro E'. apply (f_equal (@List.length _)) in E'. rewrite length_rev, E in E'.
    discriminate.
  - eapply Forall_impl; [|exact Hr]. now intros a [_ Ha].
Qed.

Lemma segments_slash (s : str) :
  filterNonEmpty (split "/" (replaceRootFolder ("/"%char :: s))) =
    filterNonEmpty (split "/" s).
Proof.
  destruct s as [|c1 [|c2 [|c3 s]]]; try reflexivity.
  unfold replaceRootFolder. change (Ascii.eqb "/" "/") with true. cbn [andb].
  destruct (isAsciiLetter c1 && Ascii.eqb c2 ":"); reflexivity.
Qed.

Lemma replaceRootFolder_id (c : ascii) (s : str) :
  c <> "/"%char -> replaceRootFolder (c :: s) = c :: s.
Proof.
  intro H. apply Ascii.eqb_neq in H. unfold replaceRootFolder.
  destruct s as [|c1 [|c2 [|c3 s]]]; try reflexivity; rewrite H; reflexivity.
Qed.

Lemma render_head (rs : list str) :
  Forall goodSeg rs -> Forall (lacks "\") rs ->
  match render rs with
  | [] => True
  | c :: _ => isSep c = false
  end.
Proof.
  intros Hg Hb. unfold render.
  apply Forall_rev in Hg. apply Forall_rev in Hb.
  destruct (rev rs) as [|y l]; [exact I|].
  inversion Hg as [|? ? [Hy Hs] _]; subst. inversion Hb as [|? ? Hy' _]; subst.
  destruct y as [|c y]; [contradiction|].
  assert (E : isSep c = false).
  { inversion Hs; subst. inversion Hy'; subst. unfold isSep.
    apply orb_false_iff. split; now apply Ascii.eqb_neq. }
  destruct l; exact E.
Qed.

Lemma isSep_slash (c : ascii) : isSep c = false -> c <> "/"%char.
Proof. intros H ->. discriminate. Qed.

Lemma segments_post (rs : list str) :
  Forall goodSeg rs -> Forall (lacks "\") rs ->
  filterNonEmpty (split "/" (replaceRootFolder (post (render rs)))) = rev rs.
Proof.
  intros Hg Hb. pose proof (render_head rs Hg Hb) as Hh.
  rewrite <- (segments_render rs Hg). unfold post.
  destruct (IS_ABSOLUTE_RE (render rs)) eqn:E.
  - destruct (render rs) as [|c s]; [discriminate|].
    rewrite replaceRootFolder_id by now apply isSep_slash. reflexivity.
  - apply segments_slash.
Qed.

Lemma post_absolute (rs : list str) :
  Forall goodSeg rs -> Forall (lacks "\") rs ->
  IS_ABSOLUTE_RE (post (render rs)) = true.
Proof.
  intros Hg Hb. pose proof (render_head rs Hg Hb) as Hh. unfold post.
  destruct (IS_ABSOLUTE_RE (render rs)) eqn:E; [assumption|].
  destruct (render rs) as [|c s]; [reflexivity|].
  change (SLASH ++ c :: s) with ("/"%char :: c :: s).
  unfold IS_ABSOLUTE_RE. rewrite Hh. reflexivity.
Qed.

(** *** Common leading segments *)

Lemma commonPrefixLength_le (a b : list str) :
  commonPrefixLength a b <= List.length a /\ commonPrefixLength a b <= List.length b.
Proof.
  revert b; induction a as [|x a IH]; intros [|y b]; cbn [commonPrefixLength List.length];
    try lia.
  destruct (eqb x y); [|lia]. specialize (IH b). lia.
Qed.

Lemma commonPrefixLength_firstn (a b : list str) :
  firstn (commonPrefixLength a b) a = firstn (commonPrefixLength a b) b.
Proof.
  revert b; induction a as [|x a IH]; intros [|y b]; cbn [commonPrefixLength];
    try reflexivity.
  destruct (eqb x y) eqn:E; [|reflexivity].
  apply eqb_eq in E. subst y. cbn [firstn]. now rewrite IH.
Qed.

Lemma join_is_render (l : list str) : JsString.join SLASH l = render (rev l).
Proof. unfold render. now rewrite rev_involutive. Qed.

Lemma join_lacks (c : ascii) (l : list str) :
  c <> "/"%char -> Forall (lacks c) l -> lacks c (JsString.join SLASH l).
Proof.
  intros Hc. induction 1 as [|x l Hx Hl IH]; [constructor|].
  destruct l as [|y l]; [exact Hx|].
  change (JsString.join SLASH (x :: y :: l))
    with (x ++ "/"%char :: JsString.join SLASH (y :: l)).
  apply Forall_app. split; [assumption|]. constructor; [congruence|assumption].
Qed.

Lemma Forall_skipn_of {A} (Q : A -> Prop) n (l : list A) :
  Forall Q l -> Forall Q (skipn n l).
Proof.
  intro H. rewrite <- (firstn_skipn n l) in H. now apply Forall_app in H.
Qed.

Lemma goodSeg_dotdot : goodSeg DOUBLE_DOT.
Proof. split; [discriminate|]. repeat constructor; discriminate. Qed.

Lemma Forall_repeat {A} (Q : A -> Prop) (a : A) n : Q a -> Forall Q (repeat a n).
Proof. intro H. induction n; cbn [repeat]; now constructor. Qed.

(** The round trip for a relative path that is not read as an absolute
    one *)
Lemma round_trip_of_relative_path (pc : option str) (from to : str) :
  IS_ABSOLUTE_RE (normalizeWindowsPath (cwd pc)) = true ->
  IS_ABSOLUTE_RE (relative pc from to) = false ->
  resolve pc [from; relative pc from to] = resolve pc [to].
Proof.
  intros Hc Hrel.
  destruct (stackOf_good pc from) as (Gf & Bf & Pf).
  destruct (stackOf_good pc to) as (Gt & Bt & Pt).
  remember (relative pc from to) as rel eqn:Erel.
  unfold relative in Erel.
  rewrite !resolve_one in Erel by assumption.
  rewrite (resolve_one pc to) by assumption.
  rewrite !segments_post in Erel by assumption.
  set (sf := stackOf pc from) in *. set (st := stackOf pc to) in *.
  destruct (eqb (post (render sf)) (post (render st))) eqn:EQ.
  { subst rel. change (resolve pc [from; EMPTY]) with (resolve pc [from]).
    rewrite resolve_one by assumption. now apply eqb_eq in EQ. }
  match type of Erel with
  | _ = (if ?d then _ else _) => destruct d eqn:DD
  end.
  { subst rel. rewrite post_absolute in Hrel by assumption. discriminate. }
  clear DD EQ.
  set (fs := rev sf) in *. set (ts := rev st) in *.
  set (c := commonPrefixLength fs ts) in *.
  set (ups := repeat DOUBLE_DOT (List.length fs - c)) in *.
  set (downs := skipn c ts) in *.
  pose proof (commonPrefixLength_le fs ts) as [Hcf Hct]. fold c in Hcf, Hct.
  pose proof (commonPrefixLength_firstn fs ts) as Hfirst. fold c in Hfirst.
  assert (Gts : Forall goodSeg ts) by now apply Forall_rev.
  assert (Bts : Forall (lacks "\") ts) by now apply Forall_rev.
  assert (Pts : Forall plain ts) by now apply Forall_rev.
  assert (Est : st = rev ts) by (unfold ts; now rewrite rev_involutive).
  assert (Esf : sf = rev fs) by (unfold fs; now rewrite rev_involutive).
  destruct (ups ++ downs) as [|l0 l'] eqn:El.
  - (* nothing to go up, nothing to go down: both stacks agree *)
    apply app_eq_nil in El as [Eu Ed].
    assert (Hfs : List.length fs <= c).
    { unfold ups in Eu. destruct (List.length fs - c) eqn:En; [lia|discriminate]. }
    assert (Hts : List.length ts <= c).
    { unfold downs in Ed. apply (f_equal (@List.length _)) in Ed.
      rewrite length_skipn in Ed. cbn in Ed. lia. }
    rewrite !firstn_all2 in Hfirst by assumption.
    cbn in Erel. subst rel.
    rewrite resolve_two; try assumption; try reflexivity; try discriminate.
    change (normalizeSegments false (split "/" DOT) (stackOf pc from))
      with (stackOf pc from).
    fold sf. now rewrite Esf, Est, Hfirst.
  - assert (Hne : ups ++ downs <> []) by (rewrite El; discriminate).
    rewrite <- El in Erel. clear El l0 l'.
    assert (Gl : Forall goodSeg (ups ++ downs)).
    { apply Forall_app. split.
      - apply Forall_repeat. exact goodSeg_dotdot.
      - now apply Forall_skipn_of. }
    assert (Bl : Forall (lacks "\") (ups ++ downs)).
    { apply Forall_app. split.
      - apply Forall_repeat. repeat constructor; discriminate.
      - now apply Forall_skipn_of. }
    assert (Hpos : (len (JsString.join SLASH (ups ++ downs)) > 0)%Z).
    { rewrite join_is_render. apply render_nonempty; [now apply Forall_rev|].
      intro E. apply Hne. rewrite <- (rev_involutive (ups ++ downs)), E. reflexivity. }
    destruct (Z.gtb_spec (len (JsString.join SLASH (ups ++ downs))) 0); [|lia].
    subst rel.
    rewrite resolve_two; try assumption.
    + rewrite split_join; [|assumption|].
      2:{ eapply Forall_impl; [|exact Gl]. now intros a [_ Ha]. }
      rewrite normalizeSegments_app. fold sf.
      unfold ups. rewrite normalizeSegments_ups by assumption.
      rewrite normalizeSegments_downs by now apply Forall_skipn_of.
      rewrite Esf at 1. rewrite skipn_rev.
      replace (List.length fs - (List.length fs - c)) with c by lia.
      rewrite Hfirst, <- rev_app_distr. unfold downs. rewrite firstn_skipn.
      now rewrite <- Est.
    + intro E. rewrite E in Hpos. cbn in Hpos. lia.
    + apply normalizeWindowsPath_id.
      * apply join_lacks; [discriminate|assumption].
      * destruct (DRIVE_LETTER_START_RE _) eqn:D; [|reflexivity].
        apply drive_start_is_absolute in D. congruence.
Qed.

(** An absolute argument ends the loop of [resolve]: what stands to its
    left, and the working directory, are not read. *)
Lemma resolve_absolute_last (pc pc' : option str) (args : list str) (r : str) :
  IS_ABSOLUTE_RE (normalizeWindowsPath r) = true ->
  resolve pc (args ++ [r]) = resolve pc' [r].
Proof.
  intro Ha. unfold resolve. rewrite rev_app_distr. cbn [rev app].
  rewrite !resolveLoop_cons.
  destruct (Z.eqb_spec (len r) 0) as [E|_].
  { apply len_zero in E. subst r. discriminate. }
  now rewrite Ha.
Qed.

Lemma relative_lacks_backslash (pc : option str) (from to : str) :
  IS_ABSOLUTE_RE (normalizeWindowsPath (cwd pc)) = true ->
  lacks "\" (relative pc from to).
Proof.
  intro Hc.
  destruct (stackOf_good pc from) as (Gf & Bf & Pf).
  destruct (stackOf_good pc to) as (Gt & Bt & Pt).
  assert (Bp : forall rs, Forall (lacks "\") rs -> lacks "\" (post (render rs))).
  { intros rs H. unfold post.
    assert (L : lacks "\" (render rs)).
    { unfold render. apply join_lacks; [discriminate|now apply Forall_rev]. }
    destruct (IS_ABSOLUTE_RE (render rs)); [exact L|].
    constructor; [discriminate|exact L]. }
  unfold relative. rewrite !resolve_one by assumption.
  rewrite !segments_post by assumption.
  destruct (eqb _ _); [constructor|].
  match goal with |- lacks _ (if ?d then _ else _) => destruct d end.
  { now apply Bp. }
  cbv zeta.
  match goal with |- lacks _ (if ?d then _ else _) => destruct d end.
  - apply join_lacks; [discriminate|]. apply Forall_app. split.
    + apply Forall_repeat. repeat constructor; discriminate.
    + apply Forall_skipn_of. now apply Forall_rev.
  - repeat constructor; discriminate.
Qed.

(** A resolved path resolves to itself, unless [normalizeWindowsPath]
    still changes it (a lower-case drive letter at its head). *)
Lemma resolve_of_resolved (pc : option str) (x : str) :
  IS_ABSOLUTE_RE (normalizeWindowsPath (cwd pc)) = true ->
  normalizeWindowsPath (resolve pc [x]) = resolve pc [x] ->
  resolve pc [resolve pc [x]] = resolve pc [x].
Proof.
  intros Hc Hn.
  destruct (stackOf_good pc x) as (G & B & P).
  rewrite (resolve_one pc x Hc) in *. set (st := stackOf pc x) in *.
  pose proof (post_absolute st G B) as Ha.
  unfold resolve, EMPTY. cbn [rev app list_ascii_of_string]. rewrite resolveLoop_cons.
  destruct (Z.eqb_spec (len (post (render st))) 0) as [E|_].
  { apply len_zero in E. rewrite E in Ha. discriminate. }
  rewrite Hn, Ha. cbv beta iota zeta. cbn [negb]. rewrite normalizeString_segments.
  assert (E : normalizeSegments false (split "/" (post (render st) ++ SLASH ++ [])) [] = st).
  { rewrite app_nil_r.
    assert (F : normalizeSegments false (split "/" (render st)) [] = st).
    { destruct st as [|top rest] eqn:Est; [reflexivity|]. rewrite <- Est in *.
      unfold render. rewrite split_join.
      - rewrite normalizeSegments_downs by now apply Forall_rev.
        now rewrite rev_involutive, app_nil_r.
      - intro E'. apply (f_equal (@List.length _)) in E'. rewrite length_rev, Est in E'.
        discriminate.
      - apply Forall_rev. eapply Forall_impl; [|exact G]. now intros a [_ La]. }
    unfold post. destruct (IS_ABSOLUTE_RE (render st)).
    - pose proof (normalizeSegments_prefix [] (render st) (or_introl eq_refl)) as N.
      cbn [app] in N. rewrite N. exact F.
    - pose proof (normalizeSegments_prefix SLASH (render st)
                    (or_intror (ex_intro _ [] eq_refl))) as N.
      rewrite <- app_assoc. rewrite N. exact F. }
  rewrite E. reflexivity.
Qed.

(** C8 (as amended): with a working directory that is an absolute path,
    [resolve(from, relative(from, to))] equals [resolve(to)] exactly when
    the path that [relative] returns is not itself an absolute path, or
    is one that resolves on its own to [resolve(to)].  The second case
    holds whenever [relative] returns [resolve(to)] as it stands (paths
    on different drives) and [normalizeWindowsPath] leaves that path
    unchanged. *)
Theorem resolve_relative_round_trip (pc : option str) (from to : str) :
  IS_ABSOLUTE_RE (normalizeWindowsPath (cwd pc)) = true ->
  (resolve pc [from; relative pc from to] = resolve pc [to]
   <-> IS_ABSOLUTE_RE (relative pc from to) = false
       \/ resolve pc [relative pc from to] = resolve pc [to])
  /\ (relative pc from to = resolve pc [to] ->
      normalizeWindowsPath (resolve pc [to]) = resolve pc [to] ->
      resolve pc [from; relative pc from to] = resolve pc [to]).
Proof.
  intro Hc.
  assert (Hn : IS_ABSOLUTE_RE (normalizeWindowsPath (relative pc from to))
               = IS_ABSOLUTE_RE (relative pc from to)).
  { pose proof (relative_lacks_backslash pc from to Hc) as L.
    destruct (DRIVE_LETTER_START_RE (relative pc from to)) eqn:D.
    - rewrite (drive_start_is_absolute _ D).
      apply drive_start_is_absolute.
      unfold normalizeWindowsPath. rewrite (replaceBackslashes_id _ L).
      destruct (relative pc from to) as [|c1 [|c2 [|c3 r]]]; try discriminate.
      cbn [isEmpty]. rewrite D.
      cbn [DRIVE_LETTER_START_RE] in D |- *.
      apply andb_true_iff in D as [D D3]. apply andb_true_iff in D as [D1 D2].
      apply Ascii.eqb_eq in D2, D3. subst c2 c3.
      destruct c1 as [[] [] [] [] [] [] [] []]; try discriminate; reflexivity.
    - now rewrite normalizeWindowsPath_id. }
  assert (A : IS_ABSOLUTE_RE (relative pc from to) = true ->
              resolve pc [from; relative pc from to] = resolve pc [relative pc from to]).
  { intro Ha. rewrite <- Hn in Ha.
    exact (resolve_absolute_last pc pc [from] (relative pc from to) Ha). }
  assert (RT : IS_ABSOLUTE_RE (relative pc from to) = false
               \/ resolve pc [relative pc from to] = resolve pc [to] ->
               resolve pc [from; relative pc from to] = resolve pc [to]).
  { destruct (IS_ABSOLUTE_RE (relative pc from to)) eqn:Ha.
    - intros [H|H]; [discriminate|]. now rewrite A.
    - intros _. now apply round_trip_of_relative_path. }
  split; [split; [|exact RT]|].
  - intro H. destruct (IS_ABSOLUTE_RE (relative pc from to)) eqn:Ha; [|now left].
    right. now rewrite <- A.
  - intros Er Hs. apply RT. right. rewrite Er. now apply resolve_of_resolved.
Qed.

Lemma resolve_relative_round_trip_witness :
  let pc : option str := Some ("/base/dir" : str) in
  relative pc "C:/a" "D:/b" = "D:/b"
  /\ resolve pc [("C:/a" : str); relative pc "C:/a" "D:/b"] = resolve pc [("D:/b" : str)]
  /\ resolve pc [("/data/orandea/test/aaa" : str);
                 relative pc "/data/orandea/test/aaa" "/data/orandea/impl/bbb"]
     = resolve pc [("/data/orandea/impl/bbb" : str)].
Proof.
  cbv zeta. split; [reflexivity|]. split.
  - destruct (resolve_relative_round_trip (Some ("/base/dir" : str)) "C:/a" "D:/b"
                eq_refl) as [_ H].
    apply H; reflexivity.
  - destruct (resolve_relative_round_trip (Some ("/base/dir" : str))
                "/data/orandea/test/aaa" "/data/orandea/impl/bbb" eq_refl) as [[_ H] _].
    apply H. left. reflexivity.
Defined.

(** C8 as stated fails: below ["/a"], the absolute path ["/a/C:/b"] has
    the relative path ["C:/b"], which [resolve] takes for an absolute
    path. *)
Lemma round_trip_fails_on_drive_like_segment :
  let pc : option str := Some ("/base/dir" : str) in
  isAbsolute "/a/C:/b" = true /\
  relative pc "/a" "/a/C:/b" = "C:/b" /\
  resolve pc [("/a" : str); relative pc "/a" "/a/C:/b"] = "C:/b" /\
  resolve pc [("/a/C:/b" : str)] = "/a/C:/b" /\
  resolve pc [("/a" : str); relative pc "/a" "/a/C:/b"] <> resolve pc [("/a/C:/b" : str)].
Proof. repeat split. discriminate. Qed.


(** Where the round trip holds although [relative] returns an absolute
    path, and where a lower-case drive letter breaks it. *)
Example round_trip_across_drives :
  let pc : option str := Some ("/base/dir" : str) in
  (relative pc "/" "/C:/b" = "C:/b"
   /\ resolve pc [("/" : str); relative pc "/" "/C:/b"] = resolve pc [("/C:/b" : str)])
  /\ (relative pc "/d:/a" "/c:/x" = "c:/x"
      /\ resolve pc [("/c:/x" : str)] = "c:/x"
      /\ resolve pc [("/d:/a" : str); relative pc "/d:/a" "/c:/x"] = "C:/x").
Proof. repeat split. Qed.

End ResolveFacts.

(** ** The path-type classifiers *)

Module ClassifierFacts.
Import JsString JsStringFacts Dler.

Lemma takeWhile_nonempty (p : ascii -> bool) (c : ascii) (s : str) :
  p c = true -> isEmpty (takeWhile p (c :: s)) = false.
Proof. intro H. cbn [takeWhile]. now rewrite H. Qed.

(** The package-name pattern matches every non-empty string that does not
    begin with a slash. *)
Lemma PACKAGE_NAME_RE_matches (c : ascii) (s : str) :
  c <> "/"%char -> PACKAGE_NAME_RE_exec (c :: s) <> None.
Proof.
  intro Hc. unfold PACKAGE_NAME_RE_exec.
  match goal with
  | |- match ?scoped with _ => _ end <> None => destruct scoped
  end; [discriminate|].
  rewrite takeWhile_nonempty; [discriminate|].
  unfold notSlash. apply Ascii.eqb_neq in Hc. now rewrite Hc.
Qed.

Lemma startsWith_char (p : str) (c : ascii) :
  startsWith p [c] = match p with d :: _ => Ascii.eqb c d | [] => false end.
Proof. destruct p as [|d p]; cbn [startsWith]; [reflexivity|]. apply andb_true_r. Qed.

(** [extractPackageName] answers [null] exactly for the empty string and
    for strings that begin with a dot or a slash. *)
Lemma extractPackageName_none (p : str) :
  extractPackageName (Some p) = None <->
  p = [] \/ startsWith p "." = true \/ startsWith p "/" = true.
Proof.
  unfold extractPackageName. destruct p as [|c s].
  - cbn. split; [now left|reflexivity].
  - cbn [isEmpty orb].
    change (startsWith (c :: s) ".") with (startsWith (c :: s) ["."%char]).
    change (startsWith (c :: s) "/") with (startsWith (c :: s) ["/"%char]).
    rewrite !startsWith_char.
    destruct (Ascii.eqb_spec "." c) as [E1|E1]; cbn [orb].
    + split; [now right; left|reflexivity].
    + destruct (Ascii.eqb_spec "/" c) as [E2|E2].
      * split; [now right; right|reflexivity].
      * split.
        -- intro H. exfalso. revert H. apply PACKAGE_NAME_RE_matches. congruence.
        -- intros [H|[H|H]]; discriminate.
Qed.

(** The decision list of [determineImportPathType], rule by rule. *)
Definition noAlias (p : str) : Prop :=
  startsWith p "@/" = false /\ startsWith p "~/" = false.
Definition noRelative (p : str) : Prop :=
  startsWith p "./" = false /\ startsWith p "../" = false.
Definition noAbsolute (p : str) : Prop :=
  startsWith p "/" = false /\ DRIVE_BACKSLASH_RE p = false.
Definition noUrl (p : str) : Prop :=
  startsWith p "http://" = false /\ startsWith p "https://" = false.

Inductive Classified (p : str) : PathTypeInfo -> Prop :=
| ClAlias (sym : str) :
    sym = "@/" \/ sym = "~/" ->
    startsWith p sym = true ->
    Classified p (mkPathTypeInfo Alias (Some sym))
| ClRelative (sym : str) :
    noAlias p ->
    sym = "./" \/ sym = "../" ->
    startsWith p sym = true ->
    Classified p (mkPathTypeInfo Relative (Some sym))
| ClAbsoluteRoot :
    noAlias p -> noRelative p ->
    startsWith p "/" = true ->
    Classified p (mkPathTypeInfo Absolute (Some ("/" : str)))
| ClAbsoluteDrive (letter : ascii) (rest : str) :
    noAlias p -> noRelative p ->
    isAsciiLetter letter = true ->
    p = letter :: ":"%char :: "\"%char :: rest ->
    Classified p (mkPathTypeInfo Absolute (Some [letter; ":"%char; "\"%char]))
| ClUrl (sym : str) :
    noAlias p -> noRelative p -> noAbsolute p ->
    sym = "http://" \/ sym = "https://" ->
    startsWith p sym = true ->
    Classified p (mkPathTypeInfo Bare (Some sym))
| ClModule :
    noAlias p -> noRelative p -> noAbsolute p -> noUrl p ->
    p <> [] -> startsWith p "." = false ->
    Classified p (mkPathTypeInfo Module_ None)
| ClBare :
    noAlias p -> noRelative p -> noAbsolute p -> noUrl p ->
    p = [] \/ startsWith p "." = true ->
    Classified p (mkPathTypeInfo Bare None).

Lemma determineImportPathType_classified (p : str) :
  Classified p (determineImportPathType p).
Proof.
  unfold determineImportPathType.
  destruct (startsWith p "@/") eqn:A1; [apply ClAlias; auto|].
  destruct (startsWith p "~/") eqn:A2; [apply ClAlias; auto|].
  assert (NA : noAlias p) by now split.
  destruct (startsWith p "./") eqn:R1; [apply ClRelative; auto|].
  destruct (startsWith p "../") eqn:R2; [apply ClRelative; auto|].
  assert (NR : noRelative p) by now split.
  destruct (startsWith p "/") eqn:B1; [now apply ClAbsoluteRoot|].
  destruct (DRIVE_BACKSLASH_RE p) eqn:B2.
  { destruct p as [|c1 [|c2 [|c3 rest]]]; try discriminate.
    unfold DRIVE_BACKSLASH_RE in B2.
    apply andb_true_iff in B2 as [B2 E3]. apply andb_true_iff in B2 as [L E2].
    apply Ascii.eqb_eq in E2, E3. subst c2 c3.
    change (slice (c1 :: ":"%char :: "\"%char :: rest) 0 3)
      with (slice ([c1; ":"%char; "\"%char] ++ rest) 0 (len [c1; ":"%char; "\"%char])).
    rewrite slice_prefix. now apply (ClAbsoluteDrive _ c1 rest). }
  assert (NB : noAbsolute p) by now split.
  destruct (startsWith p "http://") eqn:U1; [apply ClUrl; auto|].
  destruct (startsWith p "https://") eqn:U2; [apply ClUrl; auto|].
  assert (NU : noUrl p) by now split.
  destruct (extractPackageName (Some p)) eqn:E.
  - assert (H : ~ (p = [] \/ startsWith p "." = true \/ startsWith p "/" = true)).
    { intro H. apply extractPackageName_none in H. congruence. }
    apply ClModule; try assumption.
    + intro Hp. apply H. now left.
    + destruct (startsWith p ".") eqn:D; [|reflexivity]. exfalso. apply H. auto.
  - apply extractPackageName_none in E. apply ClBare; try assumption.
    destruct E as [E|[E|E]]; auto. congruence.
Qed.

(** The scanner's own classifier tests disjoint first characters, so the
    order of its tests does not matter. *)
Lemma getPathType_spec (p : str) :
  (Scanner.getPathType p = Scanner.PtRelative <-> startsWith p "." = true) /\
  (Scanner.getPathType p = Scanner.PtAbsolute <-> startsWith p "/" = true) /\
  (Scanner.getPathType p = Scanner.PtAlias <->
     startsWith p "@" = true \/ startsWith p "~" = true) /\
  (Scanner.getPathType p = Scanner.PtModule <->
     startsWith p "http://" = true \/ startsWith p "https://" = true) /\
  (Scanner.getPathType p = Scanner.PtBare <->
     startsWith p "." = false /\ startsWith p "/" = false /\
     startsWith p "@" = false /\ startsWith p "~" = false /\
     startsWith p "http://" = false /\ startsWith p "https://" = false).
Proof.
  unfold Scanner.getPathType.
  destruct p as [|c s]; [cbn; intuition discriminate|].
  change (startsWith (c :: s) ".") with (startsWith (c :: s) ["."%char]).
  change (startsWith (c :: s) "/") with (startsWith (c :: s) ["/"%char]).
  change (startsWith (c :: s) "@") with (startsWith (c :: s) ["@"%char]).
  change (startsWith (c :: s) "~") with (startsWith (c :: s) ["~"%char]).
  rewrite !startsWith_char.
  assert (Hh : forall t, startsWith (c :: s) ("h"%char :: t) = true -> c = "h"%char).
  { intros t H. cbn [startsWith] in H. apply andb_true_iff in H as [H _].
    apply Ascii.eqb_eq in H. now subst. }
  destruct (Ascii.eqb_spec "." c) as [<-|N1]; [cbn; intuition discriminate|].
  destruct (Ascii.eqb_spec "/" c) as [<-|N2]; [cbn; intuition discriminate|].
  destruct (Ascii.eqb_spec "@" c) as [<-|N3]; [cbn; intuition discriminate|].
  destruct (Ascii.eqb_spec "~" c) as [<-|N4]; [cbn; intuition discriminate|].
  cbn [orb].
  destruct (startsWith (c :: s) "http://") eqn:U1;
    destruct (startsWith (c :: s) "https://") eqn:U2; cbn [orb];
    intuition discriminate.
Qed.

(** C1 (as amended): the classifier takes the first matching rule, in
    this order: an ["@/"] or ["~/"] prefix gives alias with that prefix as
    symbol; ["./"] or ["../"] gives relative; ["/"] or a drive letter
    followed by a colon and a backslash gives absolute; ["http://"] or
    ["https://"] gives bare with the scheme as symbol; after that, every
    non-empty path that does not begin with a dot is module with no symbol
    (no library registry is consulted), and the remaining paths are bare
    with no symbol.  The scanner's helper classifies by first character
    only: [.] relative, [/] absolute, [@] or [~] alias, an http(s) URL
    module, everything else bare. *)
Theorem classifier_first_match (p : str) :
  Classified p (determineImportPathType p) /\
  (Scanner.getPathType p = Scanner.PtModule <->
     startsWith p "http://" = true \/ startsWith p "https://" = true) /\
  (Scanner.getPathType p = Scanner.PtBare <->
     startsWith p "." = false /\ startsWith p "/" = false /\
     startsWith p "@" = false /\ startsWith p "~" = false /\
     startsWith p "http://" = false /\ startsWith p "https://" = false).
Proof.
  split; [apply determineImportPathType_classified|].
  pose proof (getPathType_spec p) as (_ & _ & _ & H4 & H5). now split.
Qed.

(** C1 as stated fails: an https URL is classified bare (with the scheme
    as symbol), not module, and a package name is classified module
    although no registry lists it. *)
Lemma classifier_url_is_bare :
  determineImportPathType "https://esm.sh/react"
    = mkPathTypeInfo Bare (Some ("https://" : str)) /\
  pti_type (determineImportPathType "https://esm.sh/react") <> Module_ /\
  determineImportPathType "react" = mkPathTypeInfo Module_ None.
Proof. repeat split. discriminate. Qed.

End ClassifierFacts.

(** ** The conversion table and the run configuration *)

Module ConverterFacts.
Import JsString JsStringFacts Dler.
Import PathKitJs (Completion, Normal, Throw, JsError, Error, TypeError).

Lemma conversionMapping_same (np : NodePath) (CWD : str) (t : ImportType) :
  conversionMapping np CWD t t = None.
Proof. destruct t; reflexivity. Qed.

(** C2 (as amended): when [fromType] equals [toType] the conversion is the
    identity on the path, for every type and every context, alias to
    alias under any [baseDir] included: the table has no entry for a
    same-type pair, so nothing is re-anchored. *)
Theorem same_type_conversion_is_identity
        (np : NodePath) (CWD : str) (t : ImportType) (importPath : str)
        (options : SingleOptions) :
  convertSingleImportPath np CWD t t importPath options = importPath.
Proof.
  unfold convertSingleImportPath. now rewrite conversionMapping_same.
Qed.

Definition aliasContext (baseDir : str) : SingleOptions :=
  mkSingleOptions (Some ("~/" : str)) baseDir None [] "/new/base/app/main.ts" []
                  ["src/" : str].

(** C2 as stated fails: an alias path converted to alias under a base
    directory other than the one it was written for comes back unchanged;
    it is not resolved against the new base. *)
Lemma alias_to_alias_is_not_reanchored :
  so_baseDir (aliasContext "/old/base") <> so_baseDir (aliasContext "/new/base") /\
  convertSingleImportPath (pathkitAsNodePath (Some ("/new/base" : str))) "/new/base"
    Alias Alias "~/lib/foo" (aliasContext "/new/base") = "~/lib/foo".
Proof. split; [discriminate|reflexivity]. Qed.

(** C3: a run whose [fromType] or [toType] is alias and that has no
    [aliasPrefix] throws a configuration error before any file-system
    operation: its trace is empty, so no file is read or written. *)
Theorem alias_run_without_prefix_fails_first
        (np : NodePath) (CWD : str) (stat : str -> StatOutcome)
        (walk : str -> list str -> FileProcessor -> Z -> list FsOp * list FileResult)
        (options : ConvertImportPathsOptions) :
  ro_fromType options = Alias \/ ro_toType options = Alias ->
  truthyStr (ro_aliasPrefix options) = None ->
  let run := convertImportPaths np CWD stat walk options in
  trace run = [] /\
  (outcome run = Throw (Error "aliasPrefix is required for alias path conversions") \/
   outcome run = Throw (Error "`baseDir` option is required.")).
Proof.
  intros Ht Hp. unfold convertImportPaths.
  destruct (truthyStr (ro_baseDir options)); [|split; [reflexivity|now right]].
  rewrite Hp.
  assert (E : importType_eqb (ro_fromType options) Alias
              || importType_eqb (ro_toType options) Alias = true).
  { destruct Ht as [-> | ->]; [reflexivity|]. apply orb_true_r. }
  rewrite E. cbn. split; [reflexivity|now left].
Qed.

Definition readingWalk (d : str) (exts : list str) (fp : FileProcessor) (c : Z)
  : list FsOp * list FileResult :=
  ([OpReaddir d; OpReadFile (d ++ "/a.ts")], [mkFileResult (d ++ "/a.ts") "Processed a.ts" true]).

Definition aliasRunWithoutPrefix : ConvertImportPathsOptions :=
  mkRunOptions (Some ("src" : str)) Alias Relative [] None None None None None None None.

Lemma alias_run_without_prefix_witness :
  let run := convertImportPaths (pathkitAsNodePath (Some ("/work" : str))) "/work"
               (fun _ => IsDirectory) readingWalk aliasRunWithoutPrefix in
  trace run = [] /\
  (outcome run = Throw (Error "aliasPrefix is required for alias path conversions") \/
   outcome run = Throw (Error "`baseDir` option is required.")).
Proof.
  apply (alias_run_without_prefix_fails_first
           (pathkitAsNodePath (Some ("/work" : str))) "/work"
           (fun _ => IsDirectory) readingWalk aliasRunWithoutPrefix).
  - left. reflexivity.
  - reflexivity.
Defined.

End ConverterFacts.

(** ** Non-string arguments *)

Module TypeGuardFacts.
Import JsString PathKitJs.


(** On strings the guarded functions are the string functions. *)
Lemma joinLoop_strings (l : list str) (joined : str) :
  joinLoop (map VString l) joined = Normal (PathKit.joinLoop l joined).
Proof.
  revert joined; induction l as [|x l IH]; intro joined; cbn [map joinLoop PathKit.joinLoop];
    [reflexivity|apply IH].
Qed.

Lemma join_strings (l : list str) :
  join (map VString l) = Normal (PathKit.join l).
Proof.
  unfold join, PathKit.join. destruct l as [|x l]; [reflexivity|].
  change (VString x :: map VString l) with (map VString (x :: l)).
  cbn [map]. change (VString x :: map VString l) with (map VString (x :: l)).
  now rewrite joinLoop_strings.
Qed.












End TypeGuardFacts.

(** ** [normalize] applied twice *)

Module NormalizeFacts.
Import JsString JsStringFacts PathKit PathKitFacts ResolveFacts.

(** *** Stacks in normal form *)

(** Segments that [normalizeString] passes over *)
Definition skipped (x : str) : Prop := x = [] \/ x = DOT.

Lemma pushSegment_skipped allow rs x : skipped x -> pushSegment allow rs x = rs.
Proof. intros [-> | ->]; reflexivity. Qed.

Lemma normalizeSegments_skipped allow l :
  Forall skipped l -> forall rs, normalizeSegments allow l rs = rs.
Proof.
  induction 1 as [|x l Hx Hl IH]; intro rs; cbn [normalizeSegments fold_left]; [reflexivity|].
  rewrite pushSegment_skipped by assumption. apply IH.
Qed.

(** The stacks that [normalizeString] builds: plain segments on top of
    [k] segments [..], and no [..] unless the path may rise above its root. *)
Definition normalForm (allow : bool) (l : list str) (k : nat) : Prop :=
  Forall plain l /\ (allow = false -> k = 0%nat).

Lemma plain_eqb (x : str) :
  plain x -> (isEmpty x || eqb x DOT) = false /\ eqb x DOUBLE_DOT = false.
Proof.
  intros (H1 & H2 & H3). split.
  - apply orb_false_iff. split; [destruct x; [contradiction|reflexivity]|now apply eqb_neq].
  - now apply eqb_neq.
Qed.

Lemma pushSegment_normalForm allow l k x :
  normalForm allow l k ->
  exists l' k', pushSegment allow (l ++ repeat DOUBLE_DOT k) x = l' ++ repeat DOUBLE_DOT k'
                /\ normalForm allow l' k'.
Proof.
  intros [Hl Hk]. unfold pushSegment.
  destruct (isEmpty x || eqb x DOT) eqn:E1; [exists l, k; now repeat split|].
  destruct (eqb x DOUBLE_DOT) eqn:E2.
  - destruct l as [|top l'].
    + destruct k as [|k']; cbn [app repeat].
      * destruct allow; [exists [], 1%nat|exists [], 0%nat]; repeat split;
          try constructor; try discriminate; reflexivity.
      * rewrite eqb_refl. destruct allow.
        -- exists [], (S (S k')). repeat split; [constructor|discriminate].
        -- exists [], (S k'). repeat split; [constructor|exact Hk].
    + inversion Hl as [|? ? Ht Hl']; subst. cbn [app].
      destruct (plain_eqb top Ht) as [_ ->].
      exists l', k. now repeat split.
  - exists (x :: l), k. repeat split; [|exact Hk].
    constructor; [|exact Hl].
    apply orb_false_iff in E1. destruct E1 as [E1 E3].
    repeat split.
    + intros ->. discriminate.
    + now apply eqb_neq.
    + now apply eqb_neq.
Qed.

Lemma normalizeSegments_normalForm allow segs :
  forall l k, normalForm allow l k ->
    exists l' k', normalizeSegments allow segs (l ++ repeat DOUBLE_DOT k)
                  = l' ++ repeat DOUBLE_DOT k'
                  /\ normalForm allow l' k'.
Proof.
  induction segs as [|x segs IH]; intros l k H; cbn [normalizeSegments fold_left].
  - now exists l, k.
  - destruct (pushSegment_normalForm allow l k x H) as (l1 & k1 & -> & H1).
    apply IH, H1.
Qed.

Lemma normalizeSegments_ups_kept k :
  forall j, normalizeSegments true (repeat DOUBLE_DOT k) (repeat DOUBLE_DOT j)
            = repeat DOUBLE_DOT (k + j).
Proof.
  induction k as [|k IH]; intro j; cbn [repeat normalizeSegments fold_left]; [reflexivity|].
  change (fold_left (pushSegment true) (repeat DOUBLE_DOT k) ?x)
    with (normalizeSegments true (repeat DOUBLE_DOT k) x).
  replace (pushSegment true (repeat DOUBLE_DOT j) DOUBLE_DOT) with (repeat DOUBLE_DOT (S j)).
  - rewrite IH. f_equal. lia.
  - destruct j; reflexivity.
Qed.

(** A stack in normal form read back as segments gives the same stack. *)
Lemma renormalize allow' pre post l k :
  Forall skipped pre -> Forall skipped post -> Forall plain l ->
  (k = 0%nat \/ allow' = true) ->
  normalizeSegments allow' (pre ++ rev (l ++ repeat DOUBLE_DOT k) ++ post) []
  = l ++ repeat DOUBLE_DOT k.
Proof.
  intros Hpre Hpost Hl Hk.
  rewrite !normalizeSegments_app.
  rewrite (normalizeSegments_skipped allow' pre Hpre).
  rewrite (normalizeSegments_skipped allow' post Hpost).
  rewrite rev_app_distr, rev_repeat, normalizeSegments_app.
  assert (E : normalizeSegments allow' (repeat DOUBLE_DOT k) [] = repeat DOUBLE_DOT k).
  { destruct Hk as [-> | ->]; [reflexivity|].
    change (@nil str) with (repeat DOUBLE_DOT 0).
    rewrite (normalizeSegments_ups_kept k 0). f_equal. lia. }
  rewrite E, normalizeSegments_downs by now apply Forall_rev.
  now rewrite rev_involutive.
Qed.

(** *** [normalize] by cases on the stack of its argument *)

Definition stackOfPath (p : str) : list str :=
  normalizeSegments (negb (IS_ABSOLUTE_RE (normalizeWindowsPath p)))
                    (split "/" (normalizeWindowsPath p)) [].

(** The text of a stack with the slash that [normalize] appends after a
    trailing separator or a lone drive letter *)
Definition tailed (trail : bool) (s : str) : str :=
  s ++ (if trail || DRIVE_LETTER_RE s then SLASH else []).

Lemma stackOfPath_good p :
  Forall goodSeg (stackOfPath p) /\ Forall (lacks "\") (stackOfPath p).
Proof.
  unfold stackOfPath. split.
  - apply normalizeSegments_good; [apply split_pieces_lack|constructor].
  - apply normalizeSegments_Forall.
    + repeat constructor; discriminate.
    + apply split_pieces_Forall, normalizeWindowsPath_lacks.
    + constructor.
Qed.

Lemma endsWith_slash_app (a x : str) :
  x <> [] -> lacks "/" x -> endsWith (a ++ x) SLASH = false.
Proof.
  intros Hx Hl. unfold endsWith. rewrite rev_app_distr.
  apply Forall_rev in Hl.
  destruct (rev x) as [|c r] eqn:E.
  - apply (f_equal (@rev ascii)) in E. rewrite rev_involutive in E. contradiction.
  - inversion Hl; subst. change (rev SLASH) with ["/"%char].
    cbn [app startsWith].
    destruct (Ascii.eqb_spec "/" c); [congruence|reflexivity].
Qed.

Lemma render_endsWith x rs :
  goodSeg x -> endsWith (render (x :: rs)) SLASH = false.
Proof.
  intros [Hx Hl]. rewrite render_cons. destruct rs.
  - now apply (endsWith_slash_app []).
  - rewrite app_assoc. now apply endsWith_slash_app.
Qed.

Lemma DRIVE_LETTER_RE_slash (s : str) : DRIVE_LETTER_RE (s ++ SLASH) = false.
Proof.
  destruct s as [|a [|b [|c s]]]; try reflexivity.
  change (DRIVE_LETTER_RE ([a] ++ SLASH)) with (isAsciiLetter a && false).
  apply andb_false_r.
Qed.

Lemma isSep_forward (c : ascii) : c <> "\"%char -> isSep c = true -> c = "/"%char.
Proof.
  intros Hc H. unfold isSep in H. apply orb_true_iff in H.
  destruct H as [H|H]; apply Ascii.eqb_eq in H; congruence.
Qed.

Lemma normalize_spec (p : str) :
  p <> [] ->
  normalize p =
    let w := normalizeWindowsPath p in
    let abs := IS_ABSOLUTE_RE w in
    let trail := endsWith w SLASH in
    match stackOfPath p with
    | [] => if abs then SLASH else if trail && negb (eqb p DOT) then "./" : str else DOT
    | _ :: _ =>
        let s2 := tailed trail (render (stackOfPath p)) in
        let o := replaceBackslashes p in
        if UNC_REGEX o then
          if startsWith o "//./" then "//./" ++ s2 else "//" ++ s2
        else if abs && negb (IS_ABSOLUTE_RE s2) then SLASH ++ s2 else s2
    end.
Proof.
  intro Hp. unfold normalize.
  destruct (Z.eqb_spec (len p) 0) as [E|_]; [apply len_zero in E; contradiction|].
  rewrite normalizeString_segments. fold (stackOfPath p).
  destruct (stackOfPath_good p) as [Hg Hb].
  destruct (stackOfPath p) as [|x rs] eqn:Est.
  - cbn [render rev JsString.join len List.length Z.of_nat Z.eqb].
    assert (L : (len p >? 0)%Z = true).
    { destruct p; [contradiction|]. unfold len. cbn [List.length].
      apply Z.gtb_lt. lia. }
    now rewrite L, andb_true_r.
  - cbv zeta.
    assert (Hne : (len (render (x :: rs)) =? 0)%Z = false).
    { apply Z.eqb_neq. pose proof (render_nonempty (x :: rs) Hg). 
      assert (x :: rs <> []) by discriminate. intuition lia. }
    rewrite Hne.
    inversion Hg as [|? ? Hx Hrs]; subst.
    rewrite (render_endsWith x rs Hx), andb_true_r.
    set (s := render (x :: rs)).
    set (trail := endsWith (normalizeWindowsPath p) SLASH).
    match goal with
    | |- context [if DRIVE_LETTER_RE ?a && ?b then ?c else ?d] =>
        replace (if DRIVE_LETTER_RE a && b then c else d) with (tailed trail s)
    end.
    2:{ unfold tailed. destruct trail; cbn [orb].
        - now rewrite DRIVE_LETTER_RE_slash.
        - destruct (DRIVE_LETTER_RE s) eqn:Ed; cbn [andb]; [|now rewrite app_nil_r].
          destruct s as [|a [|b [|c s']]]; try discriminate. reflexivity. }
    assert (Hh : match tailed trail s with [] => False | c :: _ => isSep c = false end).
    { pose proof (render_head (x :: rs) Hg Hb) as H. fold s in H.
      assert (s <> []).
      { intro E. apply (f_equal len) in E. fold s in Hne.
        rewrite E in Hne. discriminate. }
      unfold tailed. destruct s; [contradiction|exact H]. }
    destruct (tailed trail s) as [|c s2] eqn:E3; [contradiction|].
    assert (Hc : c <> "/"%char) by now apply isSep_slash.
    assert (D : startsWith (c :: s2) SLASH = false).
    { change SLASH with ["/"%char]. cbn [startsWith].
      destruct (Ascii.eqb_spec "/" c); [congruence|reflexivity]. }
    rewrite D.
    assert (N : eqb (c :: s2) SLASH = false).
    { change SLASH with ["/"%char]. cbn [eqb].
      destruct (Ascii.eqb_spec c "/"); [congruence|reflexivity]. }
    rewrite N, andb_true_r.
    destruct (UNC_REGEX (replaceBackslashes p)) eqn:U; cbn [andb]; [|reflexivity].
    destruct (startsWith (replaceBackslashes p) "//./") eqn:V; [reflexivity|].
    cbn [negb]. rewrite andb_true_r.
    assert (W : startsWith (replaceBackslashes p) "//" = true).
    { pose proof (replaceBackslashes_lacks p) as L.
      destruct (replaceBackslashes p) as [|a [|b r]]; try discriminate.
      inversion L as [|? ? La L']; subst. inversion L' as [|? ? Lb _]; subst.
      change (isSep a && isSep b = true) in U. apply andb_true_iff in U.
      destruct U as [Ua Ub].
      apply isSep_forward in Ua; [|exact La]. apply isSep_forward in Ub; [|exact Lb].
      subst. reflexivity. }
    now rewrite W.
Qed.

(** *** [normalize] on the text of a stack in normal form *)

Lemma split_render (st : list str) :
  st <> [] -> Forall goodSeg st -> split "/" (render st) = rev st.
Proof.
  intros Hne Hg. unfold render. apply split_join.
  - intro E. apply (f_equal (@rev str)) in E. rewrite rev_involutive in E.
    contradiction.
  - apply Forall_rev. eapply Forall_impl; [|exact Hg]. now intros a [_ Ha].
Qed.

Lemma split_tailed (t : bool) (st : list str) :
  st <> [] -> Forall goodSeg st ->
  exists post, Forall skipped post
               /\ split "/" (tailed t (render st)) = rev st ++ post.
Proof.
  intros Hne Hg. unfold tailed.
  destruct (t || DRIVE_LETTER_RE (render st)).
  - exists [[]]. split; [repeat constructor|].
    change (render st ++ SLASH) with (render st ++ "/"%char :: []).
    rewrite split_app_sep, split_render by assumption. reflexivity.
  - exists []. split; [constructor|].
    now rewrite !app_nil_r, split_render.
Qed.

Lemma endsWith_tailed (pre : str) (t : bool) (st : list str) :
  st <> [] -> Forall goodSeg st ->
  endsWith (pre ++ tailed t (render st)) SLASH = t || DRIVE_LETTER_RE (render st).
Proof.
  intros Hne Hg. unfold tailed.
  destruct (t || DRIVE_LETTER_RE (render st)).
  - rewrite app_assoc. apply endsWith_app.
  - rewrite app_nil_r. destruct st as [|x rs]; [contradiction|].
    inversion Hg as [|? ? [Hx Hl] _]; subst.
    rewrite render_cons. destruct rs.
    + now apply endsWith_slash_app.
    + rewrite !app_assoc. now apply endsWith_slash_app.
Qed.

Lemma tailed_tailed (t : bool) (s : str) :
  tailed (t || DRIVE_LETTER_RE s) s = tailed t s.
Proof. unfold tailed. now destruct t, (DRIVE_LETTER_RE s). Qed.

Lemma lacks_app (c : ascii) (a b : str) : lacks c a -> lacks c b -> lacks c (a ++ b).
Proof. intros Ha Hb. apply Forall_app. now split. Qed.

Lemma render_lacks (c : ascii) (st : list str) :
  c <> "/"%char -> Forall (lacks c) st -> lacks c (render st).
Proof. intros Hc H. unfold render. apply join_lacks; [exact Hc|now apply Forall_rev]. Qed.

Lemma tailed_lacks (t : bool) (st : list str) :
  Forall (lacks "\") st -> lacks "\" (tailed t (render st)).
Proof.
  intro H. unfold tailed. apply lacks_app.
  - apply render_lacks; [discriminate|exact H].
  - destruct (t || _); repeat constructor. discriminate.
Qed.

Lemma tailed_head (t : bool) (st : list str) :
  st <> [] -> Forall goodSeg st -> Forall (lacks "\") st ->
  exists c r, tailed t (render st) = c :: r /\ isSep c = false.
Proof.
  intros Hne Hg Hb. pose proof (render_head st Hg Hb) as H.
  pose proof (render_nonempty st Hg Hne) as Hl.
  unfold tailed. destruct (render st) as [|c r].
  - cbn in Hl. lia.
  - exists c, (r ++ (if t || DRIVE_LETTER_RE (c :: r) then SLASH else [])).
    now split.
Qed.

Lemma normalize_again (pre : str) (pre_segs l : list str) (k : nat) (t : bool) :
  l ++ repeat DOUBLE_DOT k <> [] ->
  Forall goodSeg (l ++ repeat DOUBLE_DOT k) ->
  Forall (lacks "\") (l ++ repeat DOUBLE_DOT k) ->
  Forall plain l ->
  lacks "\" pre ->
  Forall skipped pre_segs ->
  split "/" (pre ++ tailed t (render (l ++ repeat DOUBLE_DOT k)))
  = pre_segs ++ split "/" (tailed t (render (l ++ repeat DOUBLE_DOT k))) ->
  normalizeWindowsPath (pre ++ tailed t (render (l ++ repeat DOUBLE_DOT k)))
  = pre ++ tailed t (render (l ++ repeat DOUBLE_DOT k)) ->
  (k = 0%nat
   \/ IS_ABSOLUTE_RE (pre ++ tailed t (render (l ++ repeat DOUBLE_DOT k))) = false) ->
  normalize (pre ++ tailed t (render (l ++ repeat DOUBLE_DOT k))) =
    if UNC_REGEX (pre ++ tailed t (render (l ++ repeat DOUBLE_DOT k))) then
      if startsWith (pre ++ tailed t (render (l ++ repeat DOUBLE_DOT k))) "//./"
      then "//./" ++ tailed t (render (l ++ repeat DOUBLE_DOT k))
      else "//" ++ tailed t (render (l ++ repeat DOUBLE_DOT k))
    else if IS_ABSOLUTE_RE (pre ++ tailed t (render (l ++ repeat DOUBLE_DOT k)))
            && negb (IS_ABSOLUTE_RE (tailed t (render (l ++ repeat DOUBLE_DOT k))))
         then SLASH ++ tailed t (render (l ++ repeat DOUBLE_DOT k))
         else tailed t (render (l ++ repeat DOUBLE_DOT k)).
Proof.
  set (st := l ++ repeat DOUBLE_DOT k).
  set (s2 := tailed t (render st)).
  set (n := pre ++ s2).
  intros Hne Hg Hb Hl Hpre Hsegs Hsplit Hw Hk.
  destruct (tailed_head t st Hne Hg Hb) as (c & r & Es2 & Hc).
  assert (Hn : n <> []).
  { unfold n, s2. rewrite Es2. now destruct pre. }
  rewrite (normalize_spec n Hn). cbv zeta.
  assert (Est : stackOfPath n = st).
  { unfold stackOfPath. rewrite Hw, Hsplit. unfold s2.
    destruct (split_tailed t st Hne Hg) as (post & Hpost & ->).
    apply renormalize; try assumption.
    destruct Hk as [Hk|Hk]; [now left|right; now rewrite Hk]. }
  rewrite Est, Hw.
  assert (Eo : replaceBackslashes n = n).
  { apply replaceBackslashes_id. apply lacks_app; [exact Hpre|]. now apply tailed_lacks. }
  rewrite Eo.
  assert (Et : endsWith n SLASH = t || DRIVE_LETTER_RE (render st))
    by apply (endsWith_tailed pre t st Hne Hg).
  rewrite Et, tailed_tailed. fold s2.
  destruct st; [contradiction|reflexivity].
Qed.

Lemma tailed_first (t : bool) (st : list str) (y : str) (m : list str) :
  rev st = y :: m ->
  exists rest, (rest = [] \/ exists r, rest = "/"%char :: r)
               /\ tailed t (render st) = y ++ rest.
Proof.
  intro E. unfold tailed, render. rewrite E.
  destruct m as [|z m]; cbn [JsString.join].
  - exists (if t || DRIVE_LETTER_RE y then SLASH else []). split; [|reflexivity].
    destruct (t || _); [right; now exists []|now left].
  - exists (SLASH ++ JsString.join SLASH (z :: m)
              ++ (if t || DRIVE_LETTER_RE (y ++ SLASH ++ JsString.join SLASH (z :: m))
                  then SLASH else [])).
    split; [right; eexists; reflexivity|].
    now rewrite <- !app_assoc.
Qed.

Lemma tailed_ups (t : bool) (l : list str) (k : nat) :
  exists r, tailed t (render (l ++ repeat DOUBLE_DOT (S k))) = "."%char :: "."%char :: r.
Proof.
  destruct (tailed_first t (l ++ repeat DOUBLE_DOT (S k)) DOUBLE_DOT
              (repeat DOUBLE_DOT k ++ rev l)) as (rest & _ & ->).
  - now rewrite rev_app_distr, rev_repeat.
  - now exists rest.
Qed.

Lemma tailed_not_dot_slash (t : bool) (l : list str) (k : nat) :
  l ++ repeat DOUBLE_DOT k <> [] ->
  Forall goodSeg (l ++ repeat DOUBLE_DOT k) -> Forall plain l ->
  startsWith (tailed t (render (l ++ repeat DOUBLE_DOT k))) "./" = false.
Proof.
  intros Hne Hg Hl. destruct k as [|k].
  - rewrite app_nil_r in *.
    destruct (rev l) as [|y m] eqn:E.
    { apply (f_equal (@rev str)) in E. rewrite rev_involutive in E. contradiction. }
    destruct (tailed_first t l y m E) as (rest & Hrest & ->).
    assert (Hy : In y l) by (apply in_rev; rewrite E; now left).
    pose proof (proj1 (Forall_forall _ _) Hg y Hy) as [_ Hs].
    pose proof (proj1 (Forall_forall _ _) Hl y Hy) as (Hy1 & Hy2 & _).
    destruct y as [|c [|d y]]; [contradiction| |].
    + destruct (Ascii.eqb_spec c "."); [subst; contradiction|].
      change (startsWith ([c] ++ rest) "./")
        with (Ascii.eqb "." c && startsWith rest "/").
      destruct (Ascii.eqb_spec "." c); [congruence|reflexivity].
    + inversion Hs as [|? ? _ Hs']; subst. inversion Hs' as [|? ? Hd _]; subst.
      change (startsWith ((c :: d :: y) ++ rest) "./")
        with (Ascii.eqb "." c && (Ascii.eqb "/" d && true)).
      destruct (Ascii.eqb_spec "/" d); [congruence|]. apply andb_false_r.
  - destruct (tailed_ups t l k) as (r & ->). reflexivity.
Qed.

(** *** Drive letters *)

Lemma toUpperChar_idem (c : ascii) : toUpperChar (toUpperChar c) = toUpperChar c.
Proof. destruct c as [[] [] [] [] [] [] [] []]; reflexivity. Qed.

Lemma isAsciiLetter_upper (c : ascii) : isAsciiLetter (toUpperChar c) = isAsciiLetter c.
Proof. destruct c as [[] [] [] [] [] [] [] []]; reflexivity. Qed.

Lemma isAsciiLetter_isSep (c : ascii) : isAsciiLetter c = true -> isSep c = false.
Proof. destruct c as [[] [] [] [] [] [] [] []]; try reflexivity; discriminate. Qed.

Lemma DRIVE_LETTER_START_RE_inv (s : str) :
  DRIVE_LETTER_START_RE s = true ->
  exists c r, s = c :: ":"%char :: "/"%char :: r /\ isAsciiLetter c = true.
Proof.
  destruct s as [|c1 [|c2 [|c3 r]]]; try discriminate.
  unfold DRIVE_LETTER_START_RE. intro H.
  apply andb_true_iff in H as [H H3]. apply andb_true_iff in H as [H1 H2].
  apply Ascii.eqb_eq in H2, H3. subst. now exists c1, r.
Qed.

Lemma normalizeWindowsPath_drive (c : ascii) (r : str) :
  isAsciiLetter c = true -> lacks "\" r ->
  normalizeWindowsPath (c :: ":"%char :: "/"%char :: r)
  = toUpperChar c :: ":"%char :: "/"%char :: r.
Proof.
  intros Hc Hr. unfold normalizeWindowsPath. cbn [isEmpty].
  rewrite replaceBackslashes_id.
  - unfold DRIVE_LETTER_START_RE. rewrite Hc. reflexivity.
  - constructor; [|constructor; [discriminate|constructor; [discriminate|exact Hr]]].
    intros ->. discriminate.
Qed.

Lemma normalizeWindowsPath_slash (s : str) :
  lacks "\" s -> normalizeWindowsPath ("/"%char :: s) = "/"%char :: s.
Proof.
  intro H. apply normalizeWindowsPath_id.
  - constructor; [discriminate|exact H].
  - now destruct s as [|c2 [|c3 r]].
Qed.

(** On a path that begins with a drive letter, [normalize] sees the case of
    the letter through [normalizeWindowsPath] only. *)
Lemma normalize_drive (c : ascii) (r : str) :
  isAsciiLetter c = true -> lacks "\" r ->
  normalize (c :: ":"%char :: "/"%char :: r)
  = normalize (toUpperChar c :: ":"%char :: "/"%char :: r).
Proof.
  intros Hc Hr.
  assert (Hu : isAsciiLetter (toUpperChar c) = true) by now rewrite isAsciiLetter_upper.
  rewrite !normalize_spec by discriminate. cbv zeta. unfold stackOfPath.
  rewrite (normalizeWindowsPath_drive c r Hc Hr).
  rewrite (normalizeWindowsPath_drive (toUpperChar c) r Hu Hr).
  rewrite toUpperChar_idem.
  assert (A : IS_ABSOLUTE_RE (toUpperChar c :: ":"%char :: "/"%char :: r) = true).
  { apply drive_start_is_absolute. unfold DRIVE_LETTER_START_RE. now rewrite Hu. }
  rewrite A.
  assert (U : forall d, isAsciiLetter d = true ->
                        UNC_REGEX (replaceBackslashes (d :: ":"%char :: "/"%char :: r))
                        = false).
  { intros d Hd. unfold replaceBackslashes. cbn [map].
    change (UNC_REGEX (?x :: ?y :: ?z)) with (isSep x && isSep y).
    destruct (Ascii.eqb_spec d "\") as [->|_]; [discriminate|].
    now rewrite (isAsciiLetter_isSep d Hd). }
  rewrite (U c Hc), (U (toUpperChar c) Hu). reflexivity.
Qed.

(** Upper-casing the drive letter of a normal text upper-cases the bottom
    segment of its stack. *)
Lemma tailed_drive (t : bool) (l : list str) (k : nat) :
  l ++ repeat DOUBLE_DOT k <> [] ->
  Forall goodSeg (l ++ repeat DOUBLE_DOT k) ->
  Forall (lacks "\") (l ++ repeat DOUBLE_DOT k) ->
  Forall plain l ->
  DRIVE_LETTER_START_RE (tailed t (render (l ++ repeat DOUBLE_DOT k))) = true ->
  exists l',
    normalizeWindowsPath (tailed t (render (l ++ repeat DOUBLE_DOT k)))
    = tailed t (render (l' ++ repeat DOUBLE_DOT 0))
    /\ l' <> [] /\ Forall goodSeg l' /\ Forall (lacks "\") l' /\ Forall plain l'.
Proof.
  intros Hne Hg Hb Hl D.
  destruct (DRIVE_LETTER_START_RE_inv _ D) as (c & r & E & Hc).
  destruct k as [|k].
  2:{ destruct (tailed_ups t l k) as (r' & E'). rewrite E' in E.
      injection E as <- _. discriminate. }
  rewrite app_nil_r in *.
  destruct (rev l) as [|y m] eqn:Er.
  { apply (f_equal (@rev str)) in Er. rewrite rev_involutive in Er. contradiction. }
  assert (El : l = rev m ++ [y]).
  { apply (f_equal (@rev str)) in Er. rewrite rev_involutive in Er. exact Er. }
  destruct (tailed_first t l y m Er) as (rest & Hrest & Et).
  assert (Hy : goodSeg y /\ lacks "\" y).
  { subst l. apply Forall_app in Hg as [_ Hg]. apply Forall_app in Hb as [_ Hb].
    inversion Hg; inversion Hb; subst. now split. }
  destruct Hy as [[Hy0 Hys] Hyb].
  assert (Ey : y = [c; ":"%char]).
  { rewrite Et in E. destruct y as [|y1 [|y2 [|y3 y']]]; [contradiction| | |].
    - destruct Hrest as [->|[r' ->]]; discriminate.
    - injection E as -> -> _. reflexivity.
    - injection E as -> -> -> _.
      inversion Hys as [|? ? _ H1]; subst. inversion H1 as [|? ? _ H2]; subst.
      inversion H2 as [|? ? H3 _]; subst. contradiction. }
  subst y.
  assert (Hr : lacks "\" r).
  { pose proof (tailed_lacks t l Hb) as L. rewrite E in L.
    inversion L as [|? ? _ L1]; subst. inversion L1 as [|? ? _ L2]; subst.
    now inversion L2. }
  rewrite E, (normalizeWindowsPath_drive c r Hc Hr).
  exists (rev m ++ [[toUpperChar c; ":"%char]]).
  assert (Hm : Forall goodSeg (rev m) /\ Forall (lacks "\") (rev m) /\ Forall plain (rev m)).
  { subst l. apply Forall_app in Hg as [Hg _]. apply Forall_app in Hb as [Hb _].
    apply Forall_app in Hl as [Hl _]. now repeat split. }
  destruct Hm as (Hmg & Hmb & Hmp).
  assert (Hu : isAsciiLetter (toUpperChar c) = true) by now rewrite isAsciiLetter_upper.
  split; [|split; [now destruct (rev m)|repeat split]].
  - rewrite app_nil_r. revert E. unfold tailed, render. subst l.
    rewrite !rev_app_distr, rev_involutive. cbn [rev app].
    destruct m as [|z m]; cbn [JsString.join].
    + unfold DRIVE_LETTER_RE. rewrite Hc, Hu. cbn [andb]. rewrite !orb_true_r.
      intro E. injection E as <-. reflexivity.
    + change (DRIVE_LETTER_RE ([?a; ?b] ++ SLASH ++ ?j)) with false.
      intro E. injection E as <-. reflexivity.
  - apply Forall_app. split; [exact Hmg|].
    constructor; [|constructor]. split; [discriminate|].
    constructor; [|constructor; [discriminate|constructor]].
    intro E'. rewrite E' in Hu. discriminate.
  - apply Forall_app. split; [exact Hmb|].
    constructor; [|constructor].
    constructor; [|constructor; [discriminate|constructor]].
    intro E'. rewrite E' in Hu. discriminate.
  - apply Forall_app. split; [exact Hmp|].
    constructor; [|constructor]. repeat split; discriminate.
Qed.

(** *** What the second pass does *)

(** C7: [normalize] is not idempotent.  A second pass does to the result
    of the first exactly what [normalizeWindowsPath] does to it: nothing,
    unless the result begins with a lower-case drive letter, which it
    upper-cases.  Such results exist: the slash after a lone drive letter
    is appended after the step that upper-cases drive letters, so
    [normalize "c:"] is ["c:/"], and a second pass gives ["C:/"]. *)
Theorem normalize_second_pass_upper_cases_drive :
  (forall p : str, normalize (normalize p) = normalizeWindowsPath (normalize p))
  /\ normalize "c:" = "c:/"
  /\ normalize (normalize "c:") = "C:/"
  /\ normalize (normalize "c:") <> normalize "c:".
Proof.
  split; [|repeat split; discriminate].
  intro p.
  destruct p as [|a p']; [reflexivity|].
  set (p := a :: p') in *.
  assert (Hp : p <> []) by discriminate.
  pose proof (normalize_spec p Hp) as E. cbv zeta in E.
  destruct (normalizeSegments_normalForm
              (negb (IS_ABSOLUTE_RE (normalizeWindowsPath p)))
              (split "/" (normalizeWindowsPath p)) [] 0) as (l & k & Est & Hl & Hk).
  { split; [constructor|reflexivity]. }
  change (stackOfPath p = l ++ repeat DOUBLE_DOT k) in Est.
  destruct (stackOfPath_good p) as [Hg Hb].
  destruct (stackOfPath p) as [|x rs] eqn:Est'.
  - rewrite E. destruct (IS_ABSOLUTE_RE _); [reflexivity|].
    destruct (_ && _); reflexivity.
  - assert (Hne : l ++ repeat DOUBLE_DOT k <> []) by (rewrite <- Est; discriminate).
    rewrite Est in E, Hg, Hb. clear Est Est' x rs.
    set (trail := endsWith (normalizeWindowsPath p) SLASH) in *.
    destruct (tailed_head trail _ Hne Hg Hb) as (c & r & Es2 & Hc).
    pose proof (tailed_lacks trail _ Hb) as Hs2.
    assert (Hups : k = 0%nat
                   \/ exists r', tailed trail (render (l ++ repeat DOUBLE_DOT k))
                                 = "."%char :: "."%char :: r').
    { destruct k as [|k']; [now left|right]. apply tailed_ups. }
    rewrite E. clear E.
    destruct (UNC_REGEX (replaceBackslashes p)) eqn:U.
    + destruct (startsWith (replaceBackslashes p) "//./") eqn:V.
      * assert (H : normalizeWindowsPath
                      ("//./" ++ tailed trail (render (l ++ repeat DOUBLE_DOT k)))
                    = "//./" ++ tailed trail (render (l ++ repeat DOUBLE_DOT k))).
        { apply normalizeWindowsPath_slash. repeat constructor; try discriminate.
          exact Hs2. }
        rewrite H.
        rewrite (normalize_again "//./" [[]; []; DOT] l k trail); try assumption.
        -- reflexivity.
        -- repeat constructor; discriminate.
        -- repeat (constructor; [now left|]).
           constructor; [now right|constructor].
        -- set (s2 := tailed trail _) in *.
           change ("//./" ++ s2) with ("//." ++ "/"%char :: s2).
           now rewrite split_app_sep.
        -- right. reflexivity.
      * assert (H : normalizeWindowsPath
                      ("//" ++ tailed trail (render (l ++ repeat DOUBLE_DOT k)))
                    = "//" ++ tailed trail (render (l ++ repeat DOUBLE_DOT k))).
        { apply normalizeWindowsPath_slash. repeat constructor; try discriminate.
          exact Hs2. }
        rewrite H.
        rewrite (normalize_again "//" [[]; []] l k trail); try assumption.
        -- set (s2 := tailed trail _) in *.
           change (UNC_REGEX ("//" ++ s2)) with true.
           change (startsWith ("//" ++ s2) "//./") with (startsWith s2 "./").
           unfold s2. now rewrite tailed_not_dot_slash.
        -- repeat constructor; discriminate.
        -- repeat (constructor; [now left|]). constructor.
        -- set (s2 := tailed trail _) in *.
           change ("//" ++ s2) with ("/" ++ "/"%char :: s2).
           now rewrite split_app_sep.
        -- set (s2 := tailed trail _) in *.
           destruct Hups as [Hz|[r' Hr]]; [now left|right].
           rewrite Hr. reflexivity.
    + destruct (IS_ABSOLUTE_RE (normalizeWindowsPath p)
                && negb (IS_ABSOLUTE_RE (tailed trail (render (l ++ repeat DOUBLE_DOT k)))))
        eqn:A.
      * apply andb_true_iff in A as [A A2]. apply negb_true_iff in A2.
        assert (H : normalizeWindowsPath
                      (SLASH ++ tailed trail (render (l ++ repeat DOUBLE_DOT k)))
                    = SLASH ++ tailed trail (render (l ++ repeat DOUBLE_DOT k))).
        { apply normalizeWindowsPath_slash. exact Hs2. }
        rewrite H.
        rewrite (normalize_again SLASH [[]] l k trail); try assumption.
        -- set (s2 := tailed trail _) in *. rewrite Es2.
           change (UNC_REGEX (SLASH ++ c :: r)) with (isSep c).
           rewrite Hc.
           change (IS_ABSOLUTE_RE (SLASH ++ c :: r))
             with (negb (isSep c) || (isSep c && 
                   match r with c3 :: _ => negb (Ascii.eqb c3 ".") | [] => true end)
                   || false).
           rewrite Hc. cbn [negb orb andb]. rewrite <- Es2, A2. reflexivity.
        -- repeat constructor; discriminate.
        -- repeat (constructor; [now left|]). constructor.
        -- set (s2 := tailed trail _) in *.
           change (SLASH ++ s2) with ([] ++ "/"%char :: s2).
           now rewrite split_app_sep.
        -- left. apply Hk. now rewrite A.
      * assert (N : forall l0 k0,
                   l0 ++ repeat DOUBLE_DOT k0 <> [] ->
                   Forall goodSeg (l0 ++ repeat DOUBLE_DOT k0) ->
                   Forall (lacks "\") (l0 ++ repeat DOUBLE_DOT k0) ->
                   Forall plain l0 ->
                   normalizeWindowsPath (tailed trail (render (l0 ++ repeat DOUBLE_DOT k0)))
                   = tailed trail (render (l0 ++ repeat DOUBLE_DOT k0)) ->
                   (k0 = 0%nat
                    \/ IS_ABSOLUTE_RE (tailed trail (render (l0 ++ repeat DOUBLE_DOT k0)))
                       = false) ->
                   normalize (tailed trail (render (l0 ++ repeat DOUBLE_DOT k0)))
                   = tailed trail (render (l0 ++ repeat DOUBLE_DOT k0))).
        { intros l0 k0 H1 H2 H3 H4 H5 H6.
          pose proof (normalize_again [] [] l0 k0 trail H1 H2 H3 H4
                        (Forall_nil _) (Forall_nil _) eq_refl H5 H6) as N.
          cbn [app] in N. rewrite N, andb_negb_r.
          destruct (tailed_head trail _ H1 H2 H3) as (c0 & r0 & -> & Hc0).
          change (UNC_REGEX (c0 :: r0))
            with (match r0 with c2 :: _ => isSep c0 && isSep c2 | [] => false end).
          rewrite Hc0. now destruct r0. }
        destruct (DRIVE_LETTER_START_RE (tailed trail (render (l ++ repeat DOUBLE_DOT k))))
          eqn:D.
        -- destruct (tailed_drive trail l k Hne Hg Hb Hl D)
             as (l' & El' & Hne' & Hg' & Hb' & Hl').
           destruct (DRIVE_LETTER_START_RE_inv _ D) as (c1 & r1 & E1 & Hc1).
           assert (Hr1 : lacks "\" r1).
           { rewrite E1 in Hs2. inversion Hs2 as [|? ? _ L1]; subst.
             inversion L1 as [|? ? _ L2]; subst. now inversion L2. }
           assert (E2 : tailed trail (render (l' ++ repeat DOUBLE_DOT 0))
                        = toUpperChar c1 :: ":"%char :: "/"%char :: r1).
           { rewrite <- El', E1. now apply normalizeWindowsPath_drive. }
           rewrite El', E1, (normalize_drive c1 r1 Hc1 Hr1), <- E2.
           apply N.
           ++ now rewrite app_nil_r.
           ++ now rewrite app_nil_r.
           ++ now rewrite app_nil_r.
           ++ exact Hl'.
           ++ rewrite E2, normalizeWindowsPath_drive, toUpperChar_idem;
                [reflexivity| |exact Hr1].
              now rewrite isAsciiLetter_upper.
           ++ now left.
        -- assert (H : normalizeWindowsPath
                          (tailed trail (render (l ++ repeat DOUBLE_DOT k)))
                        = tailed trail (render (l ++ repeat DOUBLE_DOT k)))
             by now apply normalizeWindowsPath_id.
           rewrite H. apply N; try assumption.
           destruct Hups as [Hz|[r' Hr]]; [now left|right].
           rewrite Hr. reflexivity.
Qed.

(** The same slip shows when a lower-case drive letter follows the root. *)
Example normalize_rooted_drive_letter :
  normalize "/c:/x" = "c:/x" /\ normalize (normalize "/c:/x") = "C:/x".
Proof. split; reflexivity. Qed.

(** The earlier [normalize] of pathkit-impl treats the lone drive letter
    the same way, and moreover turns a path of three separators and a dot
    segment into a device path on the second pass. *)
Example earlier_normalize_twice :
  PathKitImpl.normalize "c:" = "c:/"
  /\ PathKitImpl.normalize (PathKitImpl.normalize "c:") = "C:/"
  /\ PathKitImpl.normalize "///.c" = "//.c"
  /\ PathKitImpl.normalize (PathKitImpl.normalize "///.c") = "//./.c".
Proof. repeat split. Qed.

End NormalizeFacts.

(** ** The alias table *)

Module AliasFacts.
Import JsString JsStringFacts PathKit AliasTable.

(** *** The heap under allocation and update *)

Lemma heapGet_alloc_old (h : Heap) (x o : JsObject) (a : Ref) :
  heapGet h a = Some o -> heapGet (h ++ [x]) a = Some o.
Proof.
  unfold heapGet. intro H. rewrite nth_error_app1; [assumption|].
  apply nth_error_Some. congruence.
Qed.

Lemma heapGet_alloc_new (h : Heap) (x : JsObject) :
  heapGet (h ++ [x]) (List.length h) = Some x.
Proof. unfold heapGet. rewrite nth_error_app2 by lia. now rewrite Nat.sub_diag. Qed.

Lemma heapGet_bound (h : Heap) (a : Ref) (o : JsObject) :
  heapGet h a = Some o -> a < List.length h.
Proof. unfold heapGet. intro H. apply nth_error_Some. congruence. Qed.

Lemma updateAt_length {A} (l : list A) (i : nat) (f : A -> A) :
  List.length (updateAt l i f) = List.length l.
Proof.
  revert i; induction l as [|x l IH]; intros [|i]; cbn [updateAt List.length];
    try reflexivity. now rewrite IH.
Qed.

Lemma updateAt_other {A} (l : list A) (i j : nat) (f : A -> A) :
  i <> j -> nth_error (updateAt l i f) j = nth_error l j.
Proof.
  revert i j; induction l as [|x l IH]; intros [|i] [|j] H;
    cbn [updateAt nth_error]; try reflexivity; try contradiction.
  apply IH. congruence.
Qed.

Lemma updateAt_same {A} (l : list A) (i : nat) (f : A -> A) :
  nth_error (updateAt l i f) i = option_map f (nth_error l i).
Proof.
  revert i; induction l as [|x l IH]; intros [|i]; cbn [updateAt nth_error option_map];
    try reflexivity. apply IH.
Qed.

(** *** The nested-alias loops write to [sortedAliases] only *)

Definition agreeExceptAt (s : Ref) (h h' : Heap) : Prop :=
  List.length h' = List.length h /\
  forall a, a <> s -> heapGet h' a = heapGet h a.

Lemma agreeExceptAt_refl s h : agreeExceptAt s h h.
Proof. split; [reflexivity|]. now intros. Qed.

Lemma agreeExceptAt_trans s h1 h2 h3 :
  agreeExceptAt s h1 h2 -> agreeExceptAt s h2 h3 -> agreeExceptAt s h1 h3.
Proof.
  intros [L1 A1] [L2 A2]. split; [congruence|].
  intros a Ha. rewrite A2, A1 by assumption. reflexivity.
Qed.

Lemma heapSetProp_agree s h k v : agreeExceptAt s h (heapSetProp h s k v).
Proof.
  unfold heapSetProp. split; [apply updateAt_length|].
  intros a Ha. unfold heapGet. apply updateAt_other. congruence.
Qed.

Lemma resolveNestedStep_agree s key aliasPrefix h :
  agreeExceptAt s h (resolveNestedStep s key aliasPrefix h).
Proof.
  unfold resolveNestedStep.
  destruct (_ || _ || _); [apply agreeExceptAt_refl|].
  destruct (getProp _ key) as [value|]; [|apply agreeExceptAt_refl].
  destruct (startsWith value aliasPrefix); [|apply agreeExceptAt_refl].
  destruct (charAt value (len aliasPrefix)) as [c|].
  - destruct (Ascii.eqb c "/"); [apply heapSetProp_agree|apply agreeExceptAt_refl].
  - apply heapSetProp_agree.
Qed.

Lemma fold_agree {K} (s : Ref) (step : Heap -> K -> Heap) (keys : list K) :
  (forall h k, agreeExceptAt s h (step h k)) ->
  forall h, agreeExceptAt s h (fold_left step keys h).
Proof.
  intro Hstep. induction keys as [|k keys IH]; intro h; cbn [fold_left].
  - apply agreeExceptAt_refl.
  - eapply agreeExceptAt_trans; [apply Hstep|apply IH].
Qed.

Lemma resolveNested_agree s h : agreeExceptAt s h (resolveNested s h).
Proof.
  unfold resolveNested. apply fold_agree. intros h' key.
  apply fold_agree. intros h'' aliasPrefix. apply resolveNestedStep_agree.
Qed.

(** *** What a call of [normalizeAliases] on a raw record returns *)

Lemma normalizeAliases_raw (h : Heap) (r : Ref) (a : JsObject) (h1 : Heap) (r1 : Ref) :
  heapGet h r = Some a -> normalizedAlias a = false ->
  normalizeAliases h r = Some (h1, r1) ->
  r1 = S (List.length h) /\
  List.length h1 = S (S (List.length h)) /\
  (forall x o, heapGet h x = Some o -> heapGet h1 x = Some o) /\
  exists o1, heapGet h1 r1 = Some o1 /\ normalizedAlias o1 = true.
Proof.
  intros Hr Hm. unfold normalizeAliases. rewrite Hr, Hm.
  unfold heapAlloc.
  set (o1 := mkObject (fromEntries _) false).
  pose proof (resolveNested_agree (List.length h) (h ++ [o1])) as [L A].
  set (h2 := resolveNested (List.length h) (h ++ [o1])) in *.
  set (o2 := mkObject (fromEntries (entries (heapProps h2 (List.length h)))) false).
  intro E. injection E as <- <-.
  rewrite length_app in L. cbn [List.length] in L.
  assert (L2 : List.length h2 = S (List.length h)) by lia.
  repeat split.
  - exact L2.
  - unfold heapMark. rewrite updateAt_length, length_app. cbn [List.length]. lia.
  - intros x o Hx. pose proof (heapGet_bound _ _ _ Hx) as Hb.
    unfold heapMark, heapGet. rewrite updateAt_other by lia.
    rewrite nth_error_app1 by lia.
    change (nth_error h2 x) with (heapGet h2 x). rewrite A by lia.
    now apply heapGet_alloc_old.
  - exists (mkObject (props o2) true). split; [|reflexivity].
    unfold heapMark, heapGet. rewrite updateAt_same.
    change (nth_error (h2 ++ [o2]) (List.length h2)) with (heapGet (h2 ++ [o2]) (List.length h2)).
    now rewrite heapGet_alloc_new.
Qed.

Lemma normalizeAliases_marked (h : Heap) (r : Ref) (a : JsObject) :
  heapGet h r = Some a -> normalizedAlias a = true ->
  normalizeAliases h r = Some (h, r).
Proof. intros Hr Hm. unfold normalizeAliases. now rewrite Hr, Hm. Qed.

Lemma normalizeAliases_result_marked (h : Heap) (r : Ref) (h1 : Heap) (r1 : Ref) :
  normalizeAliases h r = Some (h1, r1) ->
  exists o1, heapGet h1 r1 = Some o1 /\ normalizedAlias o1 = true.
Proof.
  intro E. destruct (heapGet h r) as [a|] eqn:Hr.
  - destruct (normalizedAlias a) eqn:Hm.
    + rewrite (normalizeAliases_marked h r a Hr Hm) in E. injection E as <- <-.
      now exists a.
    + now destruct (normalizeAliases_raw h r a h1 r1 Hr Hm E) as (_ & _ & _ & H).
  - unfold normalizeAliases in E. rewrite Hr in E. discriminate.
Qed.

(** C9: [normalizeAliases] is idempotent: normalizing the record it
    returned gives back that very reference and leaves the heap as it is;
    and a record that is already normalized is returned as it is, with no
    allocation and no write. *)
Theorem normalizeAliases_idempotent (h : Heap) (t : Ref) (h1 : Heap) (t1 : Ref) :
  normalizeAliases h t = Some (h1, t1) ->
  normalizeAliases h1 t1 = Some (h1, t1) /\
  (forall o, heapGet h t = Some o -> normalizedAlias o = true -> h1 = h /\ t1 = t).
Proof.
  intro E. split.
  - destruct (normalizeAliases_result_marked h t h1 t1 E) as (o1 & H1 & M1).
    now apply (normalizeAliases_marked h1 t1 o1).
  - intros o Ho Hm. rewrite (normalizeAliases_marked h t o Ho Hm) in E.
    injection E as <- <-. now split.
Qed.

Definition rawAliases : JsObject :=
  mkObject [("@" : str, "./test-src" : str);
            ("@components" : str, "./test-src/components" : str);
            ("@utils" : str, "./test-src/utils" : str)] false.

Definition normalizedOnce : Heap * Ref :=
  match normalizeAliases [rawAliases] 0 with
  | Some hr => hr
  | None => ([], 0)
  end.

Lemma normalizeAliases_idempotent_witness :
  normalizeAliases (fst normalizedOnce) (snd normalizedOnce) = Some normalizedOnce.
Proof.
  apply (normalizeAliases_idempotent [rawAliases] 0 (fst normalizedOnce) (snd normalizedOnce)).
  reflexivity.
Defined.

(** C10: [normalizeAliases] does not write to its argument: every object
    that was in the heap before the call, the argument among them, has
    the same keys and values after it; for a raw record the result is a
    reference that did not exist before the call, and it carries the
    normalized marker. *)
Theorem normalizeAliases_leaves_argument (h : Heap) (r : Ref) (h1 : Heap) (r1 : Ref) :
  normalizeAliases h r = Some (h1, r1) ->
  (forall x o, heapGet h x = Some o -> heapGet h1 x = Some o) /\
  (forall a, heapGet h r = Some a -> normalizedAlias a = false ->
             heapGet h r1 = None /\ r1 <> r /\
             exists o1, heapGet h1 r1 = Some o1 /\ normalizedAlias o1 = true).
Proof.
  intro E. destruct (heapGet h r) as [a|] eqn:Hr.
  - destruct (normalizedAlias a) eqn:Hm.
    + rewrite (normalizeAliases_marked h r a Hr Hm) in E. injection E as <- <-.
      split; [now intros|]. intros a' Ha'. injection Ha' as <-. congruence.
    + destruct (normalizeAliases_raw h r a h1 r1 Hr Hm E) as (R1 & L1 & Old & New).
      split; [exact Old|]. intros a' _ _.
      pose proof (heapGet_bound _ _ _ Hr) as Hb. repeat split.
      * unfold heapGet. apply nth_error_None. lia.
      * lia.
      * exact New.
  - unfold normalizeAliases in E. rewrite Hr in E. discriminate.
Qed.

Lemma normalizeAliases_leaves_argument_witness :
  heapGet (fst normalizedOnce) 0 = Some rawAliases /\ snd normalizedOnce <> 0.
Proof.
  destruct (normalizeAliases_leaves_argument [rawAliases] 0
              (fst normalizedOnce) (snd normalizedOnce) eq_refl) as [Old New].
  split.
  - apply Old. reflexivity.
  - destruct (New rawAliases eq_refl eq_refl) as (_ & Hne & _). exact Hne.
Defined.

(** *** [resolveAlias] *)

Lemma resolveAliasLoop_no_match (normalizedPath : str) (l : list (str * str)) :
  Forall (fun e => aliasMatches normalizedPath (fst e) = false) l ->
  resolveAliasLoop normalizedPath l = normalizedPath.
Proof.
  induction 1 as [|[alias to] l H Hl IH]; cbn [resolveAliasLoop]; [reflexivity|].
  unfold aliasMatches in H. cbn [fst] in H.
  apply orb_false_iff in H as [H1 H2]. fold SLASH in H1. now rewrite H1, H2.
Qed.

(** C5 (as amended): when no entry of the normalized table matches,
    [resolveAlias] returns the path after [normalizeWindowsPath], that is
    with every backslash turned into a slash and a leading drive letter
    upper-cased; the result is the input itself whenever the input has no
    backslash and no leading drive letter. *)
Theorem resolveAlias_without_match (h : Heap) (path : str) (aliases : Ref)
        (h1 : Heap) (table : Ref) :
  normalizeAliases h aliases = Some (h1, table) ->
  Forall (fun e => aliasMatches (normalizeWindowsPath path) (fst e) = false)
         (entries (heapProps h1 table)) ->
  resolveAlias h path aliases = Some (h1, normalizeWindowsPath path) /\
  (lacks "\" path -> DRIVE_LETTER_START_RE path = false ->
   resolveAlias h path aliases = Some (h1, path)).
Proof.
  intros E H.
  assert (R : resolveAlias h path aliases = Some (h1, normalizeWindowsPath path)).
  { unfold resolveAlias. rewrite E. now rewrite resolveAliasLoop_no_match. }
  split; [exact R|]. intros Hb Hd. rewrite R.
  now rewrite ResolveFacts.normalizeWindowsPath_id.
Qed.

Lemma resolveAlias_without_match_witness :
  resolveAlias [rawAliases] "regular/path" 0 = Some (fst normalizedOnce, "regular/path" : str).
Proof.
  destruct (resolveAlias_without_match [rawAliases] "regular/path" 0
              (fst normalizedOnce) (snd normalizedOnce)) as [_ H].
  - reflexivity.
  - vm_compute. repeat constructor.
  - apply H.
    + repeat constructor; discriminate.
    + reflexivity.
Defined.

(** C5 as stated fails: with no matching alias the result differs from
    the argument as soon as the argument holds a backslash. *)
Lemma resolveAlias_rewrites_backslashes :
  option_map snd (resolveAlias [rawAliases] "src\utils" 0) = Some ("src/utils" : str) /\
  ("src/utils" : str) <> ("src\utils" : str).
Proof. split; [reflexivity|discriminate]. Qed.

End AliasFacts.

(** ** The limit of the deprecated scanner

    Each pass of its two loops offers at most one record to
    [shouldIncludeByPathType]; the scan is a fold of [take] over these
    offers. *)

Module DlerScannerFacts.
Import JsString Dler DlerScanner.
Import Scanner (RegExpMatch, m_index, group, wholeMatch, endOf, Kind, KImport, KExport, kindName, KindFilter, All).

Definition hasPathType (t : ImportType) (i : ImportExportInfo) : bool :=
  match pathType i with
  | Some t' => importType_eqb t' t
  | None => false
  end.

(** What one pass of a loop body puts before [shouldIncludeByPathType]:
    nothing, a record without a path type, or a record of a path type. *)
Inductive Offer :=
| Skip
| Untyped (r : ImportExportInfo)
| Typed (t : ImportType) (r : ImportExportInfo).

Definition wellTyped (o : Offer) : Prop :=
  match o with
  | Skip => True
  | Untyped r => pathType r = None
  | Typed t r => pathType r = Some t
  end.

Definition take (pathTypes : option (list ImportType)) (limitPerType : option Z)
           (st : State) (o : Offer) : State :=
  match o with
  | Skip => st
  | Untyped r => (fst st, snd st ++ [r])
  | Typed t r =>
      let (ok, typeCounts) := shouldIncludeByPathType pathTypes limitPerType (fst st) t in
      if ok then (typeCounts, snd st ++ [r]) else (typeCounts, snd st)
  end.

Lemma importType_eqb_eq (a b : ImportType) : importType_eqb a b = true <-> a = b.
Proof. destruct a, b; cbn; split; congruence. Qed.

Lemma importType_eqb_refl (a : ImportType) : importType_eqb a a = true.
Proof. now destruct a. Qed.

Section WithRegExp.

Variable matchAll : Pattern -> str -> list RegExpMatch.
Variable exec : Pattern -> str -> option RegExpMatch.
Variable replaceAll : Pattern -> str -> str -> str.
Variable splitBy : Pattern -> str -> list str.

Definition staticOffer (kind : option KindFilter) (m : RegExpMatch) : Offer :=
  let kindFilter := match kind with Some k => k | None => All end in
  let statement := wholeMatch m in
  let statementKind := if eqb (groupText m 1) "import" then KImport else KExport in
  if negb (shouldIncludeByKind kindFilter statementKind) then Skip
  else
    let isTypeOnly :=
      includes statement (kindName statementKind ++ " type")
      && negb (includes statement (kindName statementKind ++ " type {")) in
    let specifiers :=
      specifiersOf exec replaceAll splitBy
                   (beforeFrom statement statementKind (includes statement "from"))
                   isTypeOnly in
    if includes statement "from" then
      let info := determineImportPathType (groupText m 3) in
      Typed (pti_type info)
            (mkInfo statement StStatic statementKind (Some (groupText m 3))
                    (Some (pti_type info)) (Some (pti_symbol info))
                    (Some specifiers) (if isTypeOnly then Some true else None)
                    (m_index m) (endOf m))
    else
      Untyped (mkInfo statement StStatic statementKind None None None
                      (Some specifiers) (if isTypeOnly then Some true else None)
                      (m_index m) (endOf m)).

Definition dynamicOffer (m : RegExpMatch) : Offer :=
  let info := determineImportPathType (groupText m 2) in
  Typed (pti_type info)
        (mkInfo (wholeMatch m) StDynamic KImport (Some (groupText m 2))
                (Some (pti_type info)) (Some (pti_symbol info))
                None None (m_index m) (endOf m)).

Lemma staticStep_take (options : GetFileImportsExportsOptions) (st : State) (m : RegExpMatch) :
  staticStep exec replaceAll splitBy options st m
  = take (opt_pathTypes options) (opt_limitPerType options) st
         (staticOffer (opt_kind options) m).
Proof.
  unfold staticStep, staticOffer.
  destruct (negb (shouldIncludeByKind _ _)); [reflexivity|].
  destruct (includes (wholeMatch m) "from"); cbn [take option_map].
  - destruct (shouldIncludeByPathType _ _ _ _) as [[|] tc]; reflexivity.
  - destruct st; reflexivity.
Qed.

Lemma dynamicStep_take (options : GetFileImportsExportsOptions) (st : State) (m : RegExpMatch) :
  dynamicStep options st m
  = take (opt_pathTypes options) (opt_limitPerType options) st (dynamicOffer m).
Proof.
  unfold dynamicStep, dynamicOffer. cbn [take].
  destruct (shouldIncludeByPathType _ _ _ _) as [[|] tc]; reflexivity.
Qed.

Lemma staticOffer_wellTyped (kind : option KindFilter) (m : RegExpMatch) :
  wellTyped (staticOffer kind m).
Proof.
  unfold staticOffer.
  destruct (negb (shouldIncludeByKind _ _)); [exact I|].
  destruct (includes (wholeMatch m) "from"); reflexivity.
Qed.

Lemma dynamicOffer_wellTyped (m : RegExpMatch) : wellTyped (dynamicOffer m).
Proof. reflexivity. Qed.

(** The offers of a whole scan, in the order of the two loops *)
Definition offers (code : str) (kind : option KindFilter) : list Offer :=
  map (staticOffer kind) (matchAll STATIC_IMPORT_REGEX code)
  ++ (if shouldIncludeByKind (match kind with Some k => k | None => All end) KImport
      then map dynamicOffer (matchAll DYNAMIC_IMPORT_REGEX code)
      else []).

Lemma fold_left_map_ext {A B C} (f : A -> B -> A) (g : A -> C -> A) (h : B -> C)
      (l : list B) :
  (forall a b, f a b = g a (h b)) ->
  forall a, fold_left f l a = fold_left g (map h l) a.
Proof.
  intro H. induction l as [|b l IH]; intro a; cbn [fold_left map]; [reflexivity|].
  now rewrite H, IH.
Qed.

Lemma getFileImportsExports_offers (code : str) (options : GetFileImportsExportsOptions) :
  getFileImportsExports matchAll exec replaceAll splitBy code options
  = snd (fold_left (take (opt_pathTypes options) (opt_limitPerType options))
                   (offers code (opt_kind options)) (noCounts, [])).
Proof.
  unfold getFileImportsExports, offers. rewrite fold_left_app.
  rewrite <- (fold_left_map_ext (staticStep exec replaceAll splitBy options)
                (take (opt_pathTypes options) (opt_limitPerType options))
                (staticOffer (opt_kind options)))
    by (intros; apply staticStep_take).
  destruct (shouldIncludeByKind _ KImport); cbn [fold_left]; [|reflexivity].
  now rewrite <- (fold_left_map_ext (dynamicStep options)
                    (take (opt_pathTypes options) (opt_limitPerType options))
                    dynamicOffer)
    by (intros; apply dynamicStep_take).
Qed.

Lemma offers_wellTyped (code : str) (kind : option KindFilter) :
  Forall wellTyped (offers code kind).
Proof.
  unfold offers. apply Forall_app. split.
  - apply Forall_map, Forall_forall. intros m _. apply staticOffer_wellTyped.
  - destruct (shouldIncludeByKind _ _); [|constructor].
    apply Forall_map, Forall_forall. intros m _. apply dynamicOffer_wellTyped.
Qed.

End WithRegExp.

(** Without [pathTypes] the limit is never looked at. *)
Lemma take_without_pathTypes (limitPerType : option Z) (os : list Offer) :
  forall st, fold_left (take None limitPerType) os st = fold_left (take None None) os st.
Proof.
  induction os as [|o os IH]; intro st; cbn [fold_left]; [reflexivity|].
  rewrite IH. destruct o; reflexivity.
Qed.

(** The counters and the statements of a limited run, against the
    statements [all] of the run without limit on the same offers. *)
Definition Capped (n : nat) (st : State) (all : list ImportExportInfo) : Prop :=
  forall t,
    filter (hasPathType t) (snd st) = firstn n (filter (hasPathType t) all)
    /\ countOf (fst st) t = Z.of_nat (List.length (filter (hasPathType t) all)).

Lemma filter_snoc {A} (p : A -> bool) (l : list A) (x : A) :
  filter p (l ++ [x]) = if p x then filter p l ++ [x] else filter p l.
Proof.
  rewrite filter_app. cbn [filter]. destruct (p x); [reflexivity|apply app_nil_r].
Qed.

Lemma firstn_snoc {A} (n : nat) (l : list A) (x : A) :
  firstn n (l ++ [x]) = if (List.length l <? n)%nat then firstn n l ++ [x] else firstn n l.
Proof.
  rewrite firstn_app. destruct (Nat.ltb_spec (List.length l) n) as [H|H].
  - replace (n - List.length l)%nat with (S (n - List.length l - 1)) by lia.
    cbn [firstn]. now rewrite firstn_nil.
  - replace (n - List.length l)%nat with 0%nat by lia. cbn [firstn]. apply app_nil_r.
Qed.

Lemma take_Capped (pathTypes : list ImportType) (n : Z) (o : Offer)
      (st st0 : State) :
  (0 < n)%Z ->
  wellTyped o ->
  Capped (Z.to_nat n) st (snd st0) ->
  Capped (Z.to_nat n) (take (Some pathTypes) (Some n) st o)
         (snd (take (Some pathTypes) None st0 o)).
Proof.
  intros Hn Ho Hc. destruct o as [|r|t r]; cbn [take wellTyped] in *.
  - exact Hc.
  - intro t. destruct (Hc t) as [H1 H2]. cbn [fst snd].
    assert (Hr : hasPathType t r = false) by (unfold hasPathType; now rewrite Ho).
    rewrite !filter_snoc, Hr. now split.
  - unfold shouldIncludeByPathType.
    destruct (negb (existsb (importType_eqb t) pathTypes)); cbn [fst snd]; [exact Hc|].
    destruct (Z.eqb_spec n 0) as [|_]; [lia|].
    intro t'. destruct (Hc t') as [H1 H2]. destruct (Hc t) as [_ H3].
    assert (Hr : hasPathType t' r = importType_eqb t t')
      by (unfold hasPathType; now rewrite Ho).
    assert (Hcnt : countOf (setCount (fst st) t (countOf (fst st) t + 1)) t'
                   = if importType_eqb t t' then (countOf (fst st) t + 1)%Z
                     else countOf (fst st) t').
    { unfold countOf at 1. unfold setCount.
      destruct (importType_eqb t t') eqn:Et.
      - apply importType_eqb_eq in Et. subst t'. now rewrite importType_eqb_refl.
      - destruct (importType_eqb t' t) eqn:Et'; [|reflexivity].
        apply importType_eqb_eq in Et'. subst t'.
        rewrite importType_eqb_refl in Et. discriminate. }
    rewrite (filter_snoc _ (snd st0)), Hr.
    destruct (Z.leb_spec (countOf (fst st) t + 1) n) as [Hle|Hgt];
      cbn [fst snd]; rewrite Hcnt; [rewrite filter_snoc, Hr|];
      (destruct (importType_eqb t t') eqn:Et;
       [apply importType_eqb_eq in Et; subst t'|now split]);
      rewrite firstn_snoc, H1, length_app; cbn [List.length];
      (split; [|lia]);
      destruct (Nat.ltb_spec (List.length (filter (hasPathType t) (snd st0))) (Z.to_nat n));
      try reflexivity; lia.
Qed.

Lemma fold_take_Capped (pathTypes : list ImportType) (n : Z) (os : list Offer) :
  (0 < n)%Z ->
  Forall wellTyped os ->
  forall st st0,
    Capped (Z.to_nat n) st (snd st0) ->
    Capped (Z.to_nat n) (fold_left (take (Some pathTypes) (Some n)) os st)
           (snd (fold_left (take (Some pathTypes) None) os st0)).
Proof.
  intros Hn. induction 1 as [|o os Ho Hos IH]; intros st st0 Hc; cbn [fold_left].
  - exact Hc.
  - apply IH. now apply take_Capped.
Qed.

End DlerScannerFacts.

(** ** The limit of the two scanners *)

Module ScannerFacts.
Import JsString JsStringFacts Scanner.

Definition inBucket (key : str) (i : ImportExportInfo) : bool := eqb (bucketKey i) key.

Definition Groups := list (str * list ImportExportInfo).

Fixpoint groupOf (acc : Groups) (key : str) : list ImportExportInfo :=
  match acc with
  | [] => []
  | (k, g) :: t => if eqb k key then g else groupOf t key
  end.

(** Every group holds records of its own key only, and no key occurs
    twice. *)
Inductive wellGrouped : Groups -> Prop :=
| wg_nil : wellGrouped []
| wg_cons k g t :
    Forall (fun i => bucketKey i = k) g ->
    groupOf t k = [] ->
    Forall (fun kg => fst kg <> k) t ->
    wellGrouped t ->
    wellGrouped ((k, g) :: t).

Lemma groupOf_push (key k : str) (curr : ImportExportInfo) (acc : Groups) :
  groupOf (pushToGroup key curr acc) k =
    if eqb key k then groupOf acc k ++ [curr] else groupOf acc k.
Proof.
  induction acc as [|[k' g] t IH]; cbn [pushToGroup groupOf].
  - destruct (eqb key k); reflexivity.
  - destruct (eqb k' key) eqn:E1; cbn [groupOf].
    + apply eqb_eq in E1. subst k'.
      destruct (eqb key k) eqn:E2; reflexivity.
    + destruct (eqb k' k) eqn:E2; [|exact IH].
      apply eqb_eq in E2. subst k'.
      assert (E3 : eqb key k = false).
      { apply eqb_neq. intros ->. rewrite eqb_refl in E1. discriminate. }
      now rewrite E3.
Qed.

Lemma pushToGroup_keys (key : str) (curr : ImportExportInfo) (acc : Groups) (k : str) :
  k <> key ->
  Forall (fun kg => fst kg <> k) acc ->
  Forall (fun kg => fst kg <> k) (pushToGroup key curr acc).
Proof.
  intros Hk. induction 1 as [|[k' g] t H Ht IH]; cbn [pushToGroup].
  - constructor; [cbn; congruence|constructor].
  - destruct (eqb k' key); constructor; try assumption.
Qed.

Lemma pushToGroup_wellGrouped (curr : ImportExportInfo) (acc : Groups) :
  wellGrouped acc -> wellGrouped (pushToGroup (bucketKey curr) curr acc).
Proof.
  induction 1 as [|k g t Hg Hk Hn Ht IH]; cbn [pushToGroup].
  - constructor; [repeat constructor|reflexivity|constructor|constructor].
  - destruct (eqb k (bucketKey curr)) eqn:E.
    + apply eqb_eq in E. constructor; try assumption.
      apply Forall_app. split; [assumption|]. constructor; [now symmetry|constructor].
    + apply eqb_neq in E. constructor; try assumption.
      * rewrite groupOf_push.
        destruct (eqb (bucketKey curr) k) eqn:E'; [|assumption].
        apply eqb_eq in E'. congruence.
      * now apply pushToGroup_keys.
Qed.

Lemma groupBy_from (results : list ImportExportInfo) :
  forall acc key,
    groupOf (fold_left (fun acc curr => pushToGroup (bucketKey curr) curr acc) results acc) key
    = groupOf acc key ++ filter (inBucket key) results.
Proof.
  induction results as [|x l IH]; intros acc key; cbn [fold_left filter].
  - now rewrite app_nil_r.
  - rewrite IH, groupOf_push. unfold inBucket at 2.
    destruct (eqb (bucketKey x) key); [now rewrite <- app_assoc|reflexivity].
Qed.

Lemma groupBy_wellGrouped (results : list ImportExportInfo) :
  forall acc, wellGrouped acc ->
    wellGrouped (fold_left (fun acc curr => pushToGroup (bucketKey curr) curr acc) results acc).
Proof.
  induction results as [|x l IH]; intros acc H; cbn [fold_left]; [assumption|].
  apply IH. now apply pushToGroup_wellGrouped.
Qed.

Lemma filter_all {A} (p : A -> bool) (l : list A) :
  Forall (fun x => p x = true) l -> filter p l = l.
Proof. induction 1 as [|x l H Hl IH]; cbn [filter]; [reflexivity|]. now rewrite H, IH. Qed.

Lemma filter_none {A} (p : A -> bool) (l : list A) :
  Forall (fun x => p x = false) l -> filter p l = [].
Proof. induction 1 as [|x l H Hl IH]; cbn [filter]; [reflexivity|]. now rewrite H. Qed.

Lemma Forall_firstn_of {A} (Q : A -> Prop) n (l : list A) :
  Forall Q l -> Forall Q (firstn n l).
Proof.
  intro H. rewrite <- (firstn_skipn n l) in H. now apply Forall_app in H.
Qed.

Lemma capped_bucket (n : nat) (key : str) (acc : Groups) :
  wellGrouped acc ->
  filter (inBucket key) (flat_map (fun kg => firstn n (snd kg)) acc)
  = firstn n (groupOf acc key).
Proof.
  induction 1 as [|k g t Hg Hk Hn Ht IH]; cbn [flat_map groupOf snd].
  - now rewrite firstn_nil.
  - rewrite filter_app, IH. destruct (eqb k key) eqn:E.
    + apply eqb_eq in E. subst k. rewrite Hk, firstn_nil, app_nil_r.
      apply filter_all. apply Forall_firstn_of.
      eapply Forall_impl; [|exact Hg]. intros i Hi. unfold inBucket.
      now apply eqb_eq.
    + rewrite filter_none; [reflexivity|]. apply Forall_firstn_of.
      eapply Forall_impl; [|exact Hg]. intros i Hi. unfold inBucket.
      now rewrite Hi.
Qed.

Lemma arraySlice_firstn {A} (l : list A) (n : Z) :
  (0 < n)%Z -> arraySlice l 0 n = firstn (Z.to_nat n) l.
Proof.
  intro Hn. unfold arraySlice, clampIndex.
  destruct (Z.ltb_spec 0 0); [lia|]. destruct (Z.ltb_spec n 0); [lia|].
  rewrite (Z.min_l 0) by lia. rewrite Z.sub_0_r. cbn [Z.to_nat skipn].
  destruct (Z.le_ge_cases n (Z.of_nat (List.length l))) as [H1|H1].
  - now rewrite Z.min_l by lia.
  - rewrite Z.min_r by lia. rewrite Nat2Z.id.
    rewrite firstn_all. symmetry. apply firstn_all2. lia.
Qed.

Lemma applyLimit_bucket (n : Z) (results : list ImportExportInfo) (key : str) :
  (0 < n)%Z ->
  filter (inBucket key) (applyLimit (Some n) results)
  = firstn (Z.to_nat n) (filter (inBucket key) results).
Proof.
  intro Hn. unfold applyLimit. destruct (Z.eqb_spec n 0); [lia|].
  erewrite flat_map_ext; [|intro kg; apply arraySlice_firstn; exact Hn].
  unfold groupByType. rewrite capped_bucket.
  - now rewrite groupBy_from.
  - apply groupBy_wellGrouped. constructor.
Qed.

Definition kind_eqb (a b : Kind) : bool :=
  match a, b with
  | KImport, KImport | KExport, KExport => true
  | _, _ => false
  end.

(** The bucket (kind, pathType) of a record of the deprecated scanner *)
Definition inKindAndType (k : Kind) (t : Dler.ImportType)
           (i : DlerScanner.ImportExportInfo) : bool :=
  kind_eqb (DlerScanner.kind i) k && DlerScannerFacts.hasPathType t i.

(** C4 (amended): for every source text and every positive [limitPerType],
    the scanner of the current module returns, for each bucket
    (kind, pathType), the first [limitPerType] records of that bucket in the
    order of the complete scan (the [results] array before the cap), hence
    at most [limitPerType] of them.  The deprecated scanner looks at the
    limit only when [pathTypes] is given: without [pathTypes] it returns
    what it returns without a limit; with [pathTypes] it keeps, for each
    path type and across both kinds, the first [limitPerType] statements
    in the order of its two loops. *)
Theorem limitPerType_of_the_two_scanners (n : Z) :
  (0 < n)%Z ->
  (forall matchAll exec content options key,
      opt_limitPerType options = Some n ->
      filter (inBucket key) (getFileImportsExports matchAll exec content options)
      = firstn (Z.to_nat n)
               (filter (inBucket key) (scanResults matchAll exec content options))
      /\ (List.length
            (filter (inBucket key) (getFileImportsExports matchAll exec content options))
          <= Z.to_nat n)%nat)
  /\ (forall matchAll exec replaceAll splitBy code kind,
         DlerScanner.getFileImportsExports matchAll exec replaceAll splitBy code
           (DlerScanner.mkOptions None (Some n) kind)
         = DlerScanner.getFileImportsExports matchAll exec replaceAll splitBy code
             (DlerScanner.mkOptions None None kind))
  /\ (forall matchAll exec replaceAll splitBy code kind pathTypes t,
         filter (DlerScannerFacts.hasPathType t)
                (DlerScanner.getFileImportsExports matchAll exec replaceAll splitBy code
                   (DlerScanner.mkOptions (Some pathTypes) (Some n) kind))
         = firstn (Z.to_nat n)
                  (filter (DlerScannerFacts.hasPathType t)
                     (DlerScanner.getFileImportsExports matchAll exec replaceAll splitBy code
                        (DlerScanner.mkOptions (Some pathTypes) None kind)))).
Proof.
  intro Hn. split; [|split].
  - intros matchAll exec content options key Hl.
    unfold getFileImportsExports. rewrite Hl.
    rewrite applyLimit_bucket by assumption. split; [reflexivity|].
    apply firstn_le_length.
  - intros matchAll exec replaceAll splitBy code kind.
    rewrite !DlerScannerFacts.getFileImportsExports_offers.
    cbn [DlerScanner.opt_pathTypes DlerScanner.opt_limitPerType DlerScanner.opt_kind].
    now rewrite DlerScannerFacts.take_without_pathTypes.
  - intros matchAll exec replaceAll splitBy code kind pathTypes t.
    rewrite !DlerScannerFacts.getFileImportsExports_offers.
    cbn [DlerScanner.opt_pathTypes DlerScanner.opt_limitPerType DlerScanner.opt_kind].
    apply (DlerScannerFacts.fold_take_Capped pathTypes n
             (DlerScannerFacts.offers matchAll exec replaceAll splitBy code kind) Hn
             (DlerScannerFacts.offers_wellTyped matchAll exec replaceAll splitBy code kind)
             (DlerScanner.noCounts, []) (DlerScanner.noCounts, [])).
    intro t'. split; [|reflexivity]. cbn [snd filter]. now rewrite firstn_nil.
Qed.

Definition twoImportsText : str := "import a from './a'; import b from './b';".

Definition importAndExportText : str := "import a from './a'; export { b } from './b';".

Lemma limitPerType_of_the_two_scanners_witness :
  map start
      (filter (inBucket "import-relative")
         (RegExp.getFileImportsExports twoImportsText (mkOptions None None (Some 1%Z))))
  = [0%Z]
  /\ map DlerScanner.start
         (filter (DlerScannerFacts.hasPathType Dler.Relative)
            (DlerRegExp.getFileImportsExports importAndExportText
               (DlerScanner.mkOptions (Some [Dler.Relative]) (Some 1%Z) None)))
     = [0%Z].
Proof.
  destruct (limitPerType_of_the_two_scanners 1 eq_refl) as [H1 [_ H3]]. split.
  - destruct (H1 RegExp.matchAll RegExp.exec twoImportsText
                 (mkOptions None None (Some 1%Z)) "import-relative" eq_refl) as [H _].
    unfold RegExp.getFileImportsExports. rewrite H. reflexivity.
  - unfold DlerRegExp.getFileImportsExports. rewrite H3. reflexivity.
Defined.

(** The deprecated scanner against the claim as it stands: with a limit of
    one and no [pathTypes], two records of the bucket (import, relative)
    come back; with [pathTypes], the one relative statement allowed is the
    import, and the bucket (export, relative) loses its only record. *)
Lemma deprecated_scanner_limit_is_not_per_bucket :
  List.length
    (filter (inKindAndType KImport Dler.Relative)
       (DlerRegExp.getFileImportsExports twoImportsText
          (DlerScanner.mkOptions None (Some 1%Z) None))) = 2%nat
  /\ filter (inKindAndType KExport Dler.Relative)
       (DlerRegExp.getFileImportsExports importAndExportText
          (DlerScanner.mkOptions (Some [Dler.Relative]) (Some 1%Z) None)) = []
  /\ List.length
       (filter (inKindAndType KExport Dler.Relative)
          (DlerRegExp.getFileImportsExports importAndExportText
             (DlerScanner.mkOptions (Some [Dler.Relative]) None None))) = 1%nat.
Proof. repeat split. Qed.

(** The order of the complete scan is that of the passes (static imports,
    dynamic imports, re-exports, default exports, named exports), each in
    text order: here the dynamic import at offset 10 comes after the static
    import at offset 25, and a limit of one keeps the static import. *)
Example scan_order_is_pass_order :
  map start
      (RegExp.getFileImportsExports "const m = import('./a'); import x from './b';"
         (mkOptions None None None)) = [25%Z; 10%Z] /\
  map start
      (RegExp.getFileImportsExports "const m = import('./a'); import x from './b';"
         (mkOptions None None (Some 1%Z))) = [25%Z].
Proof. split; reflexivity. Qed.

End ScannerFacts.

(** ** Further facts about the path algebra *)

Module PathAlgebraFacts.
Import JsString JsStringFacts PathKit PathKitFacts ResolveFacts NormalizeFacts.

(** *** [normalizeWindowsPath] *)

Lemma normalizeWindowsPath_upper (p : str) :
  DRIVE_LETTER_START_RE (normalizeWindowsPath p) = true ->
  exists c r, normalizeWindowsPath p = toUpperChar c :: ":"%char :: "/"%char :: r
              /\ isAsciiLetter c = true.
Proof.
  { unfold normalizeWindowsPath. destruct p as [|a0 p0]; [discriminate|].
    cbn [isEmpty]. set (p := a0 :: p0).
    destruct (replaceBackslashes p) as [|c1 [|c2 [|c3 r]]] eqn:E; try discriminate.
    destruct (DRIVE_LETTER_START_RE (c1 :: c2 :: c3 :: r)) eqn:D.
    - intros _. destruct (DRIVE_LETTER_START_RE_inv _ D) as (c & r' & E' & Hc).
      injection E' as -> -> -> ->. now exists c, r'.
    - congruence. }
Qed.

Lemma normalizeWindowsPath_idem (p : str) :
  normalizeWindowsPath (normalizeWindowsPath p) = normalizeWindowsPath p.
Proof.
  pose proof (normalizeWindowsPath_lacks p) as L.
  destruct (DRIVE_LETTER_START_RE (normalizeWindowsPath p)) eqn:D.
  - destruct (normalizeWindowsPath_upper p D) as (c & r & E & Hc). rewrite E in L |- *.
    rewrite normalizeWindowsPath_drive.
    + now rewrite toUpperChar_idem.
    + now rewrite isAsciiLetter_upper.
    + inversion L as [|? ? _ L1]; subst. inversion L1 as [|? ? _ L2]; subst.
      now inversion L2.
  - now apply normalizeWindowsPath_id.
Qed.

(** X1: [normalizeWindowsPath] is idempotent, its result holds no
    backslash, and a drive letter at the head of its result is upper-case. *)
Theorem normalizeWindowsPath_canonical (p : str) :
  normalizeWindowsPath (normalizeWindowsPath p) = normalizeWindowsPath p
  /\ lacks "\" (normalizeWindowsPath p)
  /\ (DRIVE_LETTER_START_RE (normalizeWindowsPath p) = true ->
      toUpperCase (firstn 1 (normalizeWindowsPath p)) = firstn 1 (normalizeWindowsPath p)).
Proof.
  split; [apply normalizeWindowsPath_idem|].
  split; [apply normalizeWindowsPath_lacks|].
  intro D. destruct (normalizeWindowsPath_upper p D) as (c & r & -> & _).
  cbn [firstn toUpperCase map]. now rewrite toUpperChar_idem.
Qed.

(** *** [normalizeString] *)

(** X2: the result of [normalizeString] is a run of [..] segments followed
    by segments that are neither empty nor [.] nor [..], joined by single
    slashes; without [allowAboveRoot] there is no [..] at all. *)
Theorem normalizeString_shape (path : str) (allowAboveRoot : bool) :
  exists (k : nat) (l : list str),
    normalizeString path allowAboveRoot
    = JsString.join SLASH (repeat DOUBLE_DOT k ++ l)
    /\ Forall plain l /\ Forall (lacks "/") l
    /\ (allowAboveRoot = false -> k = 0%nat).
Proof.
  rewrite normalizeString_segments.
  destruct (normalizeSegments_normalForm allowAboveRoot (split "/" path) [] 0)
    as (l & k & E & Hl & Hk).
  { split; [constructor|reflexivity]. }
  cbn [app repeat] in E.
  exists k, (rev l). rewrite E. unfold render.
  rewrite rev_app_distr, rev_repeat. split; [reflexivity|].
  split; [now apply Forall_rev|]. split; [|exact Hk].
  assert (G : Forall goodSeg (l ++ repeat DOUBLE_DOT k)).
  { rewrite <- E. apply normalizeSegments_good; [apply split_pieces_lack|constructor]. }
  apply Forall_app in G as [G _]. apply Forall_rev.
  eapply Forall_impl; [|exact G]. now intros a [_ Ha].
Qed.

(** *** [normalize] *)

Lemma normalize_result (p : str) :
  normalize p <> [] /\ lacks "\" (normalize p).
Proof.
  destruct p as [|a p']; [split; [discriminate|repeat constructor; discriminate]|].
  rewrite normalize_spec by discriminate. cbv zeta.
  destruct (stackOfPath_good (a :: p')) as [Hg Hb].
  destruct (stackOfPath (a :: p')) as [|x rs] eqn:E.
  - destruct (IS_ABSOLUTE_RE _); [split; [discriminate|repeat constructor; discriminate]|].
    destruct (_ && _); split; try discriminate; repeat constructor; discriminate.
  - set (t := endsWith (normalizeWindowsPath (a :: p')) SLASH).
    assert (Hne : x :: rs <> []) by discriminate.
    destruct (tailed_head t (x :: rs) Hne Hg Hb) as (c & r & Es & _).
    pose proof (tailed_lacks t (x :: rs) Hb) as Hl.
    rewrite Es in *.
    destruct (UNC_REGEX _); [destruct (startsWith _ _)|destruct (_ && _)];
      (split; [discriminate|]);
      first [exact Hl|apply lacks_app; [repeat constructor; discriminate|exact Hl]].
Qed.

(** X3: [normalize] never returns the empty string, its result holds no
    backslash, and a path that ends with a separator gives a result that
    ends with a slash. *)
Theorem normalize_keeps_trailing_slash (p : str) :
  normalize p <> [] /\ lacks "\" (normalize p)
  /\ (endsWith (normalizeWindowsPath p) SLASH = true -> endsWith (normalize p) SLASH = true).
Proof.
  destruct (normalize_result p) as [H1 H2]. split; [exact H1|split; [exact H2|]].
  intro T. destruct p as [|a p']; [discriminate|].
  rewrite normalize_spec by discriminate. cbv zeta. rewrite T.
  destruct (stackOfPath_good (a :: p')) as [Hg Hb].
  destruct (stackOfPath (a :: p')) as [|x rs] eqn:E.
  - destruct (IS_ABSOLUTE_RE _); [reflexivity|].
    destruct (eqb (a :: p') DOT) eqn:D; [|reflexivity].
    apply eqb_eq in D. rewrite D in T. discriminate.
  - assert (Hne : x :: rs <> []) by discriminate.
    assert (F : forall pre, endsWith (pre ++ tailed true (render (x :: rs))) SLASH = true).
    { intro pre. now rewrite (endsWith_tailed pre true (x :: rs) Hne Hg). }
    destruct (UNC_REGEX _); [destruct (startsWith _ _)|destruct (_ && _)];
      first [apply F|apply (F [])].
Qed.

(** *** [join] *)

Lemma joinLoop_closed (segments : list str) :
  forall joined,
    joinLoop segments joined =
      match filterNonEmpty segments with
      | [] => joined
      | l => if isEmpty joined then JsString.join SLASH l
             else joined ++ SLASH ++ JsString.join SLASH l
      end.
Proof.
  induction segments as [|s rest IH]; intro joined; cbn [joinLoop filterNonEmpty filter].
  - reflexivity.
  - rewrite IH. destruct s as [|c s]; cbn [isEmpty negb].
    + reflexivity.
    + change (len (c :: s) >? 0)%Z with true.
      fold (filterNonEmpty rest).
      destruct joined as [|d j].
      * change (len [] =? 0)%Z with true. cbn [isEmpty].
        destruct (filterNonEmpty rest) as [|y l]; reflexivity.
      * assert (E : (len (d :: j) =? 0)%Z = false).
        { apply Z.eqb_neq. unfold len. cbn [List.length]. lia. }
        rewrite E. cbn [isEmpty].
        destruct (filterNonEmpty rest) as [|y l]; [reflexivity|].
        cbn [app isEmpty JsString.join]. now rewrite <- !app_assoc.
Qed.

Lemma join_filtered (segments : list str) :
  join segments =
    match filterNonEmpty segments with
    | [] => DOT
    | l => normalize (JsString.join SLASH l)
    end.
Proof.
  unfold join. destruct segments as [|s rest]; [reflexivity|].
  rewrite joinLoop_closed. unfold EMPTY. cbn [isEmpty list_ascii_of_string].
  destruct (filterNonEmpty (s :: rest)) as [|y l] eqn:E; [reflexivity|].
  assert (N : JsString.join SLASH (y :: l) <> []).
  { assert (Hy : y <> []).
    { assert (In y (filterNonEmpty (s :: rest))) by (rewrite E; now left).
      apply filter_In in H as [_ H]. now destruct y. }
    cbn [JsString.join]. destruct l; [exact Hy|]. now destruct y. }
  destruct (Z.eqb_spec (len (JsString.join SLASH (y :: l))) 0) as [Z|_]; [|reflexivity].
  apply len_zero in Z. contradiction.
Qed.

(** X4: [join] is [normalize] applied to the non-empty segments joined by
    slashes, and ["."] when there is none; so empty segments do not count. *)
Theorem join_closed_form (segments : list str) :
  join segments =
    match filterNonEmpty segments with
    | [] => DOT
    | l => normalize (JsString.join SLASH l)
    end
  /\ join (filterNonEmpty segments) = join segments.
Proof.
  split; [apply join_filtered|].
  rewrite (join_filtered (filterNonEmpty segments)), (join_filtered segments).
  assert (I : filterNonEmpty (filterNonEmpty segments) = filterNonEmpty segments).
  { unfold filterNonEmpty. induction segments as [|s l IH]; [reflexivity|].
    cbn [filter]. destruct s; cbn [isEmpty negb filter]; [exact IH|now rewrite IH]. }
  now rewrite I.
Qed.

(** *** [resolve] *)

Lemma resolve_stack (pc : option str) (args : list str) :
  IS_ABSOLUTE_RE (normalizeWindowsPath (cwd pc)) = true ->
  exists rs,
    Forall goodSeg rs /\ Forall (lacks "\") rs /\ Forall plain rs
    /\ resolve pc args = post (render rs).
Proof.
  intro Hc. unfold resolve, EMPTY. cbn [list_ascii_of_string].
  pose proof (resolveLoop_last (rev args) (cwd pc) Hc []) as Hb.
  destruct (resolveLoop_shape (rev args ++ [cwd pc])) as [Hl _].
  change (list ascii) with str in *. revert Hb Hl.
  generalize (resolveLoop (rev args ++ [cwd pc]) []). intros [P b] Hb Hl.
  cbn [fst snd] in *. subst b. cbv beta iota zeta. cbn [negb].
  exists (normalizeSegments false (split "/" P) []).
  rewrite normalizeString_segments. repeat split.
  - apply normalizeSegments_good; [apply split_pieces_lack|constructor].
  - apply normalizeSegments_Forall.
    + repeat constructor; discriminate.
    + now apply split_pieces_Forall.
    + constructor.
  - apply normalizeSegments_plain. constructor.
Qed.

(** X5: when the working directory is an absolute path, [resolve] returns
    an absolute path without backslash, whatever its arguments. *)
Theorem resolve_is_absolute (pc : option str) (args : list str) :
  IS_ABSOLUTE_RE (normalizeWindowsPath (cwd pc)) = true ->
  IS_ABSOLUTE_RE (resolve pc args) = true /\ lacks "\" (resolve pc args).
Proof.
  intro Hc. destruct (resolve_stack pc args Hc) as (rs & Hg & Hb & _ & ->).
  split; [now apply post_absolute|].
  unfold post. destruct (IS_ABSOLUTE_RE (render rs)).
  - apply render_lacks; [discriminate|exact Hb].
  - apply lacks_app; [repeat constructor; discriminate|].
    apply render_lacks; [discriminate|exact Hb].
Qed.

Definition windowsArgs : list str :=
  ["src" : str; "..\lib" : str; EMPTY; "a.ts" : str].

Lemma resolve_is_absolute_witness :
  IS_ABSOLUTE_RE (resolve (Some ("C:\work" : str)) windowsArgs) = true
  /\ lacks "\" (resolve (Some ("C:\work" : str)) windowsArgs).
Proof.
  apply (resolve_is_absolute (Some ("C:\work" : str)) windowsArgs).
  reflexivity.
Defined.

Lemma resolveLoop_stops (a : str) (v rest rest' : list str) :
  IS_ABSOLUTE_RE (normalizeWindowsPath a) = true ->
  forall acc,
    resolveLoop (v ++ a :: rest) acc = resolveLoop (v ++ a :: rest') acc.
Proof.
  intro Ha. induction v as [|x v IH]; intro acc; cbn [app]; rewrite !resolveLoop_cons.
  - destruct (Z.eqb_spec (len a) 0) as [E|_].
    + apply len_zero in E. subst a. discriminate.
    + now rewrite Ha.
  - destruct (len x =? 0)%Z; [apply IH|].
    destruct (IS_ABSOLUTE_RE (normalizeWindowsPath x)); [reflexivity|apply IH].
Qed.

Lemma resolveLoop_skips_empty (v : list str) :
  forall acc, resolveLoop (filterNonEmpty v) acc = resolveLoop v acc.
Proof.
  induction v as [|x v IH]; intro acc; [reflexivity|].
  destruct x as [|c x]; cbn [filterNonEmpty filter isEmpty negb].
  - rewrite resolveLoop_cons. change (len [] =? 0)%Z with true. apply IH.
  - fold (filterNonEmpty v). rewrite !resolveLoop_cons.
    destruct (len (c :: x) =? 0)%Z; [apply IH|].
    destruct (IS_ABSOLUTE_RE _); [reflexivity|apply IH].
Qed.

(** X6: [resolve] reads its arguments from the right and stops at the
    first absolute one: the arguments to its left and the working
    directory play no part.  Empty arguments are passed over, in every
    list of arguments. *)
Theorem resolve_rightmost_absolute (pc pc' : option str) (left right args : list str)
        (a : str) :
  (IS_ABSOLUTE_RE (normalizeWindowsPath a) = true ->
   resolve pc (left ++ a :: right) = resolve pc' (a :: right))
  /\ resolve pc (filterNonEmpty args) = resolve pc args.
Proof.
  split.
  - intro Ha. unfold resolve. rewrite rev_app_distr. cbn [rev]. rewrite <- !app_assoc.
    cbn [app].
    now rewrite (resolveLoop_stops a (rev right) (rev left ++ [cwd pc]) ([] ++ [cwd pc'])).
  - unfold resolve.
    assert (E : forall l d acc,
               resolveLoop (rev (filterNonEmpty l) ++ [d]) acc
               = resolveLoop (rev l ++ [d]) acc).
    { intros l d acc.
      rewrite <- (resolveLoop_skips_empty (rev l ++ [d])).
      rewrite <- (resolveLoop_skips_empty (rev (filterNonEmpty l) ++ [d])).
      f_equal. unfold filterNonEmpty. rewrite !filter_app, !filter_rev.
      f_equal. f_equal.
      induction l as [|s l IH]; [reflexivity|].
      cbn [filter]. destruct s; cbn [isEmpty negb filter]; [exact IH|now rewrite IH]. }
    now rewrite E.
Qed.

Definition relativeArgs : list str := ["a" : str; EMPTY; "b" : str; EMPTY].

Lemma resolve_rightmost_absolute_witness :
  resolve (Some ("/home/u" : str)) (["a" : str; EMPTY] ++ ["/etc" : str; EMPTY; "x" : str])
  = resolve None ["/etc" : str; EMPTY; "x" : str]
  /\ resolve (Some ("/home/u" : str)) (filterNonEmpty relativeArgs)
     = resolve (Some ("/home/u" : str)) relativeArgs
  /\ filterNonEmpty relativeArgs = ["a" : str; "b" : str]
  /\ resolve (Some ("/home/u" : str)) relativeArgs = "/home/u/a/b".
Proof.
  destruct (resolve_rightmost_absolute (Some ("/home/u" : str)) None
              ["a" : str; EMPTY] [EMPTY; "x" : str] relativeArgs "/etc") as [H1 H2].
  split; [exact (H1 eq_refl)|]. split; [exact H2|]. split; reflexivity.
Defined.

(** *** [relative] *)

Lemma resolve_nonempty (pc : option str) (args : list str) : resolve pc args <> [].
Proof.
  unfold resolve. destruct (resolveLoop _ _) as [P b]. cbv beta iota zeta.
  destruct b.
  - destruct (IS_ABSOLUTE_RE (normalizeString P (negb true))) eqn:E.
    + intro H. rewrite H in E. discriminate.
    + discriminate.
  - destruct (Z.gtb_spec (len (normalizeString P (negb false))) 0) as [H|H].
    + intro E. rewrite E in H. cbn in H. lia.
    + discriminate.
Qed.

(** X7: [relative] returns the empty string exactly when its two
    arguments resolve to the same path. *)
Theorem relative_empty_iff (pc : option str) (from to : str) :
  relative pc from to = [] <-> resolve pc [from] = resolve pc [to].
Proof.
  unfold relative. split.
  - destruct (eqb (resolve pc [from]) (resolve pc [to])) eqn:E.
    + intros _. now apply eqb_eq.
    + cbv zeta.
      match goal with
      | |- (if ?d then _ else _) = [] -> _ => destruct d
      end.
      * intro H. now apply resolve_nonempty in H.
      * match goal with
        | |- (if (len ?r >? 0)%Z then _ else _) = [] -> _ =>
            destruct (Z.gtb_spec (len r) 0) as [H|H]; intro H'
        end.
        -- rewrite H' in H. cbn in H. lia.
        -- discriminate.
  - intros ->. now rewrite eqb_refl.
Qed.

(** *** [basename], [extname], [dirname], [parse], [filename] *)

Lemma last_occurrence (ch : ascii) (s : str) :
  lacks ch s \/ exists a b, s = a ++ ch :: b /\ lacks ch b.
Proof.
  induction s as [|c s IH]; [left; constructor|].
  destruct IH as [IH|(a & b & -> & Hb)].
  - destruct (ascii_dec c ch) as [->|N].
    + right. now exists [], s.
    + left. now constructor.
  - right. now exists (c :: a), b.
Qed.

Lemma lacks_firstn (ch : ascii) (n : nat) (s : str) : lacks ch s -> lacks ch (firstn n s).
Proof.
  intro H. rewrite <- (firstn_skipn n s) in H. now apply Forall_app in H.
Qed.

Lemma lacks_skipn (ch : ascii) (n : nat) (s : str) : lacks ch s -> lacks ch (skipn n s).
Proof.
  intro H. rewrite <- (firstn_skipn n s) in H. now apply Forall_app in H.
Qed.

Lemma lacks_slice (ch : ascii) (s : str) (a b : Z) : lacks ch s -> lacks ch (slice s a b).
Proof. intro H. unfold slice. now apply lacks_firstn, lacks_skipn. Qed.

Lemma trimTrailingSlashes_le (s : str) (e : nat) : (trimTrailingSlashes s e <= e)%nat.
Proof.
  induction e as [|e IH]; cbn [trimTrailingSlashes]; [lia|].
  destruct (charIs _ _); lia.
Qed.

Lemma slice_after (a b c : str) (ch : ascii) :
  slice (a ++ ch :: b ++ c) (len a + 1) (len a + 1 + len b) = b.
Proof.
  pose proof (slice_middle (a ++ [ch]) b c) as H.
  rewrite <- !app_assoc in H. cbn [app] in H.
  rewrite len_app in H. exact H.
Qed.

Lemma slice_firstn (s : str) (n : nat) :
  (n <= List.length s)%nat -> slice s 0 (Z.of_nat n) = firstn n s.
Proof.
  intro H. rewrite <- (firstn_skipn n s) at 1.
  assert (E : Z.of_nat n = len (firstn n s)).
  { unfold len. rewrite length_firstn. lia. }
  rewrite E. apply slice_prefix.
Qed.

Lemma basename_lacks (p : str) (ext : option str) :
  lacks "/" (basename p ext) /\ lacks "\" (basename p ext).
Proof.
  unfold basename.
  set (np := normalizeWindowsPath p).
  set (e := trimTrailingSlashes np (List.length np)).
  assert (He : (e <= List.length np)%nat) by apply trimTrailingSlashes_le.
  destruct (Z.eqb_spec (Z.of_nat e) 0) as [_|Hz]; [split; constructor|].
  cbv zeta.
  set (start := lastIndexOfFrom np "/" (Z.of_nat e - 1)).
  set (fname := slice np (if (start =? -1)%Z then 0%Z else (start + 1)%Z) (Z.of_nat e)).
  assert (F : lacks "/" fname /\ lacks "\" fname).
  { split; [|apply lacks_slice, normalizeWindowsPath_lacks].
    unfold fname, start, lastIndexOfFrom.
    replace (Z.to_nat (Z.of_nat e - 1 + 1)) with e by lia.
    destruct (last_occurrence "/" (firstn e np)) as [L|(a & b & E & L)].
    - rewrite lastIndexOf_lacks by exact L. cbn [Z.eqb].
      rewrite slice_firstn by exact He. exact L.
    - rewrite E, lastIndexOf_app by exact L.
      assert (Hn : (len a =? -1)%Z = false).
      { apply Z.eqb_neq. pose proof (len_nonneg a). lia. }
      rewrite Hn.
      assert (El : Z.of_nat e = (len a + 1 + len b)%Z).
      { assert (H : List.length (firstn e np) = e) by (rewrite length_firstn; lia).
        rewrite E, length_app in H. cbn [List.length] in H. unfold len. lia. }
      rewrite El. rewrite <- (firstn_skipn e np), E, <- app_assoc. cbn [app].
      now rewrite slice_after. }
  destruct F as [F1 F2].
  destruct ext as [x|]; [|now split].
  destruct (_ && _); [|now split].
  split; now apply lacks_slice.
Qed.

Lemma substringFrom_suffix (s : str) (k : Z) :
  exists a, s = a ++ substringFrom s k.
Proof.
  unfold substringFrom. exists (firstn (Z.to_nat (Z.max k 0)) s).
  now rewrite firstn_skipn.
Qed.

Lemma endsWith_suffix (a b : str) : endsWith (a ++ b) b = true.
Proof. apply endsWith_app. Qed.

Lemma substringFrom_app (a b : str) : substringFrom (a ++ b) (len a) = b.
Proof.
  unfold substringFrom. rewrite Z.max_l by apply len_nonneg.
  unfold len. rewrite Nat2Z.id. now rewrite skipn_app, skipn_all, Nat.sub_diag.
Qed.

(** The part of a path after its last slash, as [extname] takes it *)
Lemma extname_basePart (path : str) :
  let lastSlashIdx := lastIndexOf path "/" in
  let lastSlashIdx := if (lastSlashIdx =? -1)%Z then 0%Z else lastSlashIdx in
  let basePart := if (lastSlashIdx =? 0)%Z then path
                  else substringFrom path (lastSlashIdx + 1) in
  (exists a, path = a ++ basePart)
  /\ (lacks "/" basePart \/ exists r, basePart = "/"%char :: r /\ lacks "/" r).
Proof.
  cbv zeta. destruct (last_occurrence "/" path) as [L|(a & b & E & L)].
  - rewrite lastIndexOf_lacks by exact L. cbn [Z.eqb].
    split; [now exists []|now left].
  - rewrite E, lastIndexOf_app by exact L.
    assert (Hn : (len a =? -1)%Z = false).
    { apply Z.eqb_neq. pose proof (len_nonneg a). lia. }
    rewrite Hn. destruct (Z.eqb_spec (len a) 0) as [Z|Z].
    + apply len_zero in Z. subst a. split; [now exists []|right; now exists b].
    + replace (a ++ "/"%char :: b) with ((a ++ ["/"%char]) ++ b)
        by now rewrite <- app_assoc.
      replace (len a + 1)%Z with (len (a ++ ["/"%char])) by now rewrite len_app.
      rewrite substringFrom_app. split; [now exists (a ++ ["/"%char])|now left].
Qed.

(** X9: [extname] returns either the empty string or a dot followed by
    characters among which there is neither dot nor slash, and what it
    returns is the end of the path as [normalizeWindowsPath] leaves it. *)
Theorem extname_shape (p : str) :
  endsWith (normalizeWindowsPath p) (extname p) = true
  /\ (extname p = []
      \/ exists e, extname p = "."%char :: e /\ lacks "." e /\ lacks "/" e).
Proof.
  unfold extname.
  destruct (extname_basePart (normalizeWindowsPath p)) as [[a0 Ea] Hb].
  cbv zeta in *.
  set (basePart :=
         if ((if (lastIndexOf (normalizeWindowsPath p) "/" =? -1)%Z then 0%Z
              else lastIndexOf (normalizeWindowsPath p) "/") =? 0)%Z
         then normalizeWindowsPath p
         else substringFrom (normalizeWindowsPath p)
                ((if (lastIndexOf (normalizeWindowsPath p) "/" =? -1)%Z then 0%Z
                  else lastIndexOf (normalizeWindowsPath p) "/") + 1)) in *.
  assert (Hnil : endsWith (normalizeWindowsPath p) EMPTY = true).
  { unfold endsWith, EMPTY. reflexivity. }
  destruct (eqb basePart DOT || eqb basePart DOUBLE_DOT); [split; [exact Hnil|now left]|].
  destruct (last_occurrence "." basePart) as [L|(a & b & E & L)].
  - rewrite lastIndexOf_lacks by exact L. cbn [Z.leb Z.compare].
    split; [exact Hnil|now left].
  - rewrite E, lastIndexOf_app by exact L.
    destruct (Z.leb_spec (len a) 0) as [Z|Z]; [split; [exact Hnil|now left]|].
    replace (a ++ "."%char :: b) with (a ++ ("."%char :: b)) by reflexivity.
    rewrite substringFrom_app. split.
    + rewrite Ea, E, app_assoc. apply endsWith_app.
    + right. exists b. split; [reflexivity|]. split; [exact L|].
      destruct Hb as [Hb|(r & Er & Hr)].
      * rewrite E in Hb. apply Forall_app in Hb as [_ Hb]. now inversion Hb.
      * rewrite E in Er. destruct a as [|c a]; [cbn in Z; lia|].
        injection Er as _ Er. rewrite <- Er in Hr.
        apply Forall_app in Hr as [_ Hr]. now inversion Hr.
Qed.

(** X11: [dirname] never returns the empty string, and its result holds
    no backslash. *)
Theorem dirname_nonempty_no_backslash (p : str) :
  dirname p <> [] /\ lacks "\" (dirname p).
Proof.
  assert (D : DOT <> [] /\ lacks "\" DOT) by (split; [|repeat constructor]; discriminate).
  assert (S : SLASH <> [] /\ lacks "\" SLASH) by (split; [|repeat constructor]; discriminate).
  unfold dirname. destruct (len p =? 0)%Z; [exact D|]. cbv zeta.
  destruct (lastIndexOf (normalizeWindowsPath p) "/" =? -1)%Z.
  { destruct (IS_ABSOLUTE_RE _); assumption. }
  destruct (lastIndexOf (normalizeWindowsPath p) "/" =? 0)%Z; [exact S|].
  destruct (_ && _).
  - split; [now destruct (slice _ _ _)|].
    apply lacks_app; [|apply S]. apply lacks_slice, normalizeWindowsPath_lacks.
  - apply normalize_result.
Qed.

Lemma basename_plain (b : str) :
  lacks "/" b -> lacks "\" b ->
  extname b = (if eqb b DOT || eqb b DOUBLE_DOT then EMPTY
               else if (lastIndexOf b "." <=? 0)%Z then EMPTY
                    else substringFrom b (lastIndexOf b ".")).
Proof.
  intros Hs Hb. unfold extname.
  rewrite normalizeWindowsPath_id.
  - rewrite lastIndexOf_lacks by exact Hs. reflexivity.
  - exact Hb.
  - destruct b as [|c1 [|c2 [|c3 r]]]; try reflexivity.
    unfold DRIVE_LETTER_START_RE.
    inversion Hs as [|? ? _ H1]; subst. inversion H1 as [|? ? _ H2]; subst.
    inversion H2 as [|? ? H3 _]; subst.
    apply Ascii.eqb_neq in H3. rewrite H3. apply andb_false_r.
Qed.

(** X10: in the record that [parse] returns, [base] is [basename] of the
    path, [ext] is [extname] of that base, and [base] is [name] followed
    by [ext]. *)
Theorem parse_base_is_name_ext (p : str) :
  base (parse p) = basename p None
  /\ ext (parse p) = extname (base (parse p))
  /\ base (parse p) = name (parse p) ++ ext (parse p).
Proof.
  unfold parse. cbn [base ext name].
  assert (B : basename (normalizeWindowsPath p) None = basename p None).
  { unfold basename. now rewrite normalizeWindowsPath_idem. }
  rewrite B. split; [reflexivity|]. split; [reflexivity|].
  destruct (basename_lacks p None) as [Hs Hb].
  set (b := basename p None) in *.
  rewrite (basename_plain b Hs Hb).
  destruct (eqb b DOT || eqb b DOUBLE_DOT).
  { unfold EMPTY. cbn [len List.length Z.of_nat]. rewrite Z.sub_0_r.
    change (len b) with (Z.of_nat (List.length b)).
    now rewrite slice_firstn, firstn_all, app_nil_r. }
  destruct (last_occurrence "." b) as [L|(a & c & E & L)].
  - rewrite lastIndexOf_lacks by exact L. cbn [Z.leb Z.compare].
    unfold EMPTY. cbn [len List.length Z.of_nat]. rewrite Z.sub_0_r.
    change (len b) with (Z.of_nat (List.length b)).
    now rewrite slice_firstn, firstn_all, app_nil_r.
  - rewrite E, lastIndexOf_app by exact L.
    destruct (Z.leb_spec (len a) 0) as [Z|Z].
    + unfold EMPTY. cbn [len List.length Z.of_nat]. rewrite Z.sub_0_r.
      change (len (a ++ "."%char :: c)) with (Z.of_nat (List.length (a ++ "."%char :: c))).
      now rewrite slice_firstn, firstn_all, app_nil_r.
    + rewrite substringFrom_app.
      replace (len (a ++ "."%char :: c) - len ("."%char :: c))%Z with (len a)
        by (rewrite len_app; lia).
      now rewrite slice_prefix.
Qed.

(** X12: [filename] answers [undefined] exactly when [basename] is empty;
    otherwise it returns a non-empty head of the basename, the whole of it
    when no dot occurs after its first character. *)
Theorem filename_is_head_of_basename (p : str) :
  (filename p = None <-> basename p None = [])
  /\ (forall n, filename p = Some n ->
                n <> [] /\ startsWith (basename p None) n = true
                /\ (lastIndexOf (basename p None) "." <= 0 -> n = basename p None)%Z).
Proof.
  unfold filename. set (b := basename p None). split.
  - destruct b; cbn [isEmpty]; split; congruence.
  - intros n. destruct b as [|c b'] eqn:Eb; cbn [isEmpty]; [discriminate|].
    intro H. injection H as <-.
    destruct (Z.leb_spec (lastIndexOf (c :: b') ".") 0) as [Z|Z].
    + split; [discriminate|]. split; [|reflexivity].
      rewrite <- (app_nil_r (c :: b')) at 1. apply startsWith_app.
    + destruct (last_occurrence "." (c :: b')) as [L|(a & d & E & L)].
      * rewrite lastIndexOf_lacks in Z by exact L. lia.
      * rewrite E in *. rewrite lastIndexOf_app in * by exact L.
        rewrite slice_prefix. split; [|split; [apply startsWith_app|lia]].
        destruct a; [cbn in Z; lia|discriminate].
Qed.

Lemma endsWith_inv (s x : str) : endsWith s x = true -> exists a, s = a ++ x.
Proof.
  unfold endsWith. intro H. apply startsWith_inv in H as [t H].
  exists (rev t). apply (f_equal (@rev ascii)) in H.
  now rewrite rev_involutive, rev_app_distr, rev_involutive in H.
Qed.

(** X8: the result of [basename] holds no slash and no backslash; a suffix
    given as second argument is removed from the end of the name or not at
    all, and never when it is the whole name. *)
Theorem basename_has_no_separator (p : str) (ext : option str) :
  lacks "/" (basename p ext) /\ lacks "\" (basename p ext)
  /\ (basename p ext = basename p None
      \/ exists x, ext = Some x /\ basename p ext <> []
                   /\ basename p None = basename p ext ++ x).
Proof.
  destruct (basename_lacks p ext) as [H1 H2]. split; [exact H1|split; [exact H2|]].
  destruct ext as [x|]; [|now left].
  unfold basename. destruct (_ =? 0)%Z; [now left|]. cbv zeta.
  match goal with
  | |- context [slice (normalizeWindowsPath p) ?a ?b] =>
      set (fname := slice (normalizeWindowsPath p) a b)
  end.
  destruct (negb (isEmpty x) && endsWith fname x && negb (eqb fname x)) eqn:C; [|now left].
  right. exists x. apply andb_true_iff in C as [C N]. apply andb_true_iff in C as [_ E].
  apply endsWith_inv in E as [a E]. rewrite E in *.
  replace (len (a ++ x) - len x)%Z with (len a) by (rewrite len_app; lia).
  rewrite slice_prefix. repeat split.
  apply negb_true_iff, eqb_neq in N. intros ->. now apply N.
Qed.

End PathAlgebraFacts.

(** ** Lookup in the alias table *)

Module AliasLookupFacts.
Import JsString JsStringFacts PathKit AliasTable.

Lemma effective_self (s : str) :
  startsWith (if endsWith s SLASH then s else s ++ SLASH)
             (if endsWith s SLASH then s else s ++ SLASH) = true.
Proof.
  set (e := if endsWith s SLASH then s else s ++ SLASH).
  rewrite <- (app_nil_r e) at 1. apply startsWith_app.
Qed.

Lemma sliceFrom_all (s : str) : sliceFrom s (len s) = [].
Proof.
  unfold sliceFrom, slice. rewrite clampIndex_in_range.
  - now rewrite Z.sub_diag.
  - pose proof (len_nonneg s). lia.
Qed.

Lemma resolveAliasLoop_first (normalizedPath : str) (l : list (str * str)) :
  resolveAliasLoop normalizedPath l =
    match find (fun e => aliasMatches normalizedPath (fst e)) l with
    | Some (alias, to) => join [to; sliceFrom normalizedPath (len alias)]
    | None => normalizedPath
    end.
Proof.
  induction l as [|[alias to] rest IH]; [reflexivity|].
  cbn [resolveAliasLoop find fst]. unfold aliasMatches at 1.
  destruct (startsWith _ _) eqn:S; cbn [orb]; [reflexivity|].
  destruct (eqb normalizedPath alias) eqn:E; [|exact IH].
  apply eqb_eq in E. subst alias. now rewrite effective_self in S.
Qed.

(** X13: [resolveAlias] answers with the first entry of the normalized
    table whose alias matches the path, and then always with
    [join(to, rest)]: a path that is exactly an alias gives
    [join(to, empty)], the branch that would return [to] as it stands is
    never reached. *)
Theorem resolveAlias_first_match (h : Heap) (path : str) (aliases : Ref)
        (h1 : Heap) (table : Ref) :
  normalizeAliases h aliases = Some (h1, table) ->
  resolveAlias h path aliases =
    Some (h1,
          match find (fun e => aliasMatches (normalizeWindowsPath path) (fst e))
                     (entries (heapProps h1 table)) with
          | Some (alias, to) =>
              join [to; sliceFrom (normalizeWindowsPath path) (len alias)]
          | None => normalizeWindowsPath path
          end)
  /\ (forall to rest,
         entries (heapProps h1 table) = (normalizeWindowsPath path, to) :: rest ->
         resolveAlias h path aliases = Some (h1, join [to])).
Proof.
  intro H. unfold resolveAlias. rewrite H. split.
  - now rewrite resolveAliasLoop_first.
  - intros to rest E. rewrite E. cbn [resolveAliasLoop].
    now rewrite effective_self, sliceFrom_all.
Qed.

Definition sampleTable : JsObject :=
  mkObject [("@" : str, "/src" : str); ("@/lib" : str, "/vendor/lib" : str)] false.

Definition sampleNormalized : Heap * Ref :=
  match normalizeAliases [sampleTable] 0 with
  | Some hr => hr
  | None => ([], 0)
  end.

Lemma resolveAlias_first_match_witness :
  resolveAlias [sampleTable] "@\lib\a.ts" 0
  = Some (fst sampleNormalized, "/vendor/lib/a.ts" : str).
Proof.
  destruct (resolveAlias_first_match [sampleTable] "@\lib\a.ts" 0
              (fst sampleNormalized) (snd sampleNormalized) eq_refl) as [H _].
  rewrite H. reflexivity.
Defined.

(** *** [reverseResolveAlias] *)

(** Lengths never grow along the list *)
Fixpoint descending (l : list str) : Prop :=
  match l with
  | [] => True
  | x :: t => match t with
              | [] => True
              | y :: _ => (len y <= len x)%Z
              end /\ descending t
  end.

Lemma insertByLength_In (x r : str) (l : list str) :
  In r (insertByLength x l) <-> r = x \/ In r l.
Proof.
  induction l as [|y t IH]; cbn [insertByLength].
  - cbn. intuition congruence.
  - destruct (len y - len x <? 0)%Z.
    + cbn. intuition congruence.
    + cbn [In]. rewrite IH. intuition congruence.
Qed.

Lemma insertByLength_descending (x : str) (l : list str) :
  descending l -> descending (insertByLength x l).
Proof.
  induction l as [|y t IH]; intro D; cbn [insertByLength].
  - cbn. auto.
  - destruct (Z.ltb_spec (len y - len x) 0) as [L|L].
    + split; [lia|exact D].
    + destruct D as [D1 D2]. specialize (IH D2). split; [|exact IH].
      destruct t as [|z t']; cbn [insertByLength] in *; [lia|].
      destruct (len z - len x <? 0)%Z; [lia|exact D1].
Qed.

Lemma sortByLength_spec (l : list str) :
  forall acc, descending acc ->
    descending (fold_left (fun acc x => insertByLength x acc) l acc)
    /\ (forall r, In r (fold_left (fun acc x => insertByLength x acc) l acc)
                  <-> In r l \/ In r acc).
Proof.
  induction l as [|x l IH]; intros acc D; cbn [fold_left].
  - split; [exact D|]. intro r. cbn. intuition.
  - destruct (IH (insertByLength x acc) (insertByLength_descending x acc D)) as [A B].
    split; [exact A|]. intro r. rewrite B, insertByLength_In. cbn [In]. intuition congruence.
Qed.

(** What one entry of the table contributes for a normalized path *)
Definition reverseCandidate (normalizedPath : str) (e : str * str) (r : str) : Prop :=
  let (alias, to) := e in
  (startsWith (if endsWith normalizedPath SLASH then normalizedPath
               else normalizedPath ++ SLASH)
              (if endsWith to SLASH then to else to ++ SLASH) = true
   /\ r = join [alias; sliceFrom normalizedPath (len to)])
  \/ (normalizedPath = to /\ r = alias).

Lemma reverseMatches_In (normalizedPath : str) (l : list (str * str)) (r : str) :
  In r (reverseMatches normalizedPath l)
  <-> exists e, In e l /\ reverseCandidate normalizedPath e r.
Proof.
  induction l as [|[alias to] rest IH]; cbn [reverseMatches].
  - split; [intros []|intros (e & [] & _)].
  - rewrite !in_app_iff, IH. unfold reverseCandidate at 2. split.
    + intros [H|[H|(e & He & Hr)]].
      * destruct (startsWith _ _) eqn:S; [|destruct H].
        destruct H as [<-|[]]. exists (alias, to). split; [now left|].
        left. now split.
      * destruct (eqb normalizedPath to) eqn:E; [|destruct H].
        destruct H as [<-|[]]. apply eqb_eq in E. exists (alias, to).
        split; [now left|]. right. now split.
      * exists e. split; [now right|exact Hr].
    + intros (e & [<-|He] & Hr).
      * destruct Hr as [[S ->]|[E ->]].
        -- left. rewrite S. now left.
        -- right. left. subst to. rewrite eqb_refl. now left.
      * right. right. now exists e.
Qed.

(** X30: the aliased paths that [reverseResolveAlias] returns are ordered
    by length, longest first, and are exactly what the entries of the
    normalized table contribute: [join(alias, rest)] for an entry whose
    target begins the path, and the alias itself for an entry whose
    target is the path. *)
Theorem reverseResolveAlias_sorted_candidates (h : Heap) (path : str) (aliases : Ref)
        (h1 : Heap) (table : Ref) :
  normalizeAliases h aliases = Some (h1, table) ->
  exists results,
    reverseResolveAlias h path aliases = Some (h1, results)
    /\ descending results
    /\ (forall r, In r results <->
                  exists e, In e (entries (heapProps h1 table))
                            /\ reverseCandidate (normalizeWindowsPath path) e r).
Proof.
  intro H. unfold reverseResolveAlias. rewrite H. eexists. split; [reflexivity|].
  destruct (sortByLength_spec
              (reverseMatches (normalizeWindowsPath path) (entries (heapProps h1 table)))
              [] I) as [A B].
  split; [exact A|]. intro r. rewrite B, <- reverseMatches_In. cbn [In]. intuition.
Qed.

Lemma reverseResolveAlias_sorted_candidates_witness :
  exists results,
    reverseResolveAlias [sampleTable] "\vendor\lib\a.ts" 0
    = Some (fst sampleNormalized, results)
    /\ descending results
    /\ (forall r, In r results <->
                  exists e, In e (entries (heapProps (fst sampleNormalized)
                                                     (snd sampleNormalized)))
                            /\ reverseCandidate (normalizeWindowsPath "\vendor\lib\a.ts") e r).
Proof.
  apply (reverseResolveAlias_sorted_candidates [sampleTable] "\vendor\lib\a.ts" 0
           (fst sampleNormalized) (snd sampleNormalized)).
  reflexivity.
Defined.

End AliasLookupFacts.

(** ** What every record of a scan satisfies *)

Module ScannerRecordFacts.
Import JsString JsStringFacts Scanner.

Lemma pushToGroup_Forall (Q : ImportExportInfo -> Prop) (key : str)
      (curr : ImportExportInfo) (acc : list (str * list ImportExportInfo)) :
  Q curr ->
  Forall (fun kg => Forall Q (snd kg)) acc ->
  Forall (fun kg => Forall Q (snd kg)) (pushToGroup key curr acc).
Proof.
  intros Hc. induction 1 as [|[k g] t H Ht IH]; cbn [pushToGroup].
  - repeat constructor. exact Hc.
  - destruct (eqb k key); constructor; try assumption.
    cbn [snd] in *. apply Forall_app. split; [assumption|]. now constructor.
Qed.

Lemma groupByType_Forall (Q : ImportExportInfo -> Prop) (results : list ImportExportInfo) :
  Forall Q results -> Forall (fun kg => Forall Q (snd kg)) (groupByType results).
Proof.
  unfold groupByType.
  assert (G : forall acc, Forall Q results ->
                Forall (fun kg => Forall Q (snd kg)) acc ->
                Forall (fun kg => Forall Q (snd kg))
                       (fold_left (fun acc curr => pushToGroup (bucketKey curr) curr acc)
                                  results acc)).
  { induction results as [|x l IH]; intros acc H Ha; cbn [fold_left]; [exact Ha|].
    inversion H; subst. apply IH; [assumption|]. now apply pushToGroup_Forall. }
  intro H. apply G; [exact H|constructor].
Qed.

Lemma arraySlice_Forall {A} (Q : A -> Prop) (l : list A) (a b : Z) :
  Forall Q l -> Forall Q (arraySlice l a b).
Proof.
  intro H. unfold arraySlice.
  set (n := Z.to_nat _). set (m := Z.to_nat _).
  assert (S : Forall Q (skipn m l)).
  { rewrite <- (firstn_skipn m l) in H. now apply Forall_app in H. }
  rewrite <- (firstn_skipn n (skipn m l)) in S. now apply Forall_app in S.
Qed.

Lemma applyLimit_Forall (Q : ImportExportInfo -> Prop) (limitPerType : option Z)
      (results : list ImportExportInfo) :
  Forall Q results -> Forall Q (applyLimit limitPerType results).
Proof.
  intro H. unfold applyLimit. destruct limitPerType as [n|]; [|exact H].
  destruct (n =? 0)%Z; [exact H|].
  pose proof (groupByType_Forall Q results H) as G.
  induction G as [|kg t Hk Ht IH]; cbn [flat_map]; [constructor|].
  apply Forall_app. split; [now apply arraySlice_Forall|exact IH].
Qed.

Section WithRegExp.

Variable matchAll : Pattern -> str -> list RegExpMatch.
Variable exec : Pattern -> str -> option RegExpMatch.

Definition kindAllowed (k : option KindFilter) (i : ImportExportInfo) : Prop :=
  match k with
  | Some OnlyImport => kind i = KImport
  | Some OnlyExport => kind i = KExport
  | Some All | None => True
  end.

Definition pathTypeAllowed (pts : option (list PathType)) (i : ImportExportInfo) : Prop :=
  match pts, pathType i with
  | Some l, Some t => In t l
  | _, _ => True
  end.

Lemma pathType_eqb_eq (a b : PathType) : pathType_eqb a b = true -> a = b.
Proof. destruct a, b; cbn; congruence. Qed.

Lemma includesType_In (l : list PathType) (t : PathType) :
  includesType l t = true -> In t l.
Proof.
  unfold includesType. intro H. apply existsb_exists in H as (x & Hx & E).
  apply pathType_eqb_eq in E. now subst.
Qed.

(** What the loops build, whatever the options *)
Definition recordInvariant (i : ImportExportInfo) : Prop :=
  end_ i = (start i + len (statement i))%Z
  /\ (pathType i = None <-> source i = None)
  /\ (forall t, pathType i = Some t -> exists s, source i = Some s /\ s <> []
                                                 /\ t = getPathType s)
  /\ (pathTypeSymbol i <> None -> pathType i = Some PtAlias)
  /\ (type i = Dynamic -> kind i = KImport /\ specifiers i = []).

Lemma sourcedInfo_records (Q : ImportExportInfo -> Prop) (pathTypes : list PathType)
      (ty : StatementType) (k : Kind) (typeOnly withSp : bool) (m : RegExpMatch)
      (src : option str) :
  (forall s, truthy src = Some s -> includesType pathTypes (getPathType s) = true ->
             Q (mkInfo (wholeMatch m) ty k (Some s) (Some (getPathType s))
                       (if pathType_eqb (getPathType s) PtAlias then aliasSymbol s else None)
                       typeOnly
                       (if withSp then extractSpecifiers exec (wholeMatch m) else [])
                       (m_index m) (endOf m))) ->
  Forall Q (sourcedInfo exec pathTypes ty k typeOnly withSp m src).
Proof.
  intro H. unfold sourcedInfo. destruct (truthy src) as [s|] eqn:E; [|constructor].
  destruct (includesType pathTypes (getPathType s)) eqn:I; cbn [negb]; [|constructor].
  repeat constructor. now apply H.
Qed.

Lemma truthy_nonempty (g : option str) (s : str) : truthy g = Some s -> s <> [].
Proof.
  unfold truthy. destruct g as [x|]; [|discriminate].
  destruct x; cbn [isEmpty]; [discriminate|]. intro H. injection H as <-. discriminate.
Qed.

Lemma Forall_flat_map {A B} (Q : B -> Prop) (f : A -> list B) (l : list A) :
  (forall a, Forall Q (f a)) -> Forall Q (flat_map f l).
Proof.
  intro H. induction l as [|a l IH]; cbn [flat_map]; [constructor|].
  apply Forall_app. now split.
Qed.

Lemma scanResults_invariant (content : str) (options : GetFileImportsExportsOptions) :
  Forall (fun i => recordInvariant i /\ kindAllowed (opt_kind options) i
                   /\ pathTypeAllowed (opt_pathTypes options) i)
         (scanResults matchAll exec content options).
Proof.
  unfold scanResults.
  set (pts := match opt_pathTypes options with
              | Some l => l
              | None => [PtAlias; PtRelative; PtAbsolute; PtBare; PtModule]
              end).
  assert (Hp : forall t, includesType pts t = true ->
                         match opt_pathTypes options with Some l => In t l | None => True end).
  { intros t H. unfold pts in H. destruct (opt_pathTypes options); [|exact I].
    now apply includesType_In. }
  assert (Src : forall ty k typeOnly withSp m src,
             (ty = Dynamic -> k = KImport /\ withSp = false) ->
             Forall (fun i => recordInvariant i /\ kind i = k
                              /\ pathTypeAllowed (opt_pathTypes options) i)
                    (sourcedInfo exec pts ty k typeOnly withSp m src)).
  { intros ty k typeOnly withSp m src Hd. apply sourcedInfo_records.
    intros s Hs Hi. split; [|split; [reflexivity|]].
    - unfold recordInvariant.
      cbn [end_ start statement pathType source pathTypeSymbol type kind specifiers].
      split; [reflexivity|]. split; [split; discriminate|]. split.
      + intros t E. injection E as <-. exists s.
        split; [reflexivity|]. split; [now apply (truthy_nonempty src)|reflexivity].
      + split.
        * destruct (pathType_eqb (getPathType s) PtAlias) eqn:E; [|congruence].
          intros _. apply pathType_eqb_eq in E. now rewrite E.
        * intro E. destruct (Hd E) as [-> ->]. now split.
    - unfold pathTypeAllowed. cbn [pathType]. specialize (Hp _ Hi).
      destruct (opt_pathTypes options); [exact Hp|exact I]. }
  assert (Plain : forall m sp typeOnly,
             recordInvariant (mkInfo (wholeMatch m) Static KExport None None None typeOnly
                                     sp (m_index m) (endOf m))
             /\ pathTypeAllowed (opt_pathTypes options)
                  (mkInfo (wholeMatch m) Static KExport None None None typeOnly
                          sp (m_index m) (endOf m))).
  { intros m sp typeOnly. split.
    - unfold recordInvariant.
      cbn [end_ start statement pathType source pathTypeSymbol type kind specifiers].
      repeat split; try discriminate; try congruence.
    - unfold pathTypeAllowed. cbn [pathType]. now destruct (opt_pathTypes options). }
  assert (Imp : Forall (fun i => recordInvariant i /\ kind i = KImport
                                 /\ pathTypeAllowed (opt_pathTypes options) i)
                  (flat_map
                     (fun m => sourcedInfo exec pts Static KImport
                                 (includes (wholeMatch m) "import type") true m
                                 (orGroup (group m 1) (group m 3)))
                     (matchAll staticImport content)
                   ++ flat_map
                        (fun m => sourcedInfo exec pts Dynamic KImport false false m (group m 1))
                        (matchAll dynamicImport content))).
  { apply Forall_app. split; apply Forall_flat_map; intro m; apply Src;
      [discriminate|now split]. }
  assert (Exp : Forall (fun i => recordInvariant i /\ kind i = KExport
                                 /\ pathTypeAllowed (opt_pathTypes options) i)
                  (flat_map
                     (fun m => sourcedInfo exec pts Static KExport
                                 (includes (wholeMatch m) "export type") true m (group m 1))
                     (matchAll staticExport content)
                   ++ map
                        (fun m => mkInfo (wholeMatch m) Static KExport None None None false
                                    [mkSpecifier SpDefault "default" None None]
                                    (m_index m) (endOf m))
                        (matchAll defaultExport content)
                   ++ flat_map
                        (fun m =>
                           match truthy (group m 1) with
                           | None => []
                           | Some name =>
                               [mkInfo (wholeMatch m) Static KExport None None None
                                       (includes (wholeMatch m) "export type")
                                       [mkSpecifier SpNamed name None None]
                                       (m_index m) (endOf m)]
                           end)
                        (matchAll namedExport content))).
  { apply Forall_app. split; [apply Forall_flat_map; intro m; apply Src; discriminate|].
    apply Forall_app. split.
    - apply Forall_map, Forall_forall. intros m _.
      destruct (Plain m [mkSpecifier SpDefault "default" None None] false) as [A B].
      now repeat split.
    - apply Forall_flat_map. intro m.
      destruct (truthy (group m 1)) as [name|]; [|constructor].
      constructor; [|constructor].
      destruct (Plain m [mkSpecifier SpNamed name None None]
                      (includes (wholeMatch m) "export type")) as [A B].
      now repeat split. }
  assert (K : forall k l,
             Forall (fun i => recordInvariant i /\ kind i = k
                              /\ pathTypeAllowed (opt_pathTypes options) i) l ->
             kindAllowed (opt_kind options) (mkInfo [] Static k None None None false [] 0 0) ->
             Forall (fun i => recordInvariant i /\ kindAllowed (opt_kind options) i
                              /\ pathTypeAllowed (opt_pathTypes options) i) l).
  { intros k l H Hk. eapply Forall_impl; [|exact H].
    intros i (A & B & C). split; [exact A|split; [|exact C]].
    unfold kindAllowed in *. cbn [kind] in Hk.
    destruct (opt_kind options) as [[| |]|]; try exact I; congruence. }
  destruct (opt_kind options) as [[| |]|]; cbv beta iota zeta;
    apply Forall_app; split;
    first [ constructor
          | apply (K KImport); [exact Imp|first [reflexivity|exact I]]
          | apply (K KExport); [exact Exp|first [reflexivity|exact I]] ].
Qed.

(** X14: every record that [getFileImportsExports] returns passed the
    filters of the call: with [kind] set to import (export) it is an import
    (export), and with [pathTypes] given its path type, when it has one, is
    in the list. *)
Theorem results_respect_filters (content : str) (options : GetFileImportsExportsOptions) :
  Forall (fun i => kindAllowed (opt_kind options) i
                   /\ pathTypeAllowed (opt_pathTypes options) i)
         (getFileImportsExports matchAll exec content options).
Proof.
  unfold getFileImportsExports. apply applyLimit_Forall.
  eapply Forall_impl; [|apply scanResults_invariant].
  intros i (_ & A & B). now split.
Qed.

(** X15: in every record that [getFileImportsExports] returns, [end] is
    [start] plus the length of the statement; the path type is present
    exactly when the source is, and is then the class of that non-empty
    source; a path-type symbol occurs on alias records only; a dynamic
    record is an import without specifiers. *)
Theorem results_are_well_formed (content : str) (options : GetFileImportsExportsOptions) :
  Forall recordInvariant (getFileImportsExports matchAll exec content options).
Proof.
  unfold getFileImportsExports. apply applyLimit_Forall.
  eapply Forall_impl; [|apply scanResults_invariant].
  now intros i (A & _).
Qed.

End WithRegExp.

End ScannerRecordFacts.

(** ** The helpers of the converter *)

Module DlerHelperFacts.
Import JsString JsStringFacts Dler.
Import PathKitJs (Completion, Normal, Throw, JsError, Error, TypeError).

Lemma takeWhile_split (f : ascii -> bool) (s : str) :
  s = takeWhile f s ++ skipn (List.length (takeWhile f s)) s
  /\ Forall (fun c => f c = true) (takeWhile f s)
  /\ match skipn (List.length (takeWhile f s)) s with
     | [] => True
     | c :: _ => f c = false
     end.
Proof.
  induction s as [|c s (IH1 & IH2 & IH3)]; [repeat split; constructor|].
  cbn [takeWhile]. destruct (f c) eqn:E; cbn [List.length skipn app].
  - repeat split; [now rewrite <- IH1|now constructor|exact IH3].
  - repeat split; [constructor|exact E].
Qed.

Lemma notSlash_lacks (s : str) :
  Forall (fun c => notSlash c = true) s -> lacks "/" s.
Proof.
  intro H. eapply Forall_impl; [|exact H]. intros c Hc. unfold notSlash in Hc.
  apply negb_true_iff in Hc. now apply Ascii.eqb_neq.
Qed.

Lemma notSlash_stop (s : str) :
  match s with [] => True | c :: _ => notSlash c = false end ->
  s = [] \/ exists r, s = "/"%char :: r.
Proof.
  destruct s as [|c r]; [now left|]. intro H. right. exists r.
  unfold notSlash in H. apply negb_false_iff, Ascii.eqb_eq in H. now subst.
Qed.

(** X16: [extractPackageName] answers [null] exactly for the empty path
    and for paths that begin with a dot or a slash.  Otherwise it returns a
    non-empty head of the path that stops at the end of the path or before
    a slash: either a name without slash, or a scope [@...] and a name
    separated by one slash. *)
Theorem extractPackageName_shape (p : str) :
  (extractPackageName (Some p) = None <->
     p = [] \/ startsWith p "." = true \/ startsWith p "/" = true)
  /\ (forall n, extractPackageName (Some p) = Some n ->
        n <> []
        /\ (exists rest, p = n ++ rest /\ (rest = [] \/ exists r, rest = "/"%char :: r))
        /\ (lacks "/" n
            \/ exists scope pkg,
                 n = "@"%char :: scope ++ "/"%char :: pkg
                 /\ scope <> [] /\ pkg <> [] /\ lacks "/" scope /\ lacks "/" pkg)).
Proof.
  split; [apply ClassifierFacts.extractPackageName_none|].
  intros n. unfold extractPackageName.
  destruct (isEmpty p || startsWith p "." || startsWith p "/"); [discriminate|].
  unfold PACKAGE_NAME_RE_exec.
  assert (Plain : forall m,
             (let plain := takeWhile notSlash p in
              if isEmpty plain then None else Some plain) = Some m ->
             m <> []
             /\ (exists rest, p = m ++ rest /\ (rest = [] \/ exists r, rest = "/"%char :: r))
             /\ lacks "/" m).
  { intros m. cbv zeta. destruct (takeWhile_split notSlash p) as (E & F & G).
    destruct (takeWhile notSlash p) as [|c m'] eqn:T; cbn [isEmpty]; [discriminate|].
    intro H. injection H as <-. split; [discriminate|]. split.
    - eexists. split; [exact E|]. now apply notSlash_stop.
    - now apply notSlash_lacks. }
  destruct p as [|c rest].
  { intro H. destruct (Plain n H) as (A & B & C). now repeat split; [| |left]. }
  destruct (Ascii.eqb c "@") eqn:At.
  2:{ intro H. destruct (Plain n H) as (A & B & C). split; [exact A|split; [exact B|now left]]. }
  apply Ascii.eqb_eq in At. subst c.
  destruct (takeWhile_split notSlash rest) as (E1 & F1 & G1).
  set (scope := takeWhile notSlash rest) in *.
  destruct (skipn (List.length scope) rest) as [|d rest2] eqn:S2.
  { intro H. destruct (Plain n H) as (A & B & C). split; [exact A|split; [exact B|now left]]. }
  destruct (takeWhile_split notSlash rest2) as (E2 & F2 & G2).
  set (pkg := takeWhile notSlash rest2) in *.
  destruct (negb (isEmpty scope) && Ascii.eqb d "/" && negb (isEmpty pkg)) eqn:C.
  2:{ intro H. destruct (Plain n H) as (A & B & C'). split; [exact A|split; [exact B|now left]]. }
  apply andb_true_iff in C as [C C3]. apply andb_true_iff in C as [C1 C2].
  apply Ascii.eqb_eq in C2. subst d.
  intro H. injection H as <-. split; [discriminate|]. split.
  - exists (skipn (List.length pkg) rest2). split.
    + rewrite E1 at 1. rewrite E2 at 1. cbn [app]. now rewrite <- !app_assoc.
    + now apply notSlash_stop.
  - right. exists scope, pkg. split; [reflexivity|].
    split; [now destruct scope|]. split; [now destruct pkg|].
    split; now apply notSlash_lacks.
Qed.

Lemma search_found {A} (f : str -> option A) (s : str) (r : A) :
  search f s = Some r -> exists a t, s = a ++ t /\ f t = Some r.
Proof.
  induction s as [|c s IH]; cbn [search].
  - destruct (f []) eqn:E; [|discriminate]. intro H. injection H as <-.
    now exists [], [].
  - destruct (f (c :: s)) eqn:E.
    + intro H. injection H as <-. now exists [], (c :: s).
    + intro H. destruct (IH H) as (a & t & -> & Ht). now exists (c :: a), t.
Qed.

Definition isUrlText (u : str) : Prop :=
  exists sch run,
    u = sch ++ run /\ (sch = "http://" \/ sch = "https://")
    /\ run <> [] /\ Forall (fun c => isQuote c = false) run.

Lemma quotedUrlAt_found (s u : str) :
  quotedUrlAt s = Some u ->
  exists q b, isQuote q = true /\ s = q :: u ++ q :: b /\ isUrlText u.
Proof.
  unfold quotedUrlAt. destruct s as [|q rest]; [discriminate|].
  destruct (isQuote q) eqn:Q; [|discriminate].
  assert (G : forall (sch after : str),
             (sch = "http://" \/ sch = "https://") ->
             rest = sch ++ after ->
             (let run := takeWhile (fun c => negb (isQuote c)) after in
              if isEmpty run then None
              else match skipn (List.length run) after with
                   | c :: _ => if Ascii.eqb c q then Some (sch ++ run) else None
                   | [] => None
                   end) = Some u ->
             exists q0 b, isQuote q0 = true /\ q :: rest = q0 :: u ++ q0 :: b /\ isUrlText u).
  { intros sch after Hsch Hr. cbv zeta.
    destruct (takeWhile_split (fun c => negb (isQuote c)) after) as (E & F & _).
    set (run := takeWhile (fun c => negb (isQuote c)) after) in *.
    destruct run as [|r0 run'] eqn:Er; cbn [isEmpty]; [discriminate|].
    destruct (skipn (List.length (r0 :: run')) after) as [|c b] eqn:Sk; [discriminate|].
    destruct (Ascii.eqb c q) eqn:Ec; [|discriminate].
    apply Ascii.eqb_eq in Ec. subst c. intro H. injection H as <-.
    exists q, b. split; [exact Q|]. split.
    - rewrite Hr. rewrite E at 1. now rewrite <- !app_assoc.
    - exists sch, (r0 :: run'). split; [reflexivity|]. split; [exact Hsch|].
      split; [discriminate|]. eapply Forall_impl; [|exact F].
      intros x Hx. now apply negb_true_iff in Hx. }
  destruct (startsWith rest "https://") eqn:H1.
  - apply startsWith_inv in H1 as [after H1]. intro H.
    apply (G "https://" after); [now right|exact H1|].
    rewrite H1 in H. exact H.
  - destruct (startsWith rest "http://") eqn:H2; [|discriminate].
    apply startsWith_inv in H2 as [after H2]. intro H.
    apply (G "http://" after); [now left|exact H2|].
    rewrite H2 in H. exact H.
Qed.

(** X17: a URL that [getBareImportUrl] returns stands in the input between
    two equal quote characters; it is [http://] or [https://] followed by
    at least one character, none of them a quote.  With
    [requireFromKeyword], the opening quote comes after [from] and white
    space. *)
Theorem getBareImportUrl_shape (importStr : str) (requireFromKeyword : bool) (u : str) :
  getBareImportUrl importStr requireFromKeyword = Some u ->
  isUrlText u
  /\ exists a q b,
       isQuote q = true /\ importStr = a ++ q :: u ++ q :: b
       /\ (requireFromKeyword = true ->
           exists a' ws, a = a' ++ "from" ++ ws /\ ws <> []
                         /\ Forall (fun c => isWhitespace c = true) ws).
Proof.
  unfold getBareImportUrl. destruct requireFromKeyword.
  - intro H. apply search_found in H as (a & t & -> & H).
    unfold fromQuotedUrlAt in H.
    destruct (startsWith t "from") eqn:F; [|discriminate].
    apply startsWith_inv in F as [rest ->].
    change (skipn 4 ("from" ++ rest)) with rest in H.
    destruct (takeWhile_split isWhitespace rest) as (E & W & _).
    set (ws := takeWhile isWhitespace rest) in *.
    destruct ws as [|w ws'] eqn:Ews; cbn [isEmpty] in H; [discriminate|].
    apply quotedUrlAt_found in H as (q & b & Q & Eq & U).
    split; [exact U|].
    exists (a ++ "from" ++ w :: ws'), q, b. split; [exact Q|]. split.
    + rewrite E at 1. rewrite Eq. now rewrite <- !app_assoc.
    + intros _. exists a, (w :: ws'). split; [reflexivity|]. split; [discriminate|exact W].
  - intro H. apply search_found in H as (a & t & -> & H).
    apply quotedUrlAt_found in H as (q & b & Q & -> & U).
    split; [exact U|]. exists a, q, b. split; [exact Q|]. split; [reflexivity|discriminate].
Qed.

Definition sampleImport : str := "import x from 'https://esm.sh/x'".

Lemma getBareImportUrl_shape_witness :
  isUrlText "https://esm.sh/x"
  /\ exists a q b,
       isQuote q = true /\ sampleImport = a ++ q :: "https://esm.sh/x" ++ q :: b
       /\ (true = true ->
           exists a' ws, a = a' ++ "from" ++ ws /\ ws <> []
                         /\ Forall (fun c => isWhitespace c = true) ws).
Proof.
  apply (getBareImportUrl_shape sampleImport true). reflexivity.
Defined.

Section WithPath.

Variable path : NodePath.
Variable CWD : str.

(** X18: every conversion towards the type dynamic returns the import path
    as it was given, whatever the source type and the context. *)
Theorem conversion_to_dynamic_is_identity (fromType : ImportType) (importPath : str)
        (options : SingleOptions) :
  convertSingleImportPath path CWD fromType Dynamic importPath options = importPath.
Proof.
  unfold convertSingleImportPath. destruct fromType; cbn [conversionMapping]; try reflexivity.
  unfold convertBareToDynamic. rewrite eqb_refl. cbn [negb].
  now rewrite andb_false_r.
Qed.

(** X19: [matchLibraryImport] returns the name of a library of the list
    with a main file, whose main directory followed by a slash begins the
    path; it never returns the library the file itself belongs to. *)
Theorem matchLibraryImport_sound (relativeToRoot : str)
        (libsList : list (str * LibConfigDeprecated)) (currentLibName : option str)
        (libName : str) :
  matchLibraryImport path relativeToRoot libsList currentLibName = Some libName ->
  (exists cfg,
      In (libName, cfg) libsList /\ libMainFile cfg <> []
      /\ startsWith relativeToRoot
           (replaceBackslashes (np_dirname path (libMainFile cfg)) ++ "/") = true)
  /\ (forall cur, currentLibName = Some cur -> cur <> [] -> libName <> cur).
Proof.
  induction libsList as [|[n cfg] rest IH]; cbn [matchLibraryImport]; [discriminate|].
  destruct (negb (isEmpty (libMainFile cfg))
            && isLibraryImport path relativeToRoot n cfg currentLibName) eqn:C.
  - intro H. injection H as <-. apply andb_true_iff in C as [C1 C2].
    unfold isLibraryImport in C2. split.
    + exists cfg. split; [now left|]. split; [now destruct (libMainFile cfg)|].
      destruct (truthyStr currentLibName); [|exact C2].
      destruct (eqb n s); [discriminate|exact C2].
    + intros cur -> Hc. cbn [truthyStr] in C2.
      destruct cur as [|c cur]; [contradiction|]. cbn [isEmpty] in C2.
      destruct (eqb n (c :: cur)) eqn:E; [discriminate|]. now apply eqb_neq.
  - intro H. destruct (IH H) as [(cfg' & A & B) C']. split; [|exact C'].
    exists cfg'. split; [now right|exact B].
Qed.

Variable stat : str -> StatOutcome.
Variable walk : str -> list str -> FileProcessor -> Z -> list FsOp * list FileResult.

(** X20: a run of [convertImportPaths] that fails has touched the file
    system with at most one [stat]; a run that completes was given a base
    directory, found it to be a directory with its first operation, and
    had an alias prefix whenever one of the two types is alias. *)
Theorem convertImportPaths_validates_first (options : ConvertImportPathsOptions) :
  let run := convertImportPaths path CWD stat walk options in
  (forall e, outcome run = Throw e ->
             trace run = [] \/ exists d, trace run = [OpStat d])
  /\ (forall results, outcome run = Normal results ->
        exists raw ops,
          truthyStr (ro_baseDir options) = Some raw
          /\ stat (np_resolve path [CWD; raw]) = IsDirectory
          /\ trace run = OpStat (np_resolve path [CWD; raw]) :: ops
          /\ (ro_fromType options = Alias \/ ro_toType options = Alias ->
              truthyStr (ro_aliasPrefix options) <> None)).
Proof.
  cbv zeta. unfold convertImportPaths.
  destruct (truthyStr (ro_baseDir options)) as [raw|].
  2:{ split; [intros e _; now left|discriminate]. }
  destruct ((importType_eqb (ro_fromType options) Alias
             || importType_eqb (ro_toType options) Alias)
            && match truthyStr (ro_aliasPrefix options) with
               | None => true
               | Some _ => false
               end) eqn:A.
  { split; [intros e _; now left|discriminate]. }
  destruct (stat (np_resolve path [CWD; raw])) eqn:S;
    try (split; [intros e0 _; right; eexists; reflexivity|discriminate]).
  destruct (walk _ _ _ _) as [ops results]. split; [discriminate|].
  intros r _. exists raw, ops.
  split; [reflexivity|]. split; [exact S|]. split; [reflexivity|].
  intros Ht Hp. rewrite Hp in A. rewrite andb_true_r in A.
  destruct Ht as [Ht | Ht]; rewrite Ht in A; [discriminate|].
  rewrite orb_true_r in A. discriminate.
Qed.

End WithPath.

Definition sampleLibs : list (str * LibConfigDeprecated) :=
  [("@scope/app" : str, mkLibConfig "libs/app/src/main.ts");
   ("@scope/lib" : str, mkLibConfig "libs/lib/src/main.ts")].

Lemma matchLibraryImport_sound_witness :
  (exists cfg,
      In ("@scope/lib" : str, cfg) sampleLibs /\ libMainFile cfg <> []
      /\ startsWith "libs/lib/src/util.ts"
           (replaceBackslashes (np_dirname (pathkitAsNodePath None) (libMainFile cfg)) ++ "/")
         = true)
  /\ (forall cur, Some ("@scope/app" : str) = Some cur -> cur <> [] ->
                  ("@scope/lib" : str) <> cur).
Proof.
  apply (matchLibraryImport_sound (pathkitAsNodePath None) "libs/lib/src/util.ts"
           sampleLibs (Some ("@scope/app" : str)) "@scope/lib").
  reflexivity.
Defined.

End DlerHelperFacts.

(** ** [replaceAllInString] *)

Module ReplaceAllFacts.
Import JsString JsStringFacts PathKit ImportRewrite.
Import PathAlgebraFacts (substringFrom_app).

Lemma indexOfFrom_absent (sub : str) (s : str) :
  forall i, (0 <= i)%Z -> indexOfFrom s sub i = (-1)%Z ->
            forall k, startsWith (skipn k s) sub = false.
Proof.
  induction s as [|c s IH]; intros i Hi H k; cbn [indexOfFrom] in H.
  - destruct (startsWith [] sub) eqn:E; [lia|]. now rewrite skipn_nil.
  - destruct (startsWith (c :: s) sub) eqn:E; [lia|].
    destruct k as [|k]; [exact E|]. cbn [skipn]. apply (IH (i + 1)%Z); [lia|exact H].
Qed.

Lemma indexOfFrom_found (sub : str) (s : str) :
  forall i, (0 <= i)%Z -> indexOfFrom s sub i <> (-1)%Z ->
            exists pre rest,
              s = pre ++ sub ++ rest
              /\ indexOfFrom s sub i = (i + len pre)%Z
              /\ (forall k, (k < List.length pre)%nat -> startsWith (skipn k s) sub = false).
Proof.
  induction s as [|c s IH]; intros i Hi H; cbn [indexOfFrom] in H |- *.
  - destruct (startsWith [] sub) eqn:E; [|contradiction].
    apply startsWith_inv in E as [t E]. exists [], t. split; [exact E|].
    split; [unfold len; cbn; lia|]. intros k Hk. cbn in Hk. lia.
  - destruct (startsWith (c :: s) sub) eqn:E.
    + apply startsWith_inv in E as [t E]. exists [], t. split; [exact E|].
      split; [unfold len; cbn; lia|]. intros k Hk. cbn in Hk. lia.
    + destruct (IH (i + 1)%Z ltac:(lia) H) as (pre & rest & E1 & E2 & E3).
      exists (c :: pre), rest. split; [now rewrite E1|]. split.
      * rewrite E2. unfold len. cbn [List.length]. lia.
      * intros [|k] Hk; [exact E|]. cbn [skipn]. apply E3. cbn in Hk. lia.
Qed.

Lemma splitStrAux_skip (sep x rest cur : str) :
  splitStrAux sep (x ++ rest) (List.length x) cur = splitStrAux sep rest 0 cur.
Proof.
  induction x as [|c x IH]; [reflexivity|]. cbn [app List.length splitStrAux]. exact IH.
Qed.

Lemma splitStrAux_nonnil (sep s : str) : forall skip cur, splitStrAux sep s skip cur <> [].
Proof.
  induction s as [|c s IH]; intros skip cur; cbn [splitStrAux]; [discriminate|].
  destruct skip; [|apply IH]. destruct (startsWith (c :: s) sep); [discriminate|apply IH].
Qed.

Lemma splitStrAux_absent (sep : str) (s : str) :
  forall cur, (forall k, startsWith (skipn k s) sep = false) ->
              splitStrAux sep s 0 cur = [rev cur ++ s].
Proof.
  induction s as [|c s IH]; intros cur H; cbn [splitStrAux].
  - now rewrite app_nil_r.
  - pose proof (H 0%nat) as H0. cbn [skipn] in H0. rewrite H0. rewrite IH.
    + cbn [rev]. now rewrite <- app_assoc.
    + intro k. apply (H (S k)).
Qed.

Lemma splitStrAux_first (sep : str) (pre rest : str) :
  sep <> [] ->
  forall cur,
    (forall k, (k < List.length pre)%nat -> startsWith (skipn k (pre ++ sep ++ rest)) sep = false) ->
    splitStrAux sep (pre ++ sep ++ rest) 0 cur = (rev cur ++ pre) :: splitStrAux sep rest 0 [].
Proof.
  intro Hsep. induction pre as [|c pre IH]; intros cur H.
  - destruct sep as [|d sep']; [contradiction|].
    cbn [app splitStrAux]. change (d :: sep' ++ rest) with ((d :: sep') ++ rest).
    rewrite startsWith_app. rewrite app_nil_r.
    replace (List.length (d :: sep') - 1)%nat with (List.length sep') by (cbn; lia).
    now rewrite splitStrAux_skip.
  - cbn [app splitStrAux]. pose proof (H 0%nat ltac:(cbn; lia)) as H0. cbn [skipn app] in H0.
    rewrite H0. rewrite IH.
    + cbn [rev]. now rewrite <- app_assoc.
    + intros k Hk. apply (H (S k)). cbn. lia.
Qed.

Lemma join_cons (sep x : str) (l : list str) :
  l <> [] -> JsString.join sep (x :: l) = x ++ sep ++ JsString.join sep l.
Proof. destruct l; [contradiction|reflexivity]. Qed.

Lemma substring_middle (a b c : str) :
  substring (a ++ b ++ c) (len a) (len a + len b) = b.
Proof.
  pose proof (len_nonneg a). pose proof (len_nonneg b). pose proof (len_nonneg c).
  unfold substring. rewrite !len_app.
  replace (Z.min (Z.max (len a) 0) (len a + (len b + len c))) with (len a) by lia.
  replace (Z.min (Z.max (len a + len b) 0) (len a + (len b + len c)))
    with (len a + len b)%Z by lia.
  rewrite Z.min_l, Z.max_r by lia.
  replace (Z.to_nat (len a)) with (List.length a) by (unfold len; lia).
  replace (Z.to_nat (len a + len b - len a)) with (List.length b) by (unfold len; lia).
  rewrite skipn_app, skipn_all, Nat.sub_diag. cbn [app skipn].
  rewrite firstn_app, firstn_all, Nat.sub_diag. cbn [firstn]. apply app_nil_r.
Qed.

Lemma indexOfAt_suffix (pre s sub : str) :
  indexOfAt (pre ++ s) sub (len pre) = indexOfFrom s sub (len pre).
Proof.
  pose proof (len_nonneg pre). pose proof (len_nonneg s).
  unfold indexOfAt. rewrite len_app.
  replace (Z.min (Z.max (len pre) 0) (len pre + len s)) with (len pre) by lia.
  replace (Z.to_nat (len pre)) with (List.length pre) by (unfold len; lia).
  now rewrite skipn_app, skipn_all, Nat.sub_diag.
Qed.

Lemma replaceAllLoop_spec (searchValue replaceValue : str) :
  searchValue <> [] ->
  forall fuel pre s result,
    (List.length s < fuel)%nat ->
    replaceAllLoop fuel (pre ++ s) searchValue replaceValue (len pre) result
    = Some (result ++ JsString.join replaceValue (splitStr searchValue s)).
Proof.
  intro Hsep. induction fuel as [|fuel IH]; intros pre s result Hf; [lia|].
  cbn [replaceAllLoop]. rewrite len_app.
  destruct s as [|c s'].
  - replace (len pre <? len pre + len [])%Z with false
      by (symmetry; apply Z.ltb_ge; unfold len; cbn; lia).
    cbn. now rewrite app_nil_r.
  - set (s := c :: s') in *.
    replace (len pre <? len pre + len s)%Z with true
      by (symmetry; apply Z.ltb_lt; unfold len, s; cbn [List.length]; lia).
    rewrite indexOfAt_suffix. pose proof (len_nonneg pre) as Hp.
    destruct (Z.eqb_spec (indexOfFrom s searchValue (len pre)) (-1)) as [E|E].
    + rewrite substringFrom_app. unfold splitStr.
      rewrite splitStrAux_absent by (apply (indexOfFrom_absent _ _ _ Hp E)).
      reflexivity.
    + destruct (indexOfFrom_found _ _ _ Hp E) as (p & rest & E1 & E2 & E3).
      rewrite E2. rewrite E1. rewrite substring_middle.
      replace (pre ++ p ++ searchValue ++ rest) with ((pre ++ p ++ searchValue) ++ rest)
        by now rewrite <- !app_assoc.
      replace (len pre + len p + len searchValue)%Z with (len (pre ++ p ++ searchValue))
        by (rewrite !len_app; lia).
      rewrite IH.
      * unfold splitStr. rewrite E1 in E3.
        rewrite (splitStrAux_first searchValue p rest Hsep []) by exact E3.
        cbn [rev app]. rewrite join_cons by apply splitStrAux_nonnil.
        now rewrite <- !app_assoc.
      * assert (L : List.length s = (List.length p + List.length searchValue + List.length rest)%nat)
          by (rewrite E1, !length_app; lia).
        destruct searchValue; [contradiction|]. cbn [List.length] in L. lia.
Qed.

Lemma split_join_same (sep : str) :
  sep <> [] -> forall n s, (List.length s < n)%nat -> JsString.join sep (splitStr sep s) = s.
Proof.
  intro Hsep. induction n as [|n IH]; intros s Hn; [lia|].
  unfold splitStr.
  destruct (Z.eqb_spec (indexOfFrom s sep 0) (-1)) as [E|E].
  - rewrite splitStrAux_absent by (apply (indexOfFrom_absent _ _ 0%Z ltac:(lia) E)).
    reflexivity.
  - destruct (indexOfFrom_found _ _ 0%Z ltac:(lia) E) as (p & rest & E1 & _ & E3).
    rewrite E1 at 1. rewrite (splitStrAux_first sep p rest Hsep []) by (rewrite <- E1; exact E3).
    cbn [rev app]. rewrite join_cons by apply splitStrAux_nonnil.
    fold (splitStr sep rest). rewrite IH; [now rewrite <- E1|].
    assert (L : List.length s = (List.length p + List.length sep + List.length rest)%nat)
      by (rewrite E1, !length_app; lia).
    destruct sep; [contradiction|]. cbn [List.length] in L. lia.
Qed.

(** X21: with a search value that is not empty, [replaceAllInString] ends
    within one round more than the text has characters and returns
    [original.split(searchValue).join(replaceValue)]; replacing a value
    by itself gives the text back. *)
Theorem replaceAllInString_is_split_join (original searchValue replaceValue : str)
        (fuel : nat) :
  searchValue <> [] ->
  (List.length original < fuel)%nat ->
  replaceAllInString fuel original searchValue replaceValue
  = Some (JsString.join replaceValue (splitStr searchValue original))
  /\ replaceAllInString fuel original searchValue searchValue = Some original.
Proof.
  intros Hs Hf. unfold replaceAllInString.
  pose proof (replaceAllLoop_spec searchValue replaceValue Hs fuel [] original EMPTY Hf) as A.
  pose proof (replaceAllLoop_spec searchValue searchValue Hs fuel [] original EMPTY Hf) as B.
  cbn [app] in A, B. change (len []) with 0%Z in A, B. split; [exact A|].
  rewrite B. now rewrite (split_join_same searchValue Hs (S (List.length original))) by lia.
Qed.

Lemma replaceAllInString_is_split_join_witness :
  replaceAllInString 9 "a'x'b'x'" "'x'" "'yy'"
  = Some (JsString.join "'yy'" (splitStr "'x'" "a'x'b'x'"))
  /\ replaceAllInString 9 "a'x'b'x'" "'x'" "'x'" = Some ("a'x'b'x'" : str).
Proof.
  apply (replaceAllInString_is_split_join "a'x'b'x'" "'x'" "'yy'" 9).
  - discriminate.
  - cbn. lia.
Defined.

Lemma replaceAllLoop_empty_search (original replaceValue : str) :
  original <> [] ->
  forall fuel result, replaceAllLoop fuel original EMPTY replaceValue 0 result = None.
Proof.
  intro Ho. induction fuel as [|fuel IH]; intro result; [reflexivity|].
  cbn [replaceAllLoop].
  replace (0 <? len original)%Z with true
    by (symmetry; apply Z.ltb_lt; destruct original; [contradiction|unfold len; cbn; lia]).
  unfold indexOfAt. pose proof (len_nonneg original).
  replace (Z.min (Z.max 0 0) (len original)) with 0%Z by lia.
  cbn [Z.to_nat skipn]. destruct original as [|c o]; [contradiction|].
  cbn [indexOfFrom EMPTY list_ascii_of_string startsWith]. cbn [Z.eqb].
  change (0 + len [])%Z with 0%Z. apply IH.
Qed.

(** X22: with an empty search value and a text that is not empty the loop
    of [replaceAllInString] never ends: no number of rounds gives a
    result. *)
Theorem replaceAllInString_empty_search_diverges (original replaceValue : str) (fuel : nat) :
  original <> [] ->
  replaceAllInString fuel original EMPTY replaceValue = None.
Proof. intro Ho. now apply replaceAllLoop_empty_search. Qed.

Lemma replaceAllInString_empty_search_diverges_witness :
  replaceAllInString 1000 "abc" EMPTY "z" = None.
Proof.
  apply (replaceAllInString_empty_search_diverges "abc" "z" 1000). discriminate.
Defined.

End ReplaceAllFacts.

(** ** Alias matching, the [win32] table and the text helpers *)

Module ImportRewriteFacts.
Import JsString JsStringFacts PathKit PathKitFacts ResolveFacts ImportRewrite.
Import PathKitJs (Completion, Normal, Throw, JsError, Error, TypeError).
Import PathAlgebraFacts (endsWith_inv).
Import PathSegments (replaceFirst).

Lemma getPaths_In (paths : Paths) (k : str) (v : list str) :
  getPaths paths k = Some v -> In (k, v) paths.
Proof.
  induction paths as [|[k' v'] t IH]; cbn [getPaths]; [discriminate|].
  destruct (eqb k' k) eqn:E.
  - intro H. injection H as <-. apply eqb_eq in E. subst k'. now left.
  - intro H. right. now apply IH.
Qed.

Lemma firstTarget_In (paths : Paths) (k t0 : str) :
  firstTarget paths k = Some t0 ->
  t0 <> [] /\ exists tl, In (k, t0 :: tl) paths.
Proof.
  unfold firstTarget. destruct (getPaths paths k) as [[|x tl]|] eqn:E; try discriminate.
  destruct x as [|c x]; cbn [isEmpty]; [discriminate|].
  intro H. injection H as <-. split; [discriminate|].
  exists tl. now apply getPaths_In.
Qed.

Lemma slice_drop_two (a : str) : slice (a ++ "/*") 0 (-2) = a.
Proof.
  unfold slice. rewrite len_app. pose proof (len_nonneg a).
  change (len "/*") with 2%Z. unfold clampIndex.
  replace (0 <? 0)%Z with false by reflexivity.
  replace (-2 <? 0)%Z with true by reflexivity.
  replace (Z.min 0 (len a + 2)) with 0%Z by lia.
  replace (Z.max (len a + 2 + -2) 0) with (len a) by lia.
  cbn [Z.to_nat skipn]. replace (Z.to_nat (len a - 0)) with (List.length a) by (unfold len; lia).
  rewrite firstn_app, firstn_all, Nat.sub_diag. cbn [firstn]. apply app_nil_r.
Qed.

Lemma sliceFrom_app (a b : str) : sliceFrom (a ++ b) (len a) = b.
Proof.
  unfold sliceFrom. pose proof (slice_middle a b []) as H.
  rewrite app_nil_r in H. rewrite len_app. exact H.
Qed.

(** What a match says about the import path and the record *)
Definition matchDescribes (importPath : str) (paths : Paths) (m : AliasMatch) : Prop :=
  exists t0 tl,
    In (am_key m, t0 :: tl) paths /\ t0 <> []
    /\ ((am_key m = importPath /\ am_root m = importPath /\ am_suffix m = []
         /\ am_resolvedPath m = t0)
        \/ (am_key m = am_root m ++ "/*"
            /\ am_resolvedPath m = slice t0 0 (-2)
            /\ ((importPath = am_root m /\ am_suffix m = [])
                \/ importPath = am_root m ++ "/" ++ am_suffix m))).

Lemma wildcardMatch_describes (importPath : str) (paths : Paths) (keys : list str)
      (m : AliasMatch) :
  wildcardMatch importPath paths keys = Some m -> matchDescribes importPath paths m.
Proof.
  induction keys as [|aliasKey rest IH]; cbn [wildcardMatch]; [discriminate|].
  destruct (endsWith aliasKey "/*") eqn:E; [|exact IH].
  apply endsWith_inv in E as [aliasRoot ->]. rewrite slice_drop_two.
  destruct (eqb importPath aliasRoot || startsWith importPath (aliasRoot ++ "/")) eqn:C;
    [|exact IH].
  destruct (firstTarget paths (aliasRoot ++ "/*")) as [t0|] eqn:F; [|exact IH].
  intro H. injection H as <-. apply firstTarget_In in F as (Hne & tl & Hin).
  exists t0, tl. cbn [am_key am_root am_suffix am_resolvedPath].
  split; [exact Hin|]. split; [exact Hne|]. right.
  split; [reflexivity|]. split; [reflexivity|].
  destruct (eqb importPath aliasRoot) eqn:Eq.
  - apply eqb_eq in Eq. left. now split.
  - right. cbn [orb] in C. apply startsWith_inv in C as [t ->].
    replace (len aliasRoot + 1)%Z with (len (aliasRoot ++ "/"))
      by (rewrite len_app; reflexivity).
    rewrite sliceFrom_app. now rewrite <- app_assoc.
Qed.

Lemma findAliasMatch_describes (importPath : str) (paths : Paths) :
  match findAliasMatch importPath paths with
  | Normal (Some m) => matchDescribes importPath paths m
  | Normal None => True
  | Throw _ => paths = []
  end.
Proof.
  unfold findAliasMatch. destruct paths as [|[k0 v0] rest]; [reflexivity|].
  cbn [map fst].
  destruct (startsWith importPath "@" && negb (startsWith importPath (replaceFirst k0 "/*" EMPTY)));
    [exact I|].
  destruct (firstTarget ((k0, v0) :: rest) importPath) as [t0|] eqn:F.
  - apply firstTarget_In in F as (Hne & tl & Hin). exists t0, tl.
    cbn [am_key am_root am_suffix am_resolvedPath].
    split; [exact Hin|]. split; [exact Hne|]. left. repeat split.
  - destruct (wildcardMatch importPath ((k0, v0) :: rest) (k0 :: map fst rest)) as [m|] eqn:W;
      [|exact I].
    now apply wildcardMatch_describes in W.
Qed.

(** X23: a match that [findAliasMatch] returns names a key of the record
    whose first target is not empty; either the import path is that key
    itself, or the key is the root followed by [/*] and the import path
    is the root or the root, a slash and the suffix.  The call throws
    only on a record without keys. *)
Theorem findAliasMatch_sound (importPath : str) (paths : Paths) :
  match findAliasMatch importPath paths with
  | Normal (Some m) => matchDescribes importPath paths m
  | Normal None => True
  | Throw _ => paths = []
  end.
Proof. apply findAliasMatch_describes. Qed.

Section WithFiles.

Variable process_cwd : option str.
Variable resolveFileWithExtensions : str -> option str.

Lemma toRelativeImport_dotted (absPath fromDir : str) :
  startsWith (toRelativeImport process_cwd absPath fromDir) "." = true
  /\ lacks "\" (toRelativeImport process_cwd absPath fromDir).
Proof.
  unfold toRelativeImport.
  set (rel := normalizeWindowsPath (relative process_cwd fromDir absPath)).
  assert (L : lacks "\" rel) by apply normalizeWindowsPath_lacks.
  destruct (startsWith rel DOT) eqn:E.
  - split; [exact E|exact L].
  - split; [reflexivity|]. constructor; [discriminate|]. constructor; [discriminate|exact L].
Qed.

(** X24: [convertStringAliasRelative] never throws.  It returns the
    import path itself or a path that starts with a dot and has no
    backslash; an import path that is not the pattern, its root, or the
    root followed by a slash and more comes back unchanged. *)
Theorem convertStringAliasRelative_result
        (importPath importerFile pathPattern targetDir : str) :
  exists r,
    convertStringAliasRelative process_cwd resolveFileWithExtensions
      importPath importerFile pathPattern targetDir = Normal r
    /\ (r = importPath \/ (startsWith r "." = true /\ lacks "\" r))
    /\ (importPath <> pathPattern ->
        (forall aliasRoot, pathPattern = aliasRoot ++ "/*" ->
           importPath <> aliasRoot /\ startsWith importPath (aliasRoot ++ "/") = false) ->
        r = importPath).
Proof.
  unfold convertStringAliasRelative.
  destruct (startsWith importPath "@"
            && negb (startsWith importPath (replaceFirst pathPattern "/*" EMPTY))) eqn:G.
  { exists importPath. split; [reflexivity|]. split; [now left|reflexivity]. }
  pose proof (findAliasMatch_describes importPath [(pathPattern, ["./*" : str])]) as S.
  destruct (findAliasMatch importPath [(pathPattern, ["./*" : str])]) as [[m|]|e] eqn:F.
  - eexists. split; [reflexivity|]. unfold getTargetExtension.
    split.
    + right. destruct (negb (isEmpty (extname importPath))); apply toRelativeImport_dotted.
    + intros Hne Hroot. exfalso.
      destruct S as (t0 & tl & Hin & _ & [(K & _) | (K & _ & D)]).
      * destruct Hin as [Hin|[]]. injection Hin as Hk _. congruence.
      * destruct Hin as [Hin|[]]. injection Hin as Hk _.
        destruct (Hroot (am_root m) ltac:(congruence)) as [R1 R2].
        destruct D as [[D _]|D]; [contradiction|].
        rewrite D in R2. rewrite app_assoc in R2. rewrite startsWith_app in R2. discriminate.
  - exists importPath. split; [reflexivity|]. split; [now left|reflexivity].
  - discriminate.
Qed.

End WithFiles.

End ImportRewriteFacts.

Module Win32Facts.
Import JsString JsStringFacts PathKit Win32.

Lemma replaceSlashes_lacks (s : str) : lacks "/" (replaceSlashes s).
Proof.
  unfold replaceSlashes. induction s as [|c s IH]; cbn [map]; constructor; [|exact IH].
  destruct (Ascii.eqb_spec c "/"); [discriminate|assumption].
Qed.

(** X25: the result of [win32.toNamespacedPath] has no forward slash. *)
Theorem win32_toNamespacedPath_no_forward_slash (process_cwd : option str) (p : str) :
  lacks "/" (toNamespacedPath process_cwd p).
Proof.
  unfold toNamespacedPath. destruct (Z.eqb_spec (len p) 0) as [E|_].
  - apply len_zero in E. subst p. constructor.
  - destruct (DRIVE_PREFIX_RE _).
    + repeat (constructor; [discriminate|]). apply replaceSlashes_lacks.
    + destruct (UNC_REGEX _).
      * repeat (constructor; [discriminate|]). apply replaceSlashes_lacks.
      * apply replaceSlashes_lacks.
Qed.

End Win32Facts.

Module DlerTextFacts.
Import JsString JsStringFacts DlerText.
Import PathAlgebraFacts (endsWith_inv).

Lemma slice_drop_three (a : str) : slice (a ++ ".js") 0 (-3) = a.
Proof.
  unfold slice. rewrite len_app. pose proof (len_nonneg a).
  change (len ".js") with 3%Z. unfold clampIndex.
  replace (0 <? 0)%Z with false by reflexivity.
  replace (-3 <? 0)%Z with true by reflexivity.
  replace (Z.min 0 (len a + 3)) with 0%Z by lia.
  replace (Z.max (len a + 3 + -3) 0) with (len a) by lia.
  cbn [Z.to_nat skipn]. replace (Z.to_nat (len a - 0)) with (List.length a) by (unfold len; lia).
  rewrite firstn_app, firstn_all, Nat.sub_diag. cbn [firstn]. apply app_nil_r.
Qed.

Lemma endsWith_ts_js (a : str) : endsWith (a ++ ".ts") ".js" = false.
Proof. unfold endsWith. rewrite rev_app_distr. reflexivity. Qed.

(** X26: the result of [replaceJsExtension] never ends in [.js] and is as
    long as the path given; a path that ends in [.js] has these three
    characters replaced by [.ts], any other is returned as it is, so a
    second application changes nothing. *)
Theorem replaceJsExtension_result (importPath : str) :
  endsWith (replaceJsExtension importPath) ".js" = false
  /\ len (replaceJsExtension importPath) = len importPath
  /\ replaceJsExtension (replaceJsExtension importPath) = replaceJsExtension importPath
  /\ (forall a, importPath = a ++ ".js" -> replaceJsExtension importPath = a ++ ".ts")
  /\ (endsWith importPath ".js" = false -> replaceJsExtension importPath = importPath).
Proof.
  unfold replaceJsExtension at 1 2 4 5 7. destruct (endsWith importPath ".js") eqn:E.
  - apply endsWith_inv in E as [a ->]. rewrite slice_drop_three.
    split; [apply endsWith_ts_js|]. split; [now rewrite !len_app|]. split; [|split].
    + unfold replaceJsExtension. now rewrite endsWith_ts_js.
    + intros b Hb. apply app_inv_tail in Hb. subst b.
      unfold replaceJsExtension. now rewrite endsWith_app, slice_drop_three.
    + discriminate.
  - split; [exact E|]. split; [reflexivity|]. split; [|split].
    + unfold replaceJsExtension. now rewrite E.
    + intros a ->. now rewrite endsWith_app in E.
    + reflexivity.
Qed.

(** X27: [normalizeQuotes] leaves no apostrophe and keeps the length; a
    string without apostrophe is returned as it is, so a second
    application changes nothing. *)
Theorem normalizeQuotes_result (s : str) :
  lacks "'" (normalizeQuotes s)
  /\ len (normalizeQuotes s) = len s
  /\ normalizeQuotes (normalizeQuotes s) = normalizeQuotes s
  /\ (lacks "'" s -> normalizeQuotes s = s).
Proof.
  unfold normalizeQuotes, len. rewrite length_map. split; [|split; [reflexivity|split]].
  - induction s as [|c s IH]; cbn [map]; constructor; [|exact IH].
    destruct (Ascii.eqb_spec c "'"); cbn [orb]; [discriminate|].
    destruct (Ascii.eqb_spec c DQUOTE); [discriminate|assumption].
  - rewrite map_map. apply map_ext. intro c.
    destruct (Ascii.eqb_spec c "'"); cbn [orb]; [reflexivity|].
    destruct (Ascii.eqb_spec c DQUOTE) as [->|]; cbn [orb]; [reflexivity|].
    destruct (Ascii.eqb_spec c "'"); [contradiction|]. cbn [orb].
    destruct (Ascii.eqb_spec c DQUOTE); [contradiction|reflexivity].
  - induction 1 as [|c s Hc Hs IH]; cbn [map]; [reflexivity|]. rewrite IH. f_equal.
    destruct (Ascii.eqb_spec c "'"); [contradiction|]. cbn [orb].
    now destruct (Ascii.eqb_spec c DQUOTE) as [->|].
Qed.

End DlerTextFacts.

(** ** [attachPathSegments] *)

Module AttachSegmentsFacts.
Import JsString JsStringFacts PathKit PathKitFacts ResolveFacts NormalizeFacts PathSegments.
Import PathKitJs (Completion, Normal, Throw, JsError, Error, TypeError).
Import PathAlgebraFacts (join_filtered).

Lemma replaceBackslashes_idem (s : str) :
  replaceBackslashes (replaceBackslashes s) = replaceBackslashes s.
Proof. apply replaceBackslashes_id, replaceBackslashes_lacks. Qed.

Lemma replaceBackslashes_app (a b : str) :
  replaceBackslashes (a ++ b) = replaceBackslashes a ++ replaceBackslashes b.
Proof. apply map_app. Qed.

Lemma replaceBackslashes_dot (s : str) : eqb (replaceBackslashes s) DOT = eqb s DOT.
Proof.
  destruct s as [|c [|d s]]; [reflexivity| |].
  - cbn [replaceBackslashes map]. destruct (Ascii.eqb_spec c "\") as [->|]; reflexivity.
  - unfold DOT. cbn [replaceBackslashes map list_ascii_of_string eqb].
    now rewrite !andb_false_r.
Qed.

Lemma normalizeWindowsPath_of_replaced (s : str) :
  normalizeWindowsPath (replaceBackslashes s) = normalizeWindowsPath s.
Proof.
  unfold normalizeWindowsPath. rewrite replaceBackslashes_idem.
  destruct s; reflexivity.
Qed.

(** [normalize] does not tell a backslash from a slash. *)
Lemma normalize_of_replaced (s : str) : normalize (replaceBackslashes s) = normalize s.
Proof.
  unfold normalize. rewrite normalizeWindowsPath_of_replaced, replaceBackslashes_idem.
  rewrite replaceBackslashes_dot.
  replace (len (replaceBackslashes s)) with (len s)
    by (unfold len, replaceBackslashes; now rewrite length_map).
  reflexivity.
Qed.

Lemma sliceFrom_one (c : ascii) (r : str) : sliceFrom (c :: r) 1 = r.
Proof.
  unfold sliceFrom. pose proof (slice_middle [c] r []) as H.
  rewrite app_nil_r in H.
  replace (len (c :: r)) with (len [c] + len r)%Z by (unfold len; cbn [List.length]; lia).
  exact H.
Qed.

Lemma root_and_rest (q : str) :
  lacks "\" q -> DRIVE_LETTER_START_RE q = false ->
  (if true && IS_ABSOLUTE_RE q then SLASH else EMPTY)
  ++ (if IS_ABSOLUTE_RE q then sliceFrom q 1 else q) = q.
Proof.
  intros L D. destruct (IS_ABSOLUTE_RE q) eqn:A; [|reflexivity].
  destruct q as [|c1 r]; [discriminate|]. rewrite sliceFrom_one. cbn [andb].
  assert (Hc : c1 <> "\"%char) by now inversion L.
  destruct (isSep c1) eqn:S1.
  - apply (isSep_forward c1 Hc) in S1. now subst c1.
  - exfalso. cbn [IS_ABSOLUTE_RE] in A. rewrite S1 in A. cbn [andb orb] in A.
    destruct r as [|c2 [|c3 r]]; try (rewrite andb_false_r in A; discriminate).
    apply andb_true_iff in A as [A1 A2]. apply andb_true_iff in A2 as [A2 A3].
    assert (H3 : c3 <> "\"%char).
    { inversion L as [|? ? _ L1]. inversion L1 as [|? ? _ L2]. now inversion L2. }
    apply (isSep_forward c3 H3) in A3. subst c3.
    cbn [DRIVE_LETTER_START_RE] in D. rewrite A1, A2 in D. discriminate.
Qed.

Definition segmentList (segments : SegmentsArg) : list str :=
  match segments with
  | OneSegment s => [s]
  | SegmentArray l => l
  end.

Lemma validSegments_filter (l : list str) :
  filter (fun s => (len s >? 0)%Z) l = filterNonEmpty l.
Proof.
  unfold filterNonEmpty. apply filter_ext. intros [|c s]; reflexivity.
Qed.

Lemma DRIVE_LETTER_START_RE_replaced (p : str) :
  DRIVE_LETTER_START_RE (normalizeWindowsPath p) = false ->
  normalizeWindowsPath p = replaceBackslashes p.
Proof.
  unfold normalizeWindowsPath. destruct p as [|c p]; [reflexivity|].
  cbn [isEmpty]. remember (replaceBackslashes (c :: p)) as s eqn:Es.
  destruct s as [|c1 [|c2 [|c3 r]]]; try reflexivity.
  destruct (DRIVE_LETTER_START_RE (c1 :: c2 :: c3 :: r)) eqn:D; [|reflexivity].
  intro H. exfalso. cbn [DRIVE_LETTER_START_RE] in D, H.
  apply andb_true_iff in D as [D D3]. apply andb_true_iff in D as [D1 D2].
  apply Ascii.eqb_eq in D2, D3. subst c2 c3.
  rewrite isAsciiLetter_upper, D1 in H. discriminate.
Qed.

Section WithRegExp.

Variable regExpExec : str -> str -> Completion (option str).

(** X28: with the default options, [attachPathSegments] on a path that is
    not empty and does not begin with a drive letter and a separator is
    [join] of the path and the segments, when one segment at least is
    not empty. *)
Theorem attachPathSegments_default_is_join (path : str) (segments : SegmentsArg) :
  path <> [] ->
  DRIVE_LETTER_START_RE (normalizeWindowsPath path) = false ->
  filterNonEmpty (segmentList segments) <> [] ->
  attachPathSegments regExpExec path segments defaultAttachOptions
  = Normal (join (path :: segmentList segments)).
Proof.
  intros Hp Hd Hs. unfold attachPathSegments.
  destruct (Z.eqb_spec (len path) 0) as [E|_]; [apply len_zero in E; contradiction|].
  cbn [defaultAttachOptions ao_position ao_normalize ao_ensureSlash ao_preserveRoot
       ao_preserveAlias truthyString].
  fold (segmentList segments). rewrite validSegments_filter.
  destruct (filterNonEmpty (segmentList segments)) as [|v vs] eqn:V; [contradiction|].
  replace (Z.of_nat (List.length (v :: vs)) =? 0)%Z with false
    by (symmetry; apply Z.eqb_neq; cbn [List.length]; lia).
  f_equal. rewrite join_filtered.
  assert (F : filterNonEmpty (path :: segmentList segments) = path :: v :: vs).
  { unfold filterNonEmpty in *. cbn [filter]. destruct path; [contradiction|].
    cbn [isEmpty negb]. now rewrite V. }
  rewrite F. change (JsString.join SLASH (path :: v :: vs))
    with (path ++ SLASH ++ JsString.join SLASH (v :: vs)).
  set (j := JsString.join SLASH (v :: vs)).
  unfold EMPTY at 1. cbn [list_ascii_of_string app].
  rewrite app_assoc.
  rewrite root_and_rest by (try apply normalizeWindowsPath_lacks; exact Hd).
  rewrite (DRIVE_LETTER_START_RE_replaced path Hd).
  rewrite <- (normalize_of_replaced (replaceBackslashes path ++ SLASH ++ j)).
  rewrite <- (normalize_of_replaced (path ++ SLASH ++ j)).
  now rewrite !replaceBackslashes_app, replaceBackslashes_idem.
Qed.

End WithRegExp.

Definition noRegExp (source subject : str) : Completion (option str) := Normal None.

Lemma attachPathSegments_default_is_join_witness :
  attachPathSegments noRegExp "src\app" (SegmentArray ["components" : str; EMPTY; "ui" : str])
    defaultAttachOptions
  = Normal (join ["src\app" : str; "components" : str; EMPTY; "ui" : str]).
Proof.
  apply (attachPathSegments_default_is_join noRegExp "src\app"
           (SegmentArray ["components" : str; EMPTY; "ui" : str])).
  - discriminate.
  - reflexivity.
  - discriminate.
Defined.

(** With a drive letter the root is taken to be one character long, and
    the letter is lost. *)
Example attachPathSegments_drive_letter :
  attachPathSegments noRegExp "C:/x" (OneSegment "y") defaultAttachOptions
  = Normal ("/:/x/y" : str)
  /\ join ["C:/x" : str; "y" : str] = "C:/x/y".
Proof. split; reflexivity. Qed.

End AttachSegmentsFacts.

(** ** [stripPathSegments] *)

Module StripSegmentsFacts.
Import JsString JsStringFacts PathKit PathKitFacts ResolveFacts NormalizeFacts PathSegments.
Import PathAlgebraFacts (join_filtered, slice_after).

(** A segment as a relative path is made of: not empty, without
    separator, neither [.] nor [..], and no drive letter with its colon *)
Definition plainSegment (s : str) : Prop :=
  s <> [] /\ lacks "/" s /\ lacks "\" s /\ s <> DOT /\ s <> DOUBLE_DOT
  /\ DRIVE_LETTER_RE s = false.

Lemma isSep_false (c : ascii) : c <> "/"%char -> c <> "\"%char -> isSep c = false.
Proof.
  intros H1 H2. unfold isSep.
  destruct (Ascii.eqb_spec c "/"); [contradiction|].
  destruct (Ascii.eqb_spec c "\"); [contradiction|reflexivity].
Qed.

Lemma plain_head (x rest : str) :
  plainSegment x -> (rest = [] \/ exists r, rest = "/"%char :: r) ->
  IS_ABSOLUTE_RE (x ++ rest) = false
  /\ PATH_ROOT_RE_exec (x ++ rest) = None
  /\ DRIVE_LETTER_START_RE (x ++ rest) = false
  /\ UNC_REGEX (x ++ rest) = false
  /\ DRIVE_LETTER_RE (x ++ rest) = false.
Proof.
  intros (Hne & Hs & Hb & _ & _ & Hd) Hrest.
  destruct x as [|c1 x]; [contradiction|].
  assert (S1 : isSep c1 = false).
  { apply isSep_false; [now inversion Hs|now inversion Hb]. }
  assert (N1 : Ascii.eqb c1 "/" = false).
  { apply Ascii.eqb_neq. now inversion Hs. }
  destruct x as [|c2 x].
  - destruct Hrest as [->|(r & ->)].
    + cbn [app IS_ABSOLUTE_RE PATH_ROOT_RE_exec DRIVE_LETTER_START_RE UNC_REGEX DRIVE_LETTER_RE].
      rewrite S1. cbn [andb orb]. now rewrite andb_false_r.
    + cbn [app IS_ABSOLUTE_RE PATH_ROOT_RE_exec DRIVE_LETTER_START_RE UNC_REGEX DRIVE_LETTER_RE].
      rewrite S1. cbn [andb orb].
      change (Ascii.eqb "/" ":") with false.
      destruct r as [|c3 r]; rewrite ?andb_false_r; cbn [andb]; repeat split; reflexivity.
  - assert (S2 : isSep c2 = false).
    { apply isSep_false.
      - inversion Hs as [|? ? _ H]. now inversion H.
      - inversion Hb as [|? ? _ H]. now inversion H. }
    destruct x as [|c3 x].
    + cbn [DRIVE_LETTER_RE] in Hd.
      destruct Hrest as [->|(r & ->)].
      * cbn [app IS_ABSOLUTE_RE PATH_ROOT_RE_exec DRIVE_LETTER_START_RE UNC_REGEX
             DRIVE_LETTER_RE].
        rewrite S1, Hd. cbn [andb orb]. now rewrite andb_false_r.
      * cbn [app IS_ABSOLUTE_RE PATH_ROOT_RE_exec DRIVE_LETTER_START_RE UNC_REGEX
             DRIVE_LETTER_RE].
        rewrite S1, Hd. cbn [andb orb].
        destruct (isAsciiLetter c1); cbn [andb] in Hd |- *; [rewrite Hd|]; repeat split; reflexivity.
    + assert (S3 : isSep c3 = false).
      { apply isSep_false.
        - inversion Hs as [|? ? _ H]. inversion H as [|? ? _ H']. now inversion H'.
        - inversion Hb as [|? ? _ H]. inversion H as [|? ? _ H']. now inversion H'. }
      assert (N3 : Ascii.eqb c3 "/" = false).
      { apply Ascii.eqb_neq. inversion Hs as [|? ? _ H]. inversion H as [|? ? _ H'].
        now inversion H'. }
      cbn [app IS_ABSOLUTE_RE PATH_ROOT_RE_exec DRIVE_LETTER_START_RE UNC_REGEX
           DRIVE_LETTER_RE].
      rewrite S1, S3, N3. cbn [andb orb]. rewrite !andb_false_r.
      destruct (x ++ rest); repeat split; reflexivity.
Qed.

Lemma plainSegment_plain (s : str) : plainSegment s -> plain s.
Proof. intros (H1 & _ & _ & H2 & H3 & _). now repeat split. Qed.

Lemma join_decompose (x : str) (t : list str) :
  Forall plainSegment t ->
  exists rest, JsString.join SLASH (x :: t) = x ++ rest
               /\ (rest = [] \/ exists r, rest = "/"%char :: r).
Proof.
  destruct t as [|y t]; intros _.
  - exists []. split; [now rewrite app_nil_r|now left].
  - exists (SLASH ++ JsString.join SLASH (y :: t)). split; [reflexivity|].
    right. eexists. reflexivity.
Qed.

Lemma plain_path_facts (l : list str) :
  l <> [] -> Forall plainSegment l ->
  let p := JsString.join SLASH l in
  p <> [] /\ lacks "\" p /\ normalizeWindowsPath p = p
  /\ IS_ABSOLUTE_RE p = false /\ PATH_ROOT_RE_exec p = None
  /\ UNC_REGEX p = false /\ DRIVE_LETTER_RE p = false.
Proof.
  intros Hne H. cbv zeta. destruct l as [|x t]; [contradiction|].
  inversion H as [|? ? Hx Ht]; subst.
  destruct (join_decompose x t Ht) as (rest & E & Hr). rewrite E.
  destruct (plain_head x rest Hx Hr) as (A & B & C & D & F).
  assert (L : lacks "\" (x ++ rest)).
  { rewrite <- E. apply join_lacks; [discriminate|].
    eapply Forall_impl; [|exact H]. now intros s (_ & _ & Hb & _). }
  split; [destruct Hx as (Hx & _); now destruct x|].
  split; [exact L|]. split; [now apply normalizeWindowsPath_id|].
  repeat split; assumption.
Qed.

Lemma endsWith_plain_path (l : list str) :
  l <> [] -> Forall plainSegment l -> endsWith (JsString.join SLASH l) SLASH = false.
Proof.
  intros Hne H. destruct (exists_last Hne) as (init & b & ->).
  apply Forall_app in H as [_ Hb]. inversion Hb as [|? ? (B1 & B2 & _) _]; subst.
  rewrite join_snoc. destruct init.
  - apply (endsWith_slash_app [] b B1 B2).
  - rewrite app_assoc. now apply endsWith_slash_app.
Qed.

(** A relative path of plain segments is its own normal form. *)
Lemma normalize_plain_path (l : list str) :
  l <> [] -> Forall plainSegment l ->
  normalize (JsString.join SLASH l) = JsString.join SLASH l.
Proof.
  intros Hne H.
  destruct (plain_path_facts l Hne H) as (P0 & P1 & P2 & P3 & P4 & P5 & P6).
  set (p := JsString.join SLASH l) in *.
  rewrite (normalize_spec p P0). cbv zeta.
  assert (St : stackOfPath p = rev l).
  { unfold stackOfPath. rewrite P2, P3. cbn [negb]. unfold p.
    rewrite split_join; [|exact Hne|].
    2:{ eapply Forall_impl; [|exact H]. now intros s (_ & Hs & _). }
    pose proof (renormalize true [] [] (rev l) 0 (Forall_nil _) (Forall_nil _)) as R.
    cbn [repeat app] in R. rewrite !app_nil_r, rev_involutive in R. apply R.
    - apply Forall_rev. eapply Forall_impl; [|exact H]. apply plainSegment_plain.
    - now left. }
  rewrite St. destruct (rev l) as [|y m] eqn:Er.
  { exfalso. apply Hne. rewrite <- (rev_involutive l), Er. reflexivity. }
  rewrite <- Er. unfold render. rewrite rev_involutive. fold p.
  rewrite P2, P3, (replaceBackslashes_id p P1), P5. cbn [andb].
  unfold tailed. rewrite P6.
  pose proof (endsWith_plain_path l Hne H) as Et. fold p in Et.
  rewrite Et. cbn [orb]. apply app_nil_r.
Qed.

Lemma trimTrailingSlashes_keep (q : str) (c : ascii) :
  c <> "/"%char ->
  trimTrailingSlashes (q ++ [c]) (List.length (q ++ [c])) = List.length (q ++ [c]).
Proof.
  intro Hc. rewrite length_app. cbn [List.length]. rewrite Nat.add_1_r.
  cbn [trimTrailingSlashes]. rewrite nth_error_app2 by lia. rewrite Nat.sub_diag.
  cbn [nth_error charIs]. destruct (Ascii.eqb_spec c "/"); [contradiction|reflexivity].
Qed.

Lemma basename_of_last (pre b : str) :
  (pre = [] \/ exists a, pre = a ++ SLASH) ->
  b <> [] -> lacks "/" b ->
  normalizeWindowsPath (pre ++ b) = pre ++ b ->
  basename (pre ++ b) None = b.
Proof.
  intros Hpre Hb Hl Hn. unfold basename. rewrite Hn.
  destruct (exists_last Hb) as (b' & c & Eb).
  assert (Hc : c <> "/"%char).
  { rewrite Eb in Hl. apply Forall_app in Hl as [_ Hl]. now inversion Hl. }
  assert (T : trimTrailingSlashes (pre ++ b) (List.length (pre ++ b)) = List.length (pre ++ b)).
  { rewrite Eb, app_assoc. now apply trimTrailingSlashes_keep. }
  rewrite T.
  assert (Hlen : (0 < len (pre ++ b))%Z).
  { rewrite len_app. pose proof (len_nonneg pre). destruct b; [contradiction|].
    unfold len. cbn [List.length]. lia. }
  fold (len (pre ++ b)).
  destruct (Z.eqb_spec (len (pre ++ b)) 0) as [Z|_]; [lia|].
  cbv zeta. unfold lastIndexOfFrom.
  replace (Z.to_nat (len (pre ++ b) - 1 + 1)) with (List.length (pre ++ b))
    by (unfold len; lia).
  rewrite firstn_all.
  destruct Hpre as [->|(a & ->)].
  - cbn [app]. rewrite lastIndexOf_lacks by exact Hl. cbn [Z.eqb].
    pose proof (slice_prefix b []) as S. now rewrite app_nil_r in S.
  - rewrite <- app_assoc. cbn [SLASH list_ascii_of_string app].
    rewrite lastIndexOf_app by exact Hl.
    assert (Hn1 : (len a =? -1)%Z = false).
    { apply Z.eqb_neq. pose proof (len_nonneg a). lia. }
    rewrite Hn1.
    pose proof (slice_after a b [] "/"%char) as S. rewrite app_nil_r in S.
    replace (len (a ++ "/"%char :: b)) with (len a + 1 + len b)%Z; [exact S|].
    rewrite len_app. unfold len. cbn [List.length]. lia.
Qed.

Lemma dirname_of_parent (a b : str) :
  a <> [] -> lacks "/" b ->
  normalizeWindowsPath (a ++ SLASH ++ b) = a ++ SLASH ++ b ->
  dirname (a ++ SLASH ++ b)
  = if DRIVE_LETTER_RE a && (len a =? 2)%Z then a ++ SLASH else normalize a.
Proof.
  intros Ha Hl Hn. unfold dirname. rewrite Hn.
  assert (Hlen : (0 < len a)%Z).
  { destruct a; [contradiction|]. unfold len. cbn [List.length]. lia. }
  destruct (Z.eqb_spec (len (a ++ SLASH ++ b)) 0) as [Z|_].
  { rewrite len_app in Z. pose proof (len_nonneg (SLASH ++ b)). lia. }
  cbn [SLASH list_ascii_of_string app]. rewrite lastIndexOf_app by exact Hl.
  destruct (Z.eqb_spec (len a) (-1)) as [Z|_]; [lia|].
  destruct (Z.eqb_spec (len a) 0) as [Z|_]; [lia|].
  cbv zeta. now rewrite slice_prefix.
Qed.

Lemma dirname_of_single (p : str) :
  p <> [] -> lacks "/" p -> normalizeWindowsPath p = p -> IS_ABSOLUTE_RE p = false ->
  dirname p = DOT.
Proof.
  intros Hp Hl Hn Ha. unfold dirname. rewrite Hn.
  destruct (Z.eqb_spec (len p) 0) as [Z|_]; [apply len_zero in Z; contradiction|].
  rewrite lastIndexOf_lacks by exact Hl. cbn [Z.eqb]. now rewrite Ha.
Qed.

Lemma filterNonEmpty_plain (l : list str) :
  Forall plainSegment l -> filterNonEmpty l = l.
Proof.
  unfold filterNonEmpty. induction 1 as [|x l (Hx & _) Hl IH]; [reflexivity|].
  cbn [filter]. destruct x; [contradiction|]. cbn [isEmpty negb]. now rewrite IH.
Qed.

Lemma isDotSegment_plain (s : str) : plainSegment s -> isDotSegment s = false.
Proof.
  intros (_ & _ & _ & H1 & H2 & _). unfold isDotSegment.
  apply eqb_neq in H1, H2. now rewrite H1, H2.
Qed.

Lemma parse_plain_path (init : list str) (b : str) :
  Forall plainSegment (init ++ [b]) ->
  let parsed := parse (JsString.join SLASH (init ++ [b])) in
  root parsed = EMPTY /\ base parsed = b
  /\ dir parsed = match init with [] => DOT | _ => JsString.join SLASH init end.
Proof.
  intro H. cbv zeta.
  assert (Hne : init ++ [b] <> []) by (destruct init; discriminate).
  destruct (plain_path_facts _ Hne H) as (P0 & P1 & P2 & P3 & P4 & P5 & P6).
  pose proof H as H'. apply Forall_app in H' as [Hi Hb].
  inversion Hb as [|? ? Hb' _]; subst. destruct Hb' as (B1 & B2 & _).
  unfold parse. rewrite P2, P4. cbn [root base dir].
  change (negb (eqb EMPTY EMPTY)) with false. rewrite andb_false_r. cbn [andb].
  split; [reflexivity|].
  rewrite join_snoc in *. destruct init as [|i0 it].
  - split.
    + apply (basename_of_last [] b); [now left|exact B1|exact B2|exact P2].
    + apply dirname_of_single; assumption.
  - set (a := JsString.join SLASH (i0 :: it)) in *.
    assert (Ha : i0 :: it <> []) by discriminate.
    destruct (plain_path_facts _ Ha Hi) as (A0 & _ & _ & _ & _ & _ & A6).
    fold a in A0, A6. split.
    + rewrite app_assoc. rewrite app_assoc in P2.
      apply basename_of_last; [right; now exists a|exact B1|exact B2|exact P2].
    + rewrite dirname_of_parent; [|exact A0|exact B2|exact P2].
      rewrite A6. cbn [andb]. apply normalize_plain_path; assumption.
Qed.

(** X29: on a relative path made of plain segments joined by slashes,
    [stripPathSegments] with a positive count and no alias removes that
    many leading segments, and gives ["."] when none is left. *)
Theorem stripPathSegments_relative (l : list str) (count : Z) :
  l <> [] -> Forall plainSegment l -> (0 < count)%Z ->
  stripPathSegments (JsString.join SLASH l) count EMPTY
  = if (Z.of_nat (List.length l) <=? count)%Z then DOT
    else JsString.join SLASH (skipn (Z.to_nat count) l).
Proof.
  intros Hne H Hc.
  destruct (plain_path_facts l Hne H) as (P0 & P1 & P2 & P3 & P4 & P5 & P6).
  destruct (exists_last Hne) as (init & b & ->).
  destruct (parse_plain_path init b H) as (R & B & D).
  pose proof H as H'. apply Forall_app in H' as [Hi Hb].
  inversion Hb as [|? ? Hb' _]; subst.
  unfold stripPathSegments.
  destruct (Z.eqb_spec (len (JsString.join SLASH (init ++ [b]))) 0) as [Z|_].
  { apply len_zero in Z. contradiction. }
  destruct (Z.leb_spec count 0) as [Z|_]; [lia|].
  rewrite P2, R, B, D.
  change (negb (isEmpty EMPTY)) with false. cbn [andb].
  assert (Eb : isEmpty b = false) by (destruct Hb' as (Hb' & _); now destruct b).
  rewrite Eb.
  destruct init as [|i0 it].
  - change (negb (isEmpty DOT) && negb (eqb DOT EMPTY)) with true. cbv iota.
    change (split "/" DOT) with [DOT].
    cbn [app filterNonEmpty filter isEmpty negb DOT list_ascii_of_string]. rewrite Eb.
    cbn [negb]. cbn [shiftDotSegments].
    change (isDotSegment ["."%char]) with true. cbv iota.
    rewrite (isDotSegment_plain b Hb'). cbv iota beta.
    cbn [app List.length].
    replace (Z.min count (Z.of_nat 1)) with 1%Z by lia.
    cbn [Z.to_nat Pos.to_nat Pos.iter_op Nat.add skipn app].
    replace (Z.of_nat 1 <=? count)%Z with true by (symmetry; apply Z.leb_le; lia).
    reflexivity.
  - set (a := JsString.join SLASH (i0 :: it)).
    assert (Ha : i0 :: it <> []) by discriminate.
    destruct (plain_path_facts _ Ha Hi) as (A0 & _).
    fold a in A0.
    assert (Ea : negb (isEmpty a) && negb (eqb a EMPTY) = true).
    { destruct a; [contradiction|reflexivity]. }
    rewrite Ea. unfold a. rewrite split_join; [|exact Ha|].
    2:{ eapply Forall_impl; [|exact Hi]. now intros s (_ & Hs & _). }
    rewrite (filterNonEmpty_plain _ H).
    cbn [app shiftDotSegments].
    inversion Hi as [|? ? Hi0 Hit]; subst.
    rewrite (isDotSegment_plain i0 Hi0).
    change (i0 :: it ++ [b]) with ((i0 :: it) ++ [b]).
    set (l := (i0 :: it) ++ [b]) in *. cbn [app].
    destruct (Z.leb_spec (Z.of_nat (List.length l)) count) as [Z|Z].
    + rewrite Z.min_r by lia. rewrite Nat2Z.id, skipn_all. reflexivity.
    + rewrite Z.min_l by lia.
      assert (F : Forall plainSegment (skipn (Z.to_nat count) l)).
      { rewrite <- (firstn_skipn (Z.to_nat count) l) in H. now apply Forall_app in H. }
      destruct (skipn (Z.to_nat count) l) as [|r0 rs] eqn:Sk.
      { exfalso. assert (L : List.length (skipn (Z.to_nat count) l) = 0%nat) by now rewrite Sk.
        rewrite length_skipn in L. lia. }
      rewrite join_filtered, (filterNonEmpty_plain _ F).
      apply normalize_plain_path; [discriminate|exact F].
Qed.

Definition buttonPath : list str :=
  ["src" : str; "components" : str; "Button.tsx" : str].

Lemma stripPathSegments_relative_witness :
  stripPathSegments "src/components/Button.tsx" 1 EMPTY = "components/Button.tsx".
Proof.
  apply (stripPathSegments_relative buttonPath 1).
  - discriminate.
  - repeat (constructor;
            [repeat split; try discriminate; repeat (constructor; [discriminate|]); constructor|]).
    constructor.
  - lia.
Defined.

(** A rooted path comes back with two slashes in front: the root is
    joined to the remaining segments as a segment of its own. *)
Example stripPathSegments_rooted :
  stripPathSegments "/a/b/c" 1 EMPTY = "//b/c".
Proof. reflexivity. Qed.

End StripSegmentsFacts.

(** ** The repository's unit tests, replayed on the embedding *)

Module PathKitTests.
Import PathKit.

Definition unixCwd : option str := Some ("/base/dir" : str).

Example normalize_test_1 :
  normalize "/foo/bar//baz/asdf/quux/.." = "/foo/bar/baz/asdf".
Proof. reflexivity. Qed.

Example normalize_test_2 : normalize "C:\foo\..\bar" = "C:/bar".
Proof. reflexivity. Qed.

Example normalize_test_3 : normalize "" = ".".
Proof. reflexivity. Qed.

Example join_test_1 : join ["/foo" : str; "bar" : str; "baz/asdf" : str] = "/foo/bar/baz/asdf".
Proof. reflexivity. Qed.

Example join_test_2 : join ["foo" : str; "../bar" : str] = "bar".
Proof. reflexivity. Qed.

Example join_test_3 : join [] = ".".
Proof. reflexivity. Qed.

Example resolve_test_1 :
  resolve unixCwd ["foo/bar" : str; "./baz" : str] = "/base/dir/foo/bar/baz".
Proof. reflexivity. Qed.

Example resolve_test_2 : resolve unixCwd ["/foo/bar" : str; "./baz" : str] = "/foo/bar/baz".
Proof. reflexivity. Qed.

Example isAbsolute_tests :
  isAbsolute "/foo/bar" = true /\ isAbsolute "C:/foo" = true /\
  isAbsolute "./foo" = false /\ isAbsolute "foo/bar" = false.
Proof. repeat split. Qed.

Example dirname_tests :
  dirname "/foo/bar/baz" = "/foo/bar" /\ dirname "/foo/bar/baz/" = "/foo/bar/baz" /\
  dirname "foo/bar" = "foo" /\ dirname "foo" = ".".
Proof. repeat split. Qed.

Example basename_tests :
  basename "/foo/bar/baz.txt" None = "baz.txt" /\
  basename "/foo/bar/baz.txt" (Some (".txt" : str)) = "baz" /\
  basename "/foo/bar/baz/" None = "baz".
Proof. repeat split. Qed.

Example extname_tests :
  extname "index.html" = ".html" /\ extname "index." = "." /\
  extname "index" = "" /\ extname ".index" = "".
Proof. repeat split. Qed.

Example relative_tests :
  relative unixCwd "/data/orandea/test/aaa" "/data/orandea/impl/bbb" = "../../impl/bbb" /\
  relative unixCwd "C:/foo/bar" "C:/foo/baz" = "../baz" /\
  relative unixCwd "/foo/bar" "/foo/bar" = "".
Proof. repeat split. Qed.

Example normalizeWindowsPath_tests :
  normalizeWindowsPath "C:\foo\bar" = "C:/foo/bar" /\
  normalizeWindowsPath "c:\foo\bar" = "C:/foo/bar" /\
  normalizeWindowsPath "/foo/bar" = "/foo/bar" /\
  normalizeWindowsPath "" = "".
Proof. repeat split. Qed.

End PathKitTests.

Module AliasTableTests.
Import PathKit AliasTable.

Definition testAliases : JsObject :=
  mkObject [("@" : str, "./test-src" : str);
            ("@components" : str, "./test-src/components" : str)] false.

Example resolveAlias_test_1 :
  option_map snd (resolveAlias [testAliases] "@/foo/bar" 0) = Some ("test-src/foo/bar" : str).
Proof. reflexivity. Qed.

Example resolveAlias_test_2 :
  option_map snd (resolveAlias [testAliases] "@components/Button" 0)
  = Some ("test-src/components/Button" : str).
Proof. reflexivity. Qed.

Example resolveAlias_test_3 :
  option_map snd (resolveAlias [testAliases] "regular/path" 0) = Some ("regular/path" : str).
Proof. reflexivity. Qed.

Example reverseResolveAlias_test_1 :
  option_map snd (reverseResolveAlias [testAliases] "./test-src/foo/bar" 0)
  = Some [("@/foo/bar" : str)].
Proof. reflexivity. Qed.

Example reverseResolveAlias_test_2 :
  option_map snd (reverseResolveAlias [testAliases] "regular/path" 0) = Some [].
Proof. reflexivity. Qed.

End AliasTableTests.

Module ScannerTests.
Import Scanner.

Definition basicContent : str := "
      import { Button } from './components/Button';
      import type { Props } from './types';
      import * as utils from '@/utils';
      import defaultExport from '/absolute/path';
      export { default as MyComponent } from './MyComponent';
      export const foo = 'bar';
      export default function App() {}
    ".

Definition analysis : list ImportExportInfo :=
  RegExp.getFileImportsExports basicContent (mkOptions None None None).

Definition isKind (k : Kind) (i : ImportExportInfo) : bool :=
  match kind i, k with
  | KImport, KImport | KExport, KExport => true
  | _, _ => false
  end.

Definition hasPathType (t : PathType) (i : ImportExportInfo) : bool :=
  match pathType i with
  | Some u => pathType_eqb u t
  | None => false
  end.

Example basic_counts :
  List.length analysis = 7 /\
  List.length (filter (isKind KImport) analysis) = 4 /\
  List.length (filter (isKind KExport) analysis) = 3 /\
  List.length (filter (hasPathType PtRelative) analysis) = 3 /\
  List.length (filter (hasPathType PtAlias) analysis) = 1 /\
  List.length (filter (hasPathType PtAbsolute) analysis) = 1.
Proof. repeat split. Qed.

Definition typeOnlyContent : str := "
      import type { Props } from './types';
      import { type Component, Button } from './components';
      import type * as Types from './all-types';
    ".

Example type_only_imports :
  map (fun i => (isTypeOnly i,
                 map (fun s => (spec_name s, spec_isType s)) (specifiers i)))
      (RegExp.getFileImportsExports typeOnlyContent (mkOptions None None None))
  = [(true, [("Props" : str, Some true)]);
     (false, [("Component" : str, Some true); ("Button" : str, Some false)]);
     (true, [("Types" : str, Some true)])].
Proof. reflexivity. Qed.

Definition specifierContent : str := "
      import { Button, Text as Label } from './components';
      import * as utils from '@/utils';
      import defaultExport from './default';
    ".

Example specifier_extraction :
  map (fun i => map (fun s => (spec_type s, spec_name s, spec_alias s)) (specifiers i))
      (RegExp.getFileImportsExports specifierContent (mkOptions None None None))
  = [[(SpNamed, "Button" : str, None); (SpNamed, "Text" : str, Some ("Label" : str))];
     [(SpNamespace, "utils" : str, None)];
     [(SpDefault, "defaultExport" : str, None)]].
Proof. reflexivity. Qed.

End ScannerTests.

Module DlerScannerTests.
Import JsString Dler DlerScanner.

Definition q (s : str) : str := [DQUOTE] ++ s ++ [DQUOTE].

Definition nl : str := [ascii_of_nat 10].

(** The example of the doc comment of the deprecated [getFileImportsExports] *)
Definition docExample : str :=
  "import { ref } from " ++ q "vue" ++ ";" ++ nl ++
  "export { default as MyComponent } from " ++ q "./MyComponent" ++ ";" ++ nl ++
  "export * from " ++ q "./utils" ++ ";" ++ nl ++
  "export const x = 1;" ++ nl.

Example doc_example_statements :
  map (fun i => (start i, pathType i))
      (DlerRegExp.getFileImportsExports docExample (mkOptions None None None))
  = [(0%Z, Some Module_); (27%Z, Some Relative); (83%Z, Some Relative)].
Proof. reflexivity. Qed.

Example doc_example_relative_limit_two :
  map start
      (DlerRegExp.getFileImportsExports docExample
         (mkOptions (Some [Relative]) (Some 2%Z) (Some Scanner.All)))
  = [27%Z; 83%Z].
Proof. reflexivity. Qed.

Example doc_example_specifiers :
  map (fun i => option_map (map (fun s => (Scanner.spec_type s, Scanner.spec_name s,
                                           Scanner.spec_alias s)))
                           (specifiers i))
      (DlerRegExp.getFileImportsExports docExample (mkOptions None None None))
  = [Some [(Scanner.SpNamed, "ref" : str, None)];
     Some [(Scanner.SpNamed, "default" : str, Some ("MyComponent" : str))];
     Some [(Scanner.SpAll, "*" : str, None)]].
Proof. reflexivity. Qed.

End DlerScannerTests.
